(** * A verified model of [cli.py]: declarative command-line specifications,
      the token-scanning parser and the help renderer.

    The development is a shallow embedding.  Python objects become records,
    [raise] becomes the [Raise] outcome of a small error monad, the
    [SimpleNamespace] that collects the parsed values becomes a finite map
    from attribute names to values, and the [set] of still-missing required
    flags becomes a finite set.

    Conventions of the embedding:
    - a Python [str] is a [string]; a character stands for the Unicode code
      point with the same number (0..255), and [isspace] / [lower] are the
      Python ones restricted to that range;
    - the finite map holds the attributes stored on the [SimpleNamespace]
      (its instance dictionary); [hasattr] and [getattr] also see the
      attributes that every [SimpleNamespace] inherits from its class
      ([__doc__], [__class__], [__init__], ...), and [setattr] refuses
      [__class__] and [__dict__];
    - a caller-supplied conversion function is a function from the token to
      an outcome: the value it returns or the exception it raises;
    - [repr] is a parameter of the development. *)

From Stdlib Require Import ZArith List String Ascii Bool Lia.
From stdpp Require Import base option list strings gmap.
Import ListNotations.

Local Open Scope string_scope.

(** ** Python primitives on strings *)

Module Py.

(** [str.isspace] on one character, for code points below 256. *)
Definition isspace (c : ascii) : bool :=
  let n := nat_of_ascii c in
  (((9 <=? n) && (n <=? 13)) || ((28 <=? n) && (n <=? 32))
   || (n =? 133) || (n =? 160))%nat.

Fixpoint lstrip (s : string) : string :=
  match s with
  | EmptyString => EmptyString
  | String c r => if isspace c then lstrip r else s
  end.

Fixpoint rstrip (s : string) : string :=
  match s with
  | EmptyString => EmptyString
  | String c r =>
      match rstrip r with
      | EmptyString => if isspace c then EmptyString else String c EmptyString
      | r' => String c r'
      end
  end.

(** [s.strip()] *)
Definition strip (s : string) : string := rstrip (lstrip s).

(** [str.lower] on one character, for code points below 256: the upper-case
    letters are A..Z and the Latin-1 letters 192..222 except the
    multiplication sign 215; each maps to the code point 32 above. *)
Definition lower_char (c : ascii) : ascii :=
  let n := nat_of_ascii c in
  if (((65 <=? n) && (n <=? 90))
      || ((192 <=? n) && (n <=? 222) && negb (n =? 215)))%nat
  then ascii_of_nat (n + 32) else c.

(** [s.lower()] *)
Fixpoint lower (s : string) : string :=
  match s with
  | EmptyString => EmptyString
  | String c r => String (lower_char c) (lower r)
  end.

(** [s.startswith(p)] *)
Fixpoint startswith (s p : string) : bool :=
  match p with
  | EmptyString => true
  | String a p' =>
      match s with
      | EmptyString => false
      | String b s' => Ascii.eqb b a && startswith s' p'
      end
  end.

(** [len(s)] *)
Definition len (s : string) : nat := String.length s.

(** [s[1:]] *)
Definition tail (s : string) : string :=
  match s with
  | EmptyString => EmptyString
  | String _ r => r
  end.

(** [list(s)]: the characters of [s], each as a one-character string. *)
Fixpoint chars (s : string) : list string :=
  match s with
  | EmptyString => []
  | String c r => String c EmptyString :: chars r
  end.

(** The text before the first [=] and, when there is one, the text after it. *)
Fixpoint cut_eq (s : string) : string * option string :=
  match s with
  | EmptyString => (EmptyString, None)
  | String c r =>
      if Ascii.eqb c "="%char then (EmptyString, Some r)
      else let '(a, b) := cut_eq r in (String c a, b)
  end.

(** [s.split("=", 1)]: one part when [s] has no [=], else two. *)
Definition split_eq1 (s : string) : list string :=
  match cut_eq s with
  | (a, None) => [a]
  | (a, Some b) => [a; b]
  end.

(** [sep.join(parts)] *)
Fixpoint join (sep : string) (parts : list string) : string :=
  match parts with
  | [] => EmptyString
  | [p] => p
  | p :: rest => p +:+ sep +:+ join sep rest
  end.

(** [f"{s:<{width}}"]: [s] followed by spaces up to [width] characters. *)
Fixpoint spaces (n : nat) : string :=
  match n with
  | O => EmptyString
  | S k => String " "%char (spaces k)
  end.

Definition ljust (s : string) (width : nat) : string :=
  s +:+ spaces (width - String.length s).

(** The double-quote character, as a string. *)
Definition dquote : string := String (ascii_of_nat 34) EmptyString.

End Py.

(** ** Python values and exceptions *)

(** The values that end up in a result: [None], booleans, integers, strings,
    lists, and any other object (what a conversion function may build), of
    which only its truth value and an identifying tag are kept. *)
#[warnings="-register-all"]
Inductive value : Type :=
| VNone
| VBool (b : bool)
| VInt (z : Z)
| VStr (s : string)
| VList (l : list value)
| VObj (truth : bool) (tag : string).

(** [bool(v)] *)
Definition truthy (v : value) : bool :=
  match v with
  | VNone => false
  | VBool b => b
  | VInt z => negb (z =? 0)%Z
  | VStr s => negb (String.eqb s EmptyString)
  | VList l => match l with [] => false | _ => true end
  | VObj t _ => t
  end.

(** The exception classes that matter to the [except] clauses of the parser.
    [KeyboardInterrupt], [SystemExit] and [GeneratorExit] derive from
    [BaseException] only; all the others derive from [Exception]
    ([InterruptedError] through [OSError]). *)
Inductive exc_class : Type :=
| KeyboardInterrupt
| SystemExit
| GeneratorExit
| InterruptedError
| OSError
| ValueError
| TypeError
| AttributeError
| IndexError
| OtherException.

(** [isinstance(err, Exception)] *)
Definition is_Exception (c : exc_class) : bool :=
  match c with
  | KeyboardInterrupt | SystemExit | GeneratorExit => false
  | _ => true
  end.

(** [isinstance(err, (InterruptedError, KeyboardInterrupt))] *)
Definition is_interrupt (c : exc_class) : bool :=
  match c with
  | InterruptedError | KeyboardInterrupt => true
  | _ => false
  end.

(** An exception object: its class and [str(err)]. *)
Record exc : Type := mkExc { exc_cls : exc_class; exc_str : string }.

(** What a call does: return a value or raise an exception. *)
Inductive outcome (A : Type) : Type :=
| Return (a : A)
| Raise (e : exc).
Arguments Return {A} a.
Arguments Raise {A} e.

Definition bind {A B : Type} (m : outcome A) (k : A -> outcome B) : outcome B :=
  match m with
  | Return a => k a
  | Raise e => Raise e
  end.

Declare Scope py_scope.
Delimit Scope py_scope with py.
Notation "'let*' x ':=' m 'in' k" := (bind m (fun x => k))
  (at level 10, x name, m at level 100, k at level 200) : py_scope.
Local Open Scope py_scope.

(** [raise ValueError(msg)] *)
Definition raise_ValueError {A : Type} (msg : string) : outcome A :=
  Raise (mkExc ValueError msg).

(** ** The specification model: [Flag], [Param], [Command] *)

(** [Flag._kind]: one of the literals ["value"], ["count"], ["present"]. *)
Inductive kind : Type := present | valued | count.

Definition kind_eqb (a b : kind) : bool :=
  match a, b with
  | present, present | valued, valued | count, count => true
  | _, _ => false
  end.

(** A conversion function, [Callable[[str], Any]]. *)
Definition converter : Type := string -> outcome value.

Record Flag : Type := mkFlag {
  flag_name : string;
  flag_description : option string;
  flag_required : bool;
  flag_short : list string;
  flag_long : list string;
  flag_parser : option converter;
  flag_kind : kind;
  flag_default : value
}.

Record Param : Type := mkParam {
  param_name : string;
  param_description : option string;
  param_required : bool;
  param_parser : option converter;
  param_default : value
}.

Record Command : Type := mkCommand {
  cmd_name : string;
  cmd_description : option string;
  cmd_short : list string;
  cmd_long : list string;
  cmd_disable_name : bool;
  cmd_flags : list Flag;
  cmd_params : list Param
}.

(** [Flag.is_optional], [Flag.is_required], [Param.is_optional] *)
Definition Flag_is_optional (self : Flag) : bool := negb (flag_required self).
Definition Flag_is_required (self : Flag) : bool := flag_required self.
Definition Param_is_optional (self : Param) : bool :=
  negb (param_required self).

(** [Union[Flag, Param]], the argument of [Command.arg]. *)
Inductive item : Type :=
| IFlag (f : Flag)
| IParam (p : Param).

(** [arg._name] *)
Definition item_name (arg : item) : string :=
  match arg with
  | IFlag f => flag_name f
  | IParam p => param_name p
  end.

Section Cli.

(** Python's [repr]. *)
Variable repr : value -> string.

(** *** Builders of [Command] *)

(** [Command.__init__]: the name is checked after trimming and stored as it
    was given. *)
Definition Command_init (name : string) (description : option string)
  : outcome Command :=
  if String.eqb (Py.strip name) "" then
    raise_ValueError "name must be a non-empty string!"
  else
    Return {| cmd_name := name; cmd_description := description;
              cmd_short := []; cmd_long := []; cmd_disable_name := false;
              cmd_flags := []; cmd_params := [] |}.

Definition Command_name (self : Command) : string := cmd_name self.

(** [Command.short] *)
Definition Command_short (self : Command) (short : string) : outcome Command :=
  let short := Py.strip short in
  if Py.startswith short "--" then
    raise_ValueError ("command " +:+ Command_name self
                      +:+ ": short-flag cannot start with '--'")
  else if negb (Py.startswith short "-") then
    raise_ValueError ("command " +:+ Command_name self
                      +:+ ": short-flag must start with '-'")
  else if negb (Py.len short =? 2)%nat then
    raise_ValueError ("command " +:+ Command_name self
                      +:+ ": short-flags must be only 2 characters long!")
  else
    Return {| cmd_name := cmd_name self;
              cmd_description := cmd_description self;
              cmd_short := cmd_short self ++ [short];
              cmd_long := cmd_long self;
              cmd_disable_name := cmd_disable_name self;
              cmd_flags := cmd_flags self; cmd_params := cmd_params self |}.

(** [Command.long] *)
Definition Command_long (self : Command) (long : string) : outcome Command :=
  let long := Py.strip long in
  if negb (Py.startswith long "--") then
    raise_ValueError ("command " +:+ Command_name self
                      +:+ ": long-flag must start with '--'")
  else
    Return {| cmd_name := cmd_name self;
              cmd_description := cmd_description self;
              cmd_short := cmd_short self;
              cmd_long := cmd_long self ++ [long];
              cmd_disable_name := cmd_disable_name self;
              cmd_flags := cmd_flags self; cmd_params := cmd_params self |}.

(** [self._params[-1].is_optional()], guarded by [len(self._params) > 0]. *)
Definition last_param_optional (params : list Param) : bool :=
  match last params with
  | Some p => Param_is_optional p
  | None => false
  end.

(** [Command.arg] *)
Definition Command_arg (self : Command) (arg : item) : outcome Command :=
  let exists_msg :=
    "command " +:+ cmd_name self +:+ ": item with name "
    +:+ repr (VStr (item_name arg)) +:+ " already exists" in
  if existsb (fun flag => String.eqb (flag_name flag) (item_name arg))
       (cmd_flags self)
  then raise_ValueError exists_msg
  else if existsb (fun param => String.eqb (param_name param) (item_name arg))
            (cmd_params self)
  then raise_ValueError exists_msg
  else
    match arg with
    | IFlag flag =>
        if (length (flag_short flag) + length (flag_long flag) =? 0)%nat then
          raise_ValueError "flag must have at least on short/long name"
        else
          Return {| cmd_name := cmd_name self;
                    cmd_description := cmd_description self;
                    cmd_short := cmd_short self; cmd_long := cmd_long self;
                    cmd_disable_name := cmd_disable_name self;
                    cmd_flags := cmd_flags self ++ [flag];
                    cmd_params := cmd_params self |}
    | IParam param =>
        if negb (Param_is_optional param)
           && (0 <? length (cmd_params self))%nat
           && last_param_optional (cmd_params self)
        then
          raise_ValueError ("command " +:+ Command_name self
                            +:+ ": optional parameters must appear last")
        else
          Return {| cmd_name := cmd_name self;
                    cmd_description := cmd_description self;
                    cmd_short := cmd_short self; cmd_long := cmd_long self;
                    cmd_disable_name := cmd_disable_name self;
                    cmd_flags := cmd_flags self;
                    cmd_params := cmd_params self ++ [param] |}
    end.

(** *** Builders of [Flag] *)

(** [Flag.__init__]: the name is trimmed, then checked and stored. *)
Definition Flag_init (name : string) (description : option string)
  : outcome Flag :=
  let name := Py.strip name in
  if String.eqb name "" then
    raise_ValueError "name must be a non-empty string!"
  else
    Return {| flag_name := name; flag_description := description;
              flag_required := false; flag_short := []; flag_long := [];
              flag_parser := None; flag_kind := present;
              flag_default := VNone |}.

(** [Flag.short] *)
Definition Flag_short (self : Flag) (name : string) : outcome Flag :=
  let name := Py.strip name in
  if Py.startswith name "--" then
    raise_ValueError ("command " +:+ flag_name self
                      +:+ ": short-flag cannot start with '--'")
  else if negb (Py.startswith name "-") then
    raise_ValueError ("command " +:+ flag_name self
                      +:+ ": short-flag must start with '-'")
  else if negb (Py.len name =? 2)%nat then
    raise_ValueError ("command " +:+ flag_name self
                      +:+ ": short-flags must be only 2 characters long!")
  else
    Return {| flag_name := flag_name self;
              flag_description := flag_description self;
              flag_required := flag_required self;
              flag_short := flag_short self ++ [name];
              flag_long := flag_long self;
              flag_parser := flag_parser self; flag_kind := flag_kind self;
              flag_default := flag_default self |}.

(** [Flag.long] *)
Definition Flag_long (self : Flag) (name : string) : outcome Flag :=
  let name := Py.strip name in
  if negb (Py.startswith name "--") then
    raise_ValueError ("command " +:+ flag_name self
                      +:+ ": long-flag must start with '--'")
  else if (Py.len name =? 2)%nat then
    raise_ValueError ("command " +:+ flag_name self
                      +:+ ": long-flag must not be empty")
  else
    Return {| flag_name := flag_name self;
              flag_description := flag_description self;
              flag_required := flag_required self;
              flag_short := flag_short self;
              flag_long := flag_long self ++ [name];
              flag_parser := flag_parser self; flag_kind := flag_kind self;
              flag_default := flag_default self |}.

(** [Flag.valued], [Flag.count], [Flag.default], [Flag.optional] *)
Definition Flag_valued (self : Flag) : Flag :=
  {| flag_name := flag_name self; flag_description := flag_description self;
     flag_required := flag_required self; flag_short := flag_short self;
     flag_long := flag_long self; flag_parser := flag_parser self;
     flag_kind := valued; flag_default := flag_default self |}.

Definition Flag_count (self : Flag) : Flag :=
  {| flag_name := flag_name self; flag_description := flag_description self;
     flag_required := flag_required self; flag_short := flag_short self;
     flag_long := flag_long self; flag_parser := flag_parser self;
     flag_kind := count; flag_default := flag_default self |}.

Definition Flag_default (self : Flag) (val : value) : Flag :=
  {| flag_name := flag_name self; flag_description := flag_description self;
     flag_required := flag_required self; flag_short := flag_short self;
     flag_long := flag_long self; flag_parser := flag_parser self;
     flag_kind := flag_kind self; flag_default := val |}.

Definition Flag_optional (self : Flag) : Flag :=
  {| flag_name := flag_name self; flag_description := flag_description self;
     flag_required := false; flag_short := flag_short self;
     flag_long := flag_long self; flag_parser := flag_parser self;
     flag_kind := flag_kind self; flag_default := flag_default self |}.

(** [Flag.parser] *)
Definition Flag_parser (self : Flag) (parser : converter) : outcome Flag :=
  if negb (kind_eqb (flag_kind self) valued) then
    raise_ValueError ("flag " +:+ flag_name self
                      +:+ ": only 'valued' flags can set a value-parser")
  else
    Return {| flag_name := flag_name self;
              flag_description := flag_description self;
              flag_required := flag_required self;
              flag_short := flag_short self; flag_long := flag_long self;
              flag_parser := Some parser; flag_kind := flag_kind self;
              flag_default := flag_default self |}.

(** *** Builders of [Param] *)

(** [Param.__init__]: the name is trimmed, then checked and stored. *)
Definition Param_init (name : string) (description : option string)
  : outcome Param :=
  let name := Py.strip name in
  if String.eqb name "" then
    raise_ValueError "name must be a non-empty string!"
  else
    Return {| param_name := name; param_description := description;
              param_required := true; param_parser := None;
              param_default := VNone |}.

Definition Param_optional (self : Param) : Param :=
  {| param_name := param_name self;
     param_description := param_description self;
     param_required := false; param_parser := param_parser self;
     param_default := param_default self |}.

Definition Param_parser (self : Param) (parser : converter) : Param :=
  {| param_name := param_name self;
     param_description := param_description self;
     param_required := param_required self; param_parser := Some parser;
     param_default := param_default self |}.

Definition Param_default (self : Param) (val : value) : Param :=
  {| param_name := param_name self;
     param_description := param_description self;
     param_required := param_required self;
     param_parser := param_parser self; param_default := val |}.

(** ** The result container and the parser state *)

(** [Args]: the command name and the [SimpleNamespace] of values. *)
Record Args : Type := mkArgs {
  args_command : string;
  args_values : gmap string value
}.

(** [_ArgParse] *)
Record _ArgParse : Type := mkArgParse {
  commands : list Command;
  argv : list string;
  command : Command;
  idx : nat;
  param_idx : nat;
  values : gmap string value;
  required_flags : gset string
}.

Definition set_idx (self : _ArgParse) (i : nat) : _ArgParse :=
  {| commands := commands self; argv := argv self; command := command self;
     idx := i; param_idx := param_idx self; values := values self;
     required_flags := required_flags self |}.

Definition set_param_idx (self : _ArgParse) (i : nat) : _ArgParse :=
  {| commands := commands self; argv := argv self; command := command self;
     idx := idx self; param_idx := i; values := values self;
     required_flags := required_flags self |}.

Definition set_values (self : _ArgParse) (vs : gmap string value) : _ArgParse :=
  {| commands := commands self; argv := argv self; command := command self;
     idx := idx self; param_idx := param_idx self; values := vs;
     required_flags := required_flags self |}.

Definition set_required_flags (self : _ArgParse) (rs : gset string)
  : _ArgParse :=
  {| commands := commands self; argv := argv self; command := command self;
     idx := idx self; param_idx := param_idx self; values := values self;
     required_flags := rs |}.

(** [type(v).__name__] *)
Definition type_name (v : value) : string :=
  match v with
  | VNone => "NoneType"
  | VBool _ => "bool"
  | VInt _ => "int"
  | VStr _ => "str"
  | VList _ => "list"
  | VObj _ tag => tag
  end.

(** *** Attributes of the [SimpleNamespace]

    The map [vs] is the instance dictionary of the namespace.  Attribute
    access on a [SimpleNamespace] also finds what the instance inherits from
    its class and from [object].  The table is [dir(SimpleNamespace())] of
    CPython 3.11: [__class__] and [__dict__] are data descriptors of the
    class, which come before the instance dictionary; for every other name
    the instance dictionary comes first. *)

(** The class [SimpleNamespace], as [getattr(values, "__class__")] gives
    it. *)
Definition namespace_class : value := VObj true "type".

(** [SimpleNamespace.__doc__] *)
Definition namespace_doc : string :=
  "A simple attribute-based namespace." +:+ String (ascii_of_nat 10) ""
  +:+ String (ascii_of_nat 10) "" +:+ "SimpleNamespace(" +:+ "**kwargs)".

(** The names of the slot wrappers bound to the instance. *)
Definition method_wrapper_names : list string :=
  ["__delattr__"; "__eq__"; "__ge__"; "__getattribute__"; "__gt__";
   "__init__"; "__le__"; "__lt__"; "__ne__"; "__repr__"; "__setattr__";
   "__str__"].

(** The names of the built-in methods bound to the instance or its class. *)
Definition builtin_method_names : list string :=
  ["__dir__"; "__format__"; "__getstate__"; "__init_subclass__"; "__new__";
   "__reduce__"; "__reduce_ex__"; "__sizeof__"; "__subclasshook__"].

(** What the class gives for a name that is not in the instance
    dictionary ([__hash__] is [None], the class defining [__eq__] only). *)
Definition class_attr (name : string) : option value :=
  if String.eqb name "__doc__" then Some (VStr namespace_doc)
  else if String.eqb name "__hash__" then Some VNone
  else if existsb (String.eqb name) method_wrapper_names
  then Some (VObj true "method-wrapper")
  else if existsb (String.eqb name) builtin_method_names
  then Some (VObj true "builtin_function_or_method")
  else None.

(** [getattr(self.values, name)], [None] standing for the
    [AttributeError]. *)
Definition getattr (vs : gmap string value) (name : string) : option value :=
  if String.eqb name "__class__" then Some namespace_class
  else if String.eqb name "__dict__" then
    Some (VObj (0 <? size vs)%nat "dict")
  else
    match vs !! name with
    | Some v => Some v
    | None => class_attr name
    end.

(** [hasattr(self.values, name)]: whether [getattr] finds the name. *)
Definition hasattr (vs : gmap string value) (name : string) : bool :=
  match getattr vs name with
  | Some _ => true
  | None => false
  end.

(** [setattr(self.values, name, v)].  [__class__] takes a class only (no
    value of the model is taken to be a class that could replace
    [SimpleNamespace]) and [__dict__] is read-only; every other name is
    stored in the instance dictionary. *)
Definition setattr (vs : gmap string value) (name : string) (v : value)
  : outcome (gmap string value) :=
  if String.eqb name "__class__" then
    Raise (mkExc TypeError
             ("__class__ must be set to a class, not '" +:+ type_name v
              +:+ "' object"))
  else if String.eqb name "__dict__" then
    Raise (mkExc AttributeError "readonly attribute")
  else Return (<[name := v]> vs).

(** The [try] around a conversion function: an [InterruptedError] or a
    [KeyboardInterrupt] is raised again as it is, any other instance of
    [Exception] becomes a [ValueError] whose message is [msg] followed by
    [str(err)]; what is not an instance of [Exception] is caught by neither
    clause. *)
Definition try_convert (parser : converter) (token : string) (msg : string)
  : outcome value :=
  match parser token with
  | Return v => Return v
  | Raise err =>
      if is_interrupt (exc_cls err) then Raise err
      else if is_Exception (exc_cls err) then
             raise_ValueError (msg +:+ exc_str err)
      else Raise err
  end.

(** The message of the [AttributeError] of [w.append] for a [w] that has no
    [append]. *)
Definition no_append_msg (w : value) : string :=
  match w with
  | VObj _ tag =>
      if String.eqb tag "type" then
        "type object 'types.SimpleNamespace' has no attribute 'append'"
      else "'" +:+ tag +:+ "' object has no attribute 'append'"
  | _ => "'" +:+ type_name w +:+ "' object has no attribute 'append'"
  end.

(** [w.append(v)] on the attribute found.  Only a list has [append] among
    the values of the model; an object kept by its tag is taken to have
    none. *)
Definition list_append (w v : value) : outcome value :=
  match w with
  | VList l => Return (VList (l ++ [v]))
  | _ => Raise (mkExc AttributeError (no_append_msg w))
  end.

(** The value-kind store:
    [if hasattr(values, name): getattr(values, name).append(v)]
    [else: setattr(values, name, [v])].  A list is changed in place; the
    lists found are those the parser itself stored, each under one name of
    the instance dictionary. *)
Definition append_value (vs : gmap string value) (name : string) (v : value)
  : outcome (gmap string value) :=
  if hasattr vs name then
    match getattr vs name with
    | Some w =>
        let* w' := list_append w v in
        Return (<[name := w']> vs)
    | None =>
        Raise (mkExc AttributeError
                 ("'types.SimpleNamespace' object has no attribute '"
                  +:+ name +:+ "'"))
    end
  else setattr vs name (VList [v]).

(** The message of [x + 1] for a string or a list [x]. *)
Definition concatenate_msg (ty : string) : string :=
  "can only concatenate " +:+ ty +:+ " (not " +:+ Py.dquote +:+ "int"
  +:+ Py.dquote +:+ ") to " +:+ ty.

(** [w + 1].  A boolean adds as 0 or 1; an object kept by its tag is taken
    not to support the addition. *)
Definition add_one (w : value) : outcome value :=
  match w with
  | VInt z => Return (VInt (z + 1))
  | VBool b => Return (VInt (Z.b2z b + 1))
  | VStr _ => Raise (mkExc TypeError (concatenate_msg "str"))
  | VList _ => Raise (mkExc TypeError (concatenate_msg "list"))
  | other =>
      Raise (mkExc TypeError
               ("unsupported operand type(s) for +: '" +:+ type_name other
                +:+ "' and 'int'"))
  end.

(** The count-kind store:
    [setattr(values, name, getattr(values, name, 0) + 1)]. *)
Definition bump_count (vs : gmap string value) (name : string)
  : outcome (gmap string value) :=
  let* count := add_one (default (VInt 0) (getattr vs name)) in
  setattr vs name count.

(** The required-value tracking of both flag parsers. *)
Definition track_required (self : _ArgParse) (flag : Flag) : _ArgParse :=
  if bool_decide (flag_name flag ∈ required_flags self) then
    set_required_flags self (required_flags self ∖ {[flag_name flag]})
  else self.

(** [_ArgParse._find_long_flag] *)
Fixpoint find_long_flag_in (flags : list Flag) (val : string) : option Flag :=
  match flags with
  | [] => None
  | flag :: rest =>
      if existsb (fun flag_long => String.eqb val flag_long) (flag_long flag)
      then Some flag
      else find_long_flag_in rest val
  end.

Definition _find_long_flag (self : _ArgParse) (val : string) : option Flag :=
  find_long_flag_in (cmd_flags (command self)) val.

(** [_ArgParse._parse_long] *)
Definition _parse_long (self : _ArgParse) (arg_value : string)
  : outcome _ArgParse :=
  let parts := Py.split_eq1 arg_value in
  let fname := if (length parts =? 1)%nat then arg_value
               else nth 0 parts "" in
  let cname := Command_name (command self) in
  match _find_long_flag self fname with
  | None => raise_ValueError (cname +:+ ": unknown flag --" +:+ fname)
  | Some flag =>
      let self := track_required self flag in
      if (length parts =? 2)%nat && negb (kind_eqb (flag_kind flag) valued)
      then
        raise_ValueError
          (cname +:+ ": flag --" +:+ fname
           +:+ " was provided a value but is not a valued-flag!")
      else
        match flag_kind flag with
        | valued =>
            let* taken :=
              (if negb (length parts =? 2)%nat then
                 if (length (argv self) <=? idx self)%nat then
                   raise_ValueError
                     (cname +:+ ": expected positional argument from flag '--"
                      +:+ fname +:+ "'")
                 else
                   match argv self !! idx self with
                   | Some token => Return (token, set_idx self (idx self + 1))
                   | None => Raise (mkExc IndexError "list index out of range")
                   end
               else Return (nth 1 parts "", self)) in
            let self := snd taken in
            let* val :=
              (match flag_parser flag with
               | Some parser =>
                   try_convert parser (fst taken)
                     (cname +:+ ": invalid argument from flag '--"
                      +:+ fname +:+ "' -- ")
               | None => Return (VStr (fst taken))
               end) in
            let* vs := append_value (values self) (flag_name flag) val in
            Return (set_values self vs)
        | count =>
            let* vs := bump_count (values self) (flag_name flag) in
            Return (set_values self vs)
        | present =>
            if hasattr (values self) (flag_name flag) then
              raise_ValueError
                (cname +:+ ": flag '" +:+ flag_name flag
                 +:+ "' specified more than once")
            else
              let* vs := setattr (values self) (flag_name flag)
                           (VBool true) in
              Return (set_values self vs)
        end
  end.

(** [_ArgParse._find_short_flag] *)
Fixpoint find_short_flag_in (flags : list Flag) (fname : string)
  : option Flag :=
  match flags with
  | [] => None
  | flag :: rest =>
      if existsb (fun short_flag => String.eqb short_flag fname)
           (flag_short flag)
      then Some flag
      else find_short_flag_in rest fname
  end.

Definition _find_short_flag (self : _ArgParse) (fname : string)
  : option Flag :=
  find_short_flag_in (cmd_flags (command self)) fname.

(** One turn of the [for flag_name in flag_names] loop of [_parse_short]. *)
Definition parse_short_flag (self : _ArgParse) (fname : string)
  : outcome _ArgParse :=
  let cname := Command_name (command self) in
  match _find_short_flag self fname with
  | None => raise_ValueError (cname +:+ ": unknown flag '-" +:+ fname +:+ "'")
  | Some flag =>
      let self := track_required self flag in
      match flag_kind flag with
      | valued =>
          if (length (argv self) <=? idx self)%nat then
            raise_ValueError
              (cname +:+ ": expected positional argument from flag '-"
               +:+ fname +:+ "'")
          else
            match argv self !! idx self with
            | None => Raise (mkExc IndexError "list index out of range")
            | Some token =>
                let self := set_idx self (idx self + 1) in
                let* val :=
                  (match flag_parser flag with
                   | Some parser =>
                       try_convert parser token
                         (cname +:+ ": invalid argument from flag '-"
                          +:+ fname +:+ "' -- ")
                   | None => Return (VStr token)
                   end) in
                let* vs := append_value (values self) (flag_name flag) val in
                Return (set_values self vs)
            end
      | count =>
          let* vs := bump_count (values self) (flag_name flag) in
          Return (set_values self vs)
      | present =>
          if hasattr (values self) (flag_name flag) then
            raise_ValueError
              (cname +:+ ": flag '-" +:+ fname
               +:+ "' specified more than once")
          else
            let* vs := setattr (values self) (flag_name flag) (VBool true) in
            Return (set_values self vs)
      end
  end.

(** The [for] loop of [_parse_short] over the derived flag names. *)
Fixpoint parse_short_flags (self : _ArgParse) (flag_names : list string)
  : outcome _ArgParse :=
  match flag_names with
  | [] => Return self
  | fname :: rest =>
      let* self := parse_short_flag self fname in
      parse_short_flags self rest
  end.

(** [list('-' + c for c in arg_value[1:])] *)
Definition short_flag_names (arg_value : string) : list string :=
  map (fun c => "-" +:+ c) (Py.chars (Py.tail arg_value)).

(** [_ArgParse._parse_short] *)
Definition _parse_short (self : _ArgParse) (arg_value : string)
  : outcome _ArgParse :=
  let flag_names := short_flag_names arg_value in
  if (length flag_names =? 0)%nat then
    raise_ValueError "invalid argument '-'"
  else parse_short_flags self flag_names.

(** [_find_command] *)
Fixpoint _find_command (cmds : list Command) (command_name : string)
  : option Command :=
  match cmds with
  | [] => None
  | cmd :: rest =>
      if negb (cmd_disable_name cmd)
         && String.eqb (Py.lower command_name) (Py.lower (Command_name cmd))
      then Some cmd
      else if existsb (fun short => String.eqb short command_name)
                (cmd_short cmd)
      then Some cmd
      else if existsb (fun long => String.eqb long command_name)
                (cmd_long cmd)
      then Some cmd
      else _find_command rest command_name
  end.

(** The positional branch of the scanning loop of [parse_args]. *)
Definition parse_positional (parser : _ArgParse) (arg_value : string)
  : outcome _ArgParse :=
  let cmd := command parser in
  if (length (cmd_params cmd) <=? param_idx parser)%nat then
    raise_ValueError (Command_name cmd +:+ ": unexpected argument "
                      +:+ repr (VStr arg_value))
  else
    match cmd_params cmd !! param_idx parser with
    | None => Raise (mkExc IndexError "list index out of range")
    | Some param =>
        let parser := set_param_idx parser (param_idx parser + 1) in
        let* val :=
          (match param_parser param with
           | Some value_parser =>
               try_convert value_parser arg_value
                 (Command_name cmd +:+ ": invalid argument "
                  +:+ repr (VStr arg_value) +:+ " -- ")
           | None => Return (VStr arg_value)
           end) in
        let* vs := setattr (values parser) (param_name param) val in
        Return (set_values parser vs)
    end.

(** The body of the [while parser.idx < len(argv)] loop: take the token at
    the cursor, advance the cursor and dispatch on the token's shape. *)
Definition parse_token (parser : _ArgParse) : outcome _ArgParse :=
  match argv parser !! idx parser with
  | None => Raise (mkExc IndexError "list index out of range")
  | Some arg_value =>
      let parser := set_idx parser (idx parser + 1) in
      if Py.startswith arg_value "--" then _parse_long parser arg_value
      else if Py.startswith arg_value "-" then _parse_short parser arg_value
      else parse_positional parser arg_value
  end.

(** The [while] loop.  Every turn moves the cursor forward, so [fuel] turns
    are enough when [fuel] is at least the number of tokens left; [None]
    stands for running out of fuel and is never the result of [parse_args]
    (lemma [parse_loop_fuel] below). *)
Fixpoint parse_loop (fuel : nat) (parser : _ArgParse)
  : option (outcome _ArgParse) :=
  if (idx parser <? length (argv parser))%nat then
    match fuel with
    | O => None
    | S fuel' =>
        match parse_token parser with
        | Return parser' => parse_loop fuel' parser'
        | Raise e => Some (Raise e)
        end
    end
  else Some (Return parser).

(** The required-flags working set, seeded from the specification. *)
Definition seed_required (flags : list Flag) : gset string :=
  fold_left (fun acc flag =>
               if Flag_is_required flag then acc ∪ {[flag_name flag]} else acc)
    flags ∅.

(** [parser.param_idx < len(params) and not params[param_idx].is_optional()] *)
Definition missing_positional (parser : _ArgParse) : option Param :=
  match cmd_params (command parser) !! param_idx parser with
  | Some param => if negb (Param_is_optional param) then Some param else None
  | None => None
  end.

(** The two default-storing loops at the end of [parse_args]. *)
Fixpoint default_params (params : list Param) (vs : gmap string value)
  : outcome (gmap string value) :=
  match params with
  | [] => Return vs
  | param :: rest =>
      let* vs :=
        (if Param_is_optional param then
           if negb (hasattr vs (param_name param)) then
             setattr vs (param_name param) (param_default param)
           else Return vs
         else Return vs) in
      default_params rest vs
  end.

Fixpoint default_flags (flags : list Flag) (vs : gmap string value)
  : outcome (gmap string value) :=
  match flags with
  | [] => Return vs
  | flag :: rest =>
      let* vs :=
        (if Flag_is_optional flag then
           if negb (hasattr vs (flag_name flag)) then
             setattr vs (flag_name flag) (flag_default flag)
           else Return vs
         else Return vs) in
      default_flags rest vs
  end.

(** The part of [parse_args] after the scanning loop: the two checks, then
    the defaults, then the [Args] object.  The message of the second check
    lists the names left in the working set; Python leaves the order of a
    [set] open, the model lists them as [elements] does. *)
Definition finish (cmd : Command) (parser : _ArgParse) : outcome Args :=
  match missing_positional parser with
  | Some param =>
      raise_ValueError ("missing required argument "
                        +:+ repr (VStr (param_name param)))
  | None =>
      if (0 <? size (required_flags parser))%nat then
        raise_ValueError
          ("required flags are missing: "
           +:+ Py.join ", "
                 (map (fun i => repr (VStr i))
                    (elements (required_flags parser))))
      else
        let* vs := default_params (cmd_params cmd) (values parser) in
        let* vs := default_flags (cmd_flags cmd) vs in
        Return (mkArgs (Command_name cmd) vs)
  end.

(** The parser object as [parse_args] sets it up for the selected command. *)
Definition initial_parser (cmds : list Command) (args : list string)
  (cmd : Command) : _ArgParse :=
  {| commands := cmds; argv := args; command := cmd; idx := 1;
     param_idx := 0; values := ∅;
     required_flags := seed_required (cmd_flags cmd) |}.

(** [parse_args], with the token sequence given. *)
Definition parse_args_fuel (fuel : nat) (cmds : list Command)
  (args : list string) : option (outcome Args) :=
  match args with
  | [] => Some (raise_ValueError "no command specified")
  | first :: _ =>
      match _find_command cmds first with
      | None =>
          Some (raise_ValueError ("unknown command: " +:+ repr (VStr first)))
      | Some cmd =>
          match parse_loop fuel (initial_parser cmds args cmd) with
          | None => None
          | Some (Raise e) => Some (Raise e)
          | Some (Return parser) => Some (finish cmd parser)
          end
      end
  end.

Definition parse_args (cmds : list Command) (args : list string)
  : outcome Args :=
  match parse_args_fuel (length args) cmds args with
  | Some r => r
  | None => Raise (mkExc OtherException "out of fuel")
  end.

(** ** The help renderer *)

(** [x or ''] for an optional description. *)
Definition or_empty (d : option string) : string := default "" d.

(** What [print] writes for [command.description()]. *)
Definition print_optional (d : option string) : string := default "None" d.

(** The short aliases followed by the long ones. *)
Definition flag_aliases (flag : Flag) : list string :=
  flag_short flag ++ flag_long flag.

(** [<name>] for a required parameter, [[name]] for an optional one. *)
Definition param_label (param : Param) : string :=
  if negb (Param_is_optional param) then "<" +:+ param_name param +:+ ">"
  else "[" +:+ param_name param +:+ "]".

(** The item of a flag on the usage line. *)
Definition flag_usage_item (flag : Flag) : string :=
  let item := Py.join "|" (flag_aliases flag) in
  let item := if kind_eqb (flag_kind flag) valued then item +:+ " ..."
              else item in
  if Flag_is_optional flag then "[" +:+ item +:+ "]"
  else "<" +:+ item +:+ ">".

(** The label of a flag in the Flags block. *)
Definition flag_label (flag : Flag) : string :=
  let item := Py.join ", " (flag_aliases flag) in
  if Flag_is_optional flag then "[" +:+ item +:+ "]"
  else "<" +:+ item +:+ ">".

(** [max_width] after the loop that collects the labels. *)
Definition max_width (labels : list string) : nat :=
  fold_left (fun w label => Nat.max w (Py.len label)) labels 0.

(** The line of one parameter: the default is shown with [repr]
    (an f-string). *)
Definition param_line (width : nat) (label : string) (param : Param)
  : string :=
  let dflt := if truthy (param_default param)
              then "(default " +:+ repr (param_default param) +:+ ")"
              else "" in
  "  " +:+ Py.ljust label width +:+ " "
  +:+ or_empty (param_description param) +:+ " " +:+ dflt.

(** The line of one flag: the string assigned to [default] has no [f]
    prefix, so it is the text between the quotes as it stands. *)
Definition flag_line (width : nat) (label : string) (flag : Flag) : string :=
  let dflt := if truthy (flag_default flag)
              then "(default {default!r})"
              else "" in
  "  " +:+ Py.ljust label width +:+ " "
  +:+ or_empty (flag_description flag) +:+ " " +:+ dflt.

(** The lines printed under [Arguments:]. *)
Definition arguments_block (params : list Param) : list string :=
  let items := map param_label params in
  let width := max_width items in
  map (fun ip => param_line width (fst ip) (snd ip)) (zip items params).

(** The lines printed under [Flags:]. *)
Definition flags_block (flags : list Flag) : list string :=
  let labels := map flag_label flags in
  let width := max_width labels in
  map (fun nf => flag_line width (fst nf) (snd nf)) (zip labels flags).

(** The label of a command in the command list. *)
Definition command_label (cmd : Command) : string :=
  Py.join ", "
    ((if negb (cmd_disable_name cmd) then [Command_name cmd] else [])
     ++ cmd_short cmd ++ cmd_long cmd)%list.

(** The lines printed under [Commands:]. *)
Definition commands_block (cmds : list Command) : list string :=
  let names := map command_label cmds in
  let width := max_width names in
  map (fun nc => "  " +:+ Py.ljust (fst nc) width +:+ " "
                 +:+ or_empty (cmd_description (snd nc)))
    (zip names cmds).

(** [print_help], as the list of the lines it prints. *)
Definition print_help (name description : string) (cmds : list Command)
  (args : list string) : list string :=
  let found := match args with
               | [] => None
               | first :: _ => _find_command cmds first
               end in
  ([""; name +:+ " - " +:+ description; ""]
  ++ (match found with
      | Some cmd =>
          let usage_items :=
            map param_label (cmd_params cmd)
            ++ map flag_usage_item (cmd_flags cmd) in
          ["Usage: " +:+ name +:+ " " +:+ hd "" args +:+ " "
           +:+ Py.join " " usage_items;
           "";
           print_optional (cmd_description cmd);
           "";
           "Arguments:"]
          ++ arguments_block (cmd_params cmd)
          ++ [""; "Flags:"]
          ++ flags_block (cmd_flags cmd)
      | None =>
          ["Usage: " +:+ name +:+ " <command> [args...] [flags...]";
           "";
           "Commands:"]
          ++ commands_block cmds
      end)
  ++ [""])%list.

End Cli.

(** ** Scripts of builder calls *)

(** One builder call on a command. *)
Inductive builder_call : Type :=
| CallShort (s : string)
| CallLong (l : string)
| CallArg (arg : item).

Definition apply_call (repr : value -> string) (self : Command)
  (call : builder_call) : outcome Command :=
  match call with
  | CallShort s => Command_short self s
  | CallLong l => Command_long self l
  | CallArg arg => Command_arg repr self arg
  end.

(** A call that raises leaves the command as it was; the script goes on
    with the next call (the caller may catch the error). *)
Definition after_call (repr : value -> string) (self : Command)
  (call : builder_call) : Command :=
  match apply_call repr self call with
  | Return self' => self'
  | Raise _ => self
  end.

(** One builder call on a flag. *)
Inductive flag_call : Type :=
| FShort (s : string)
| FLong (l : string)
| FOptional
| FParser (parser : converter)
| FValued
| FCount
| FDefault (val : value).

Definition apply_flag_call (self : Flag) (call : flag_call) : outcome Flag :=
  match call with
  | FShort s => Flag_short self s
  | FLong l => Flag_long self l
  | FOptional => Return (Flag_optional self)
  | FParser parser => Flag_parser self parser
  | FValued => Return (Flag_valued self)
  | FCount => Return (Flag_count self)
  | FDefault val => Return (Flag_default self val)
  end.

(** A call that raises leaves the flag as it was. *)
Definition after_flag_call (self : Flag) (call : flag_call) : Flag :=
  match apply_flag_call self call with
  | Return self' => self'
  | Raise _ => self
  end.

Definition run_flag_calls (self : Flag) (calls : list flag_call) : Flag :=
  fold_left after_flag_call calls self.

(** One builder call on a parameter; none of them raises. *)
Inductive param_call : Type :=
| POptional
| PParser (parser : converter)
| PDefault (val : value).

Definition after_param_call (self : Param) (call : param_call) : Param :=
  match call with
  | POptional => Param_optional self
  | PParser parser => Param_parser self parser
  | PDefault val => Param_default self val
  end.

(** One step of a script that builds a command.  [Command.arg] appends the
    [Flag] or [Param] object it is given, not a copy, so a builder call
    made later on that object changes the item held by the command:
    [OnParam i call] is a call on the object that is [params()[i]],
    [OnFlag i call] a call on the object that is [flags()[i]] (nothing
    happens when there is no such item).  The state of an object before it
    is passed to [arg] is the item of the [CallArg]. *)
Inductive script_call : Type :=
| OnCommand (call : builder_call)
| OnParam (i : nat) (call : param_call)
| OnFlag (i : nat) (call : flag_call).

Definition after_script_call (repr : value -> string) (self : Command)
  (call : script_call) : Command :=
  match call with
  | OnCommand c => after_call repr self c
  | OnParam i c =>
      {| cmd_name := cmd_name self; cmd_description := cmd_description self;
         cmd_short := cmd_short self; cmd_long := cmd_long self;
         cmd_disable_name := cmd_disable_name self;
         cmd_flags := cmd_flags self;
         cmd_params := alter (fun p => after_param_call p c) i
                         (cmd_params self) |}
  | OnFlag i c =>
      {| cmd_name := cmd_name self; cmd_description := cmd_description self;
         cmd_short := cmd_short self; cmd_long := cmd_long self;
         cmd_disable_name := cmd_disable_name self;
         cmd_flags := alter (fun f => after_flag_call f c) i (cmd_flags self);
         cmd_params := cmd_params self |}
  end.

Definition run_script (repr : value -> string) (self : Command)
  (script : list script_call) : Command :=
  fold_left (after_script_call repr) script self.

(** A script that calls the builders of the command only: the items passed
    to [arg] are not touched afterwards. *)
Definition run_calls (repr : value -> string) (self : Command)
  (calls : list builder_call) : Command :=
  run_script repr self (map OnCommand calls).

(** A command obtained from [Command(name, description)] by a script. *)
Definition constructed (repr : value -> string) (cmd : Command) : Prop :=
  exists name description cmd0 script,
    Command_init name description = Return cmd0
    /\ cmd = run_script repr cmd0 script.

(** A sample [repr] for closed examples: Python's [repr] on strings of
    printable characters without quotes or backslashes, on [None], on
    booleans and on objects shown by their tag. *)
Definition sample_repr (v : value) : string :=
  match v with
  | VNone => "None"
  | VBool true => "True"
  | VBool false => "False"
  | VStr s => "'" +:+ s +:+ "'"
  | VObj _ tag => tag
  | _ => "..."
  end.

(** ** Sample specifications for closed examples *)

(** [Flag("output", "the output file path").short("-o").long("--output")
    .valued()], as in [image.py]. *)
Definition output_flag : Flag :=
  {| flag_name := "output"; flag_description := Some "the output file path";
     flag_required := false; flag_short := ["-o"]; flag_long := ["--output"];
     flag_parser := None; flag_kind := valued; flag_default := VNone |}.

(** [Flag("verbose").short("-v").count()] *)
Definition verbose_flag : Flag :=
  {| flag_name := "verbose"; flag_description := None;
     flag_required := false; flag_short := ["-v"]; flag_long := [];
     flag_parser := None; flag_kind := count; flag_default := VNone |}.

(** [Flag("format", "the file format").long("--format").valued()
    .default("png")] *)
Definition format_flag : Flag :=
  {| flag_name := "format"; flag_description := Some "the file format";
     flag_required := false; flag_short := []; flag_long := ["--format"];
     flag_parser := None; flag_kind := valued; flag_default := VStr "png" |}.

(** A conversion function that calls [sys.exit(2)]. *)
Definition exiting_converter : converter :=
  fun _ => Raise (mkExc SystemExit "2").

(** A conversion function that fails as [float("x")] does. *)
Definition failing_converter : converter :=
  fun tok => Raise (mkExc ValueError
                      ("could not convert string to float: '" +:+ tok +:+ "'")).

(** A conversion function interrupted from the keyboard. *)
Definition interrupted_converter : converter :=
  fun _ => Raise (mkExc KeyboardInterrupt "").

Definition image_param (parser : option converter) : Param :=
  {| param_name := "image"; param_description := Some "the file to open";
     param_required := true; param_parser := parser;
     param_default := VNone |}.

Definition note_param : Param :=
  {| param_name := "note"; param_description := None;
     param_required := false; param_parser := None;
     param_default := VStr "none" |}.

(** [Command("run")] with the calls
    [.arg(image).arg(note).arg(output).arg(verbose)]. *)
Definition run_calls_script (parser : option converter)
  : list builder_call :=
  [CallArg (IParam (image_param parser)); CallArg (IParam note_param);
   CallArg (IFlag output_flag); CallArg (IFlag verbose_flag)].

Definition run_command (parser : option converter) : Command :=
  {| cmd_name := "run"; cmd_description := None; cmd_short := [];
     cmd_long := []; cmd_disable_name := false;
     cmd_flags := [output_flag; verbose_flag];
     cmd_params := [image_param parser; note_param] |}.

(** [Command("help", "print help").short("-h").long("--help")], as in
    [image.py]. *)
Definition help_command : Command :=
  {| cmd_name := "help"; cmd_description := Some "print help";
     cmd_short := ["-h"]; cmd_long := ["--help"];
     cmd_disable_name := false; cmd_flags := []; cmd_params := [] |}.

(** The result of [run img -v] for the sample command: the value of
    [image], the count of [-v], and the defaults of [note] and [output]. *)
Definition run_img_v_result : Args :=
  mkArgs "run"
    (<["image" := VStr "img"]>
       (<["verbose" := VInt 1]>
          (<["note" := VStr "none"]> (<["output" := VNone]> ∅)))).

(** ** Notions of the specification *)

(** A command matches a token when its bare name is enabled and equals the
    token up to case, or when the token is one of its aliases. *)
Definition matches_token (token : string) (cmd : Command) : Prop :=
  (cmd_disable_name cmd = false
   /\ Py.lower token = Py.lower (cmd_name cmd))
  \/ In token (cmd_short cmd) \/ In token (cmd_long cmd).

(** The required parameters come first: nothing required follows an optional
    parameter. *)
Fixpoint required_first (params : list Param) : bool :=
  match params with
  | [] => true
  | p :: rest =>
      if Param_is_optional p then forallb Param_is_optional rest
      else required_first rest
  end.

(** What a step of the parser leaves alone: the command list, the token
    sequence and the selected command stay, the cursor does not go back. *)
Definition frame (st st' : _ArgParse) : Prop :=
  commands st' = commands st /\ argv st' = argv st
  /\ command st' = command st /\ (idx st <= idx st')%nat.

(** What both flag parsers do with the token [token] taken for the valued
    flag [flag]: convert it when the flag has a conversion function, then
    append the result to the list under the flag's name. *)
Definition store_taken (self : _ArgParse) (flag : Flag) (token : string)
  (msg : string) : outcome _ArgParse :=
  let* val :=
    (match flag_parser flag with
     | Some parser => try_convert parser token msg
     | None => Return (VStr token)
     end) in
  let* vs := append_value (values self) (flag_name flag) val in
  Return (set_values self vs).



(** The parser state in which [parse_args] meets the token at position [i],
    for the sample command [run] and no value recorded yet. *)
Definition run_parser_at (args : list string) (i : nat) : _ArgParse :=
  set_idx (initial_parser [run_command None] args (run_command None)) i.

(** The parser states that the scanning loop goes through: [reaches st st']
    when some turns of the loop, none of which raises, lead from [st] to
    [st']. *)
Inductive reaches (repr : value -> string) : _ArgParse -> _ArgParse -> Prop :=
| reaches_here (st : _ArgParse) : reaches repr st st
| reaches_turn (st st1 st2 : _ArgParse) :
    (idx st < length (argv st))%nat
    -> parse_token repr st = Return st1
    -> reaches repr st1 st2
    -> reaches repr st st2.

(** The places where the parser calls a conversion function.
    [conversion_site repr st tok p v msg]: with the loop in state [st] and
    the token [tok] at the cursor, this turn calls the conversion function
    [p] on the string [v], inside a [try] whose [ValueError] message starts
    with [msg].  There are four: a long valued flag with [=value], a long
    valued flag whose value is the following token, a valued flag of a
    short cluster (after the characters before it were processed), and a
    positional token. *)
Inductive conversion_site (repr : value -> string) (st : _ArgParse)
  (tok : string) : converter -> string -> string -> Prop :=
| site_long_inline (flag : Flag) (p : converter) (name v : string) :
    Py.startswith tok "--" = true
    -> Py.split_eq1 tok = [name; v]
    -> _find_long_flag st name = Some flag
    -> flag_kind flag = valued
    -> flag_parser flag = Some p
    -> conversion_site repr st tok p v
         (Command_name (command st) +:+ ": invalid argument from flag '--"
          +:+ name +:+ "' -- ")
| site_long_next (flag : Flag) (p : converter) (v : string) :
    Py.startswith tok "--" = true
    -> Py.split_eq1 tok = [tok]
    -> _find_long_flag st tok = Some flag
    -> flag_kind flag = valued
    -> flag_parser flag = Some p
    -> argv st !! (idx st + 1)%nat = Some v
    -> conversion_site repr st tok p v
         (Command_name (command st) +:+ ": invalid argument from flag '--"
          +:+ tok +:+ "' -- ")
| site_short (pre post : list string) (fname : string) (st1 : _ArgParse)
    (flag : Flag) (p : converter) (v : string) :
    Py.startswith tok "--" = false
    -> Py.startswith tok "-" = true
    -> short_flag_names tok = (pre ++ fname :: post)%list
    -> parse_short_flags (set_idx st (idx st + 1)) pre = Return st1
    -> _find_short_flag st1 fname = Some flag
    -> flag_kind flag = valued
    -> flag_parser flag = Some p
    -> argv st1 !! idx st1 = Some v
    -> conversion_site repr st tok p v
         (Command_name (command st) +:+ ": invalid argument from flag '-"
          +:+ fname +:+ "' -- ")
| site_positional (param : Param) (p : converter) :
    Py.startswith tok "-" = false
    -> cmd_params (command st) !! param_idx st = Some param
    -> param_parser param = Some p
    -> conversion_site repr st tok p tok
         (Command_name (command st) +:+ ": invalid argument "
          +:+ repr (VStr tok) +:+ " -- ").

(** The names declared on a command: those of its flags, then those of its
    parameters. *)
Definition declared_names (cmd : Command) : list string :=
  (map flag_name (cmd_flags cmd) ++ map param_name (cmd_params cmd))%list.

(** What the scanning loop maintains for the selected command [cmd]: every
    recorded value is under a declared name, every required flag is still
    in the working set or has a value, and every parameter before the
    positional index has a value. *)
Definition scan_inv (cmd : Command) (st : _ArgParse) : Prop :=
  command st = cmd
  /\ (forall n, is_Some (values st !! n) -> In n (declared_names cmd))
  /\ (forall f, In f (cmd_flags cmd) -> Flag_is_required f = true
                -> flag_name f ∈ required_flags st
                   \/ is_Some (values st !! flag_name f))
  /\ (forall i p, cmd_params cmd !! i = Some p -> (i < param_idx st)%nat
                  -> is_Some (values st !! param_name p)).

(** The effect of processing one flag: a value is stored under the name of
    a declared flag, and only that name may leave the working set. *)
Definition flag_effect (st st' : _ArgParse) : Prop :=
  exists flag w,
    In flag (cmd_flags (command st))
    /\ command st' = command st
    /\ param_idx st' = param_idx st
    /\ values st' = <[flag_name flag := w]> (values st)
    /\ (forall n, n ∈ required_flags st
                  -> n ∈ required_flags st' \/ n = flag_name flag).

(** An ordinary name: one that a [SimpleNamespace] does not have before
    anything is stored under it. *)
Definition ordinary (name : string) : Prop := hasattr ∅ name = false.

(** The names declared on a command are ordinary. *)
Definition ordinary_names (cmd : Command) : Prop :=
  Forall ordinary (declared_names cmd).

(** The shape shared by the two default-storing loops: for every optional
    item whose name is not an attribute, store its declared default. *)
Definition fill_defaults {A : Type} (name : A -> string) (optional : A -> bool)
  (dflt : A -> value) (items : list A) (vs : gmap string value)
  : gmap string value :=
  fold_left (fun vs x =>
               if optional x then
                 if negb (hasattr vs (name x)) then <[name x := dflt x]> vs
                 else vs
               else vs)
    items vs.

(** The shapes that the builders of a command let through: every short
    alias is a dash and one other character, every long alias starts with
    two dashes, every flag has at least one alias. *)
Definition aliases_shaped (cmd : Command) : Prop :=
  Forall (fun s => exists ch, ch <> "-"%char /\ s = String "-" (String ch ""))
    (cmd_short cmd)
  /\ Forall (fun l => Py.startswith l "--" = true) (cmd_long cmd)
  /\ Forall (fun f => flag_short f <> [] \/ flag_long f <> [])
       (cmd_flags cmd).

(** [Flag("force").short("-f").long("--force")], a presence flag. *)
Definition force_flag : Flag :=
  {| flag_name := "force"; flag_description := None;
     flag_required := false; flag_short := ["-f"]; flag_long := ["--force"];
     flag_parser := None; flag_kind := present; flag_default := VNone |}.

(** [Command("copy").arg(force).arg(verbose).arg(output)] *)
Definition copy_command : Command :=
  {| cmd_name := "copy"; cmd_description := None; cmd_short := [];
     cmd_long := []; cmd_disable_name := false;
     cmd_flags := [force_flag; verbose_flag; output_flag];
     cmd_params := [] |}.

(** The parser state in which [parse_args] meets the token at position [i]
    for the sample command [copy], no value recorded yet. *)
Definition copy_parser_at (args : list string) (i : nat) : _ArgParse :=
  set_idx (initial_parser [copy_command] args copy_command) i.

(** What an entry recorded for a flag looks like, by the kind of the flag:
    a non-empty list, a positive counter, or [True]. *)
Definition entry_typed (k : kind) (v : value) : Prop :=
  match k with
  | valued => exists l, v = VList l /\ l <> []
  | count => exists z, v = VInt z /\ (0 < z)%Z
  | present => v = VBool true
  end.

(** Every entry under the name of a flag of [cmd] has the shape of the
    flag's kind. *)
Definition flags_typed (cmd : Command) (vs : gmap string value) : Prop :=
  forall f v, In f (cmd_flags cmd) -> vs !! flag_name f = Some v
              -> entry_typed (flag_kind f) v.

(** The conversion functions declared on a command. *)
Definition declared_converter (cmd : Command) (p : converter) : Prop :=
  (exists f, In f (cmd_flags cmd) /\ flag_parser f = Some p)
  \/ (exists q, In q (cmd_params cmd) /\ param_parser q = Some p).

(** The exceptions that parsing for [cmd] is expected to raise: a
    [ValueError], or what a declared conversion function raised. *)
Definition expected_exc (cmd : Command) (e : exc) : Prop :=
  exc_cls e = ValueError
  \/ exists p tok, declared_converter cmd p /\ p tok = Raise e.

(** The values after the positional tokens [toks] have gone, in order, to
    the parameters [params], none of which has a conversion function. *)
Definition store_positionals (params : list Param) (toks : list string)
  (vs : gmap string value) : gmap string value :=
  fold_left (fun vs pt => <[param_name (fst pt) := VStr (snd pt)]> vs)
    (zip params toks) vs.

(** The result of a parse whose tokens [toks] were all positional: the
    i-th parameter holds the i-th token, a parameter beyond the tokens holds
    its default, and so does every flag. *)
Definition positional_result (cmd : Command) (toks : list string)
  (a : Args) : Prop :=
  args_command a = cmd_name cmd
  /\ (forall i p,
         cmd_params cmd !! i = Some p
         -> args_values a !! param_name p
            = Some (match toks !! i with
                    | Some t => VStr t
                    | None => param_default p
                    end))
  /\ (forall f, In f (cmd_flags cmd)
                -> args_values a !! flag_name f = Some (flag_default f)).

(** A block of help lines is aligned on its labels: one line per label,
    each line being two blanks, the label padded with blanks to the width
    of the widest label of the block, one blank, and the rest of the
    line. *)
Definition aligned_block (labels lines : list string) : Prop :=
  length lines = length labels
  /\ (forall l, In l labels -> (Py.len l <= max_width labels)%nat)
  /\ (labels <> [] -> exists l, In l labels /\ Py.len l = max_width labels)
  /\ forall i l,
       labels !! i = Some l
       -> String.length (Py.ljust l (max_width labels)) = max_width labels
          /\ exists rest,
               lines !! i
               = Some ("  " +:+ Py.ljust l (max_width labels) +:+ " "
                       +:+ rest).

(** Every entry under the name of a parameter of [cmd] comes from one of
    the tokens [toks]: it is what the parameter's conversion function
    returned on that token, or the token itself when the parameter has no
    conversion function. *)
Definition params_converted (cmd : Command) (toks : list string)
  (vs : gmap string value) : Prop :=
  forall q v,
    In q (cmd_params cmd) -> vs !! param_name q = Some v
    -> exists tok,
         In tok toks
         /\ match param_parser q with
            | Some p => p tok = Return v
            | None => v = VStr tok
            end.

(** [COMMANDS] of [image.py], as the builder calls that define it, with
    [Image.open] and [float] as parameters. *)
Definition image_COMMANDS (repr : value -> string)
  (Image_open float_of : converter) : outcome (list Command) :=
  let* help :=
    (let* c := Command_init "help" (Some "print help") in
     let* c := Command_short c "-h" in
     let* c := Command_long c "--help" in
     let* p := Param_init "command" None in
     Command_arg repr c (IParam (Param_optional p))) in
  let* brightness :=
    (let* c := Command_init "brightness"
                 (Some "adjust the brightness of an image") in
     let* p := Param_init "image" (Some "the file to open") in
     let* c := Command_arg repr c (IParam (Param_parser p Image_open)) in
     let* p := Param_init "brightness"
                 (Some "the new brightness value, (0.0..1.0 is the standard range)") in
     let* c := Command_arg repr c (IParam (Param_parser p float_of)) in
     let* f := Flag_init "output" (Some "the output file path") in
     let* f := Flag_short f "-o" in
     let* f := Flag_long f "--output" in
     Command_arg repr c (IFlag (Flag_valued f))) in
  Return [help; brightness].

(** The two commands that [COMMANDS] evaluates to. *)
Definition image_help : Command :=
  {| cmd_name := "help"; cmd_description := Some "print help";
     cmd_short := ["-h"]; cmd_long := ["--help"];
     cmd_disable_name := false; cmd_flags := [];
     cmd_params :=
       [{| param_name := "command"; param_description := None;
           param_required := false; param_parser := None;
           param_default := VNone |}] |}.

Definition image_brightness (Image_open float_of : converter) : Command :=
  {| cmd_name := "brightness";
     cmd_description := Some "adjust the brightness of an image";
     cmd_short := []; cmd_long := []; cmd_disable_name := false;
     cmd_flags :=
       [{| flag_name := "output";
           flag_description := Some "the output file path";
           flag_required := false; flag_short := ["-o"];
           flag_long := ["--output"]; flag_parser := None;
           flag_kind := valued; flag_default := VNone |}];
     cmd_params :=
       [{| param_name := "image";
           param_description := Some "the file to open";
           param_required := true; param_parser := Some Image_open;
           param_default := VNone |};
        {| param_name := "brightness";
           param_description :=
             Some "the new brightness value, (0.0..1.0 is the standard range)";
           param_required := true; param_parser := Some float_of;
           param_default := VNone |}] |}.

(** Sample conversion functions that always return an object. *)
Definition sample_open : converter := fun tok => Return (VObj true tok).
Definition sample_float : converter := fun tok => Return (VObj true tok).

(** The shapes that the builders of a flag let through. *)
Definition flag_shaped (f : Flag) : Prop :=
  flag_required f = false
  /\ Forall (fun s => exists ch, ch <> "-"%char
                                 /\ s = String "-" (String ch ""))
       (flag_short f)
  /\ Forall (fun l => exists a r, l = String "-" (String "-" (String a r)))
       (flag_long f).

(** The tokens [alias v1 alias v2 ...]: a flag given once per value. *)
Fixpoint flag_value_tokens (alias : string) (vs : list string)
  : list string :=
  match vs with
  | [] => []
  | v :: rest => alias :: v :: flag_value_tokens alias rest
  end.

(** The result of [brightness cat.png 0.5 -o out.png] with the sample
    conversion functions. *)
Definition brightness_sample_result : Args :=
  mkArgs "brightness"
    (<["image" := VObj true "cat.png"]>
       (<["brightness" := VObj true "0.5"]>
          (<["output" := VList [VStr "out.png"]]> ∅))).

(** Whether a step of a script makes a parameter optional after it was
    passed to [arg]. *)
Definition late_optional (call : script_call) : bool :=
  match call with
  | OnParam _ POptional => true
  | _ => false
  end.

(** [p = Param("a"); q = Param("b"); c = Command("c").arg(p).arg(q);
    p.optional()] *)
Definition first_param : Param :=
  {| param_name := "a"; param_description := None; param_required := true;
     param_parser := None; param_default := VNone |}.

Definition second_param : Param :=
  {| param_name := "b"; param_description := None; param_required := true;
     param_parser := None; param_default := VNone |}.

Definition third_param : Param :=
  {| param_name := "z"; param_description := None; param_required := true;
     param_parser := None; param_default := VNone |}.

Definition late_optional_script : list script_call :=
  [OnCommand (CallArg (IParam first_param));
   OnCommand (CallArg (IParam second_param));
   OnParam 0 POptional].

Definition late_optional_command : Command :=
  {| cmd_name := "c"; cmd_description := None; cmd_short := [];
     cmd_long := []; cmd_disable_name := false; cmd_flags := [];
     cmd_params := [Param_optional first_param; second_param] |}.

(** ** What the tokens say *)

















(** * Properties *)

(** ** Attributes of the namespace *)

Lemma setattr_Return (vs vs' : gmap string value) (n : string) (v : value) :
  setattr vs n v = Return vs' -> vs' = <[n := v]> vs.
Proof.
  unfold setattr.
  destruct (String.eqb n "__class__"); [discriminate |].
  destruct (String.eqb n "__dict__"); [discriminate |].
  intros H. injection H as <-. reflexivity.
Qed.

(** A name that [hasattr] does not find is not in the instance dictionary
    and can be stored. *)
Lemma hasattr_false_inv (vs : gmap string value) (n : string) :
  hasattr vs n = false
  -> vs !! n = None /\ ordinary n
     /\ forall ws v, setattr ws n v = Return (<[n := v]> ws).
Proof.
  unfold ordinary, hasattr, getattr, setattr.
  destruct (String.eqb n "__class__"); [discriminate |].
  destruct (String.eqb n "__dict__"); [discriminate |].
  rewrite lookup_empty.
  destruct (vs !! n); [discriminate |].
  destruct (class_attr n); [discriminate |]. auto.
Qed.

(** On an ordinary name, attribute access is access to the instance
    dictionary. *)
Lemma ordinary_getattr (vs : gmap string value) (n : string) :
  ordinary n -> getattr vs n = vs !! n.
Proof.
  unfold ordinary, hasattr, getattr.
  destruct (String.eqb n "__class__"); [discriminate |].
  destruct (String.eqb n "__dict__"); [discriminate |].
  rewrite lookup_empty.
  destruct (class_attr n); [discriminate |].
  destruct (vs !! n); reflexivity.
Qed.

Lemma ordinary_hasattr (vs : gmap string value) (n : string) :
  ordinary n -> hasattr vs n = bool_decide (is_Some (vs !! n)).
Proof.
  intros H. unfold hasattr. rewrite (ordinary_getattr vs n H).
  destruct (vs !! n) as [v|].
  - symmetry. apply bool_decide_eq_true. eauto.
  - symmetry. apply bool_decide_eq_false. intros [v Hv]. discriminate.
Qed.

Lemma ordinary_setattr (vs : gmap string value) (n : string) (v : value) :
  ordinary n -> setattr vs n v = Return (<[n := v]> vs).
Proof.
  unfold ordinary, hasattr, getattr, setattr.
  destruct (String.eqb n "__class__"); [discriminate |].
  destruct (String.eqb n "__dict__"); [discriminate |].
  reflexivity.
Qed.

Lemma ordinary_hasattr_false (vs : gmap string value) (n : string) :
  ordinary n -> vs !! n = None -> hasattr vs n = false.
Proof.
  intros H Hn. unfold hasattr. rewrite (ordinary_getattr vs n H), Hn.
  reflexivity.
Qed.


(** The default-storing loops never raise: a default is stored only under
    a name that is not an attribute, and such a name can be stored. *)
Lemma default_params_fill (params : list Param) (vs : gmap string value) :
  default_params params vs
  = Return (fill_defaults param_name Param_is_optional param_default
              params vs).
Proof.
  unfold fill_defaults. revert vs.
  induction params as [|p rest IH]; intros vs; simpl; [reflexivity |].
  destruct (Param_is_optional p); simpl; [| apply IH].
  destruct (hasattr vs (param_name p)) eqn:Hh; simpl; [apply IH |].
  apply hasattr_false_inv in Hh as (_ & _ & Hset).
  rewrite Hset. simpl. apply IH.
Qed.

Lemma default_flags_fill (flags : list Flag) (vs : gmap string value) :
  default_flags flags vs
  = Return (fill_defaults flag_name Flag_is_optional flag_default flags vs).
Proof.
  unfold fill_defaults. revert vs.
  induction flags as [|f rest IH]; intros vs; simpl; [reflexivity |].
  destruct (Flag_is_optional f); simpl; [| apply IH].
  destruct (hasattr vs (flag_name f)) eqn:Hh; simpl; [apply IH |].
  apply hasattr_false_inv in Hh as (_ & _ & Hset).
  rewrite Hset. simpl. apply IH.
Qed.

(** [finish], once both checks have passed. *)
Lemma finish_defaults (cmd : Command) (vs : gmap string value) :
  (let* vs1 := default_params (cmd_params cmd) vs in
   let* vs2 := default_flags (cmd_flags cmd) vs1 in
   Return (mkArgs (Command_name cmd) vs2))
  = Return (mkArgs (Command_name cmd)
              (fill_defaults flag_name Flag_is_optional flag_default
                 (cmd_flags cmd)
                 (fill_defaults param_name Param_is_optional param_default
                    (cmd_params cmd) vs))).
Proof.
  rewrite default_params_fill. simpl. rewrite default_flags_fill. reflexivity.
Qed.

(** ** Strings *)

Lemma startswith_dashes_len (s : string) :
  Py.startswith s "--" = true -> (2 <= Py.len s)%nat.
Proof.
  unfold Py.len.
  destruct s as [|a [|b r]]; cbn; try discriminate.
  - rewrite andb_false_r. discriminate.
  - intros _. lia.
Qed.

(** [Flag.long] accepts exactly the names that, once trimmed, start with two
    dashes and are longer than 2. *)
Lemma Flag_long_accepts (self : Flag) (l : string) :
  (exists f, Flag_long self l = Return f)
  <-> Py.startswith (Py.strip l) "--" = true /\ (2 < Py.len (Py.strip l))%nat.
Proof.
  unfold Flag_long.
  destruct (Py.startswith (Py.strip l) "--") eqn:Hs; simpl.
  - apply startswith_dashes_len in Hs.
    destruct (Py.len (Py.strip l) =? 2)%nat eqn:Hl.
    + apply Nat.eqb_eq in Hl. split.
      * intros [f Hf]. discriminate.
      * intros [_ H]. lia.
    + apply Nat.eqb_neq in Hl. split.
      * intros _. split; [reflexivity | lia].
      * intros _. eexists. reflexivity.
  - split.
    + intros [f Hf]. discriminate.
    + intros [H _]. discriminate.
Qed.

(** [Command.long] accepts every name that, once trimmed, starts with two
    dashes, whatever its length. *)
Lemma Command_long_accepts (self : Command) (l : string) :
  (exists c, Command_long self l = Return c)
  <-> Py.startswith (Py.strip l) "--" = true.
Proof.
  unfold Command_long.
  destruct (Py.startswith (Py.strip l) "--"); simpl; split;
    try (intros [c Hc]; discriminate); try discriminate; try reflexivity.
  intros _. eexists. reflexivity.
Qed.

(** C7. [.long(l)] is claimed to succeed iff the trimmed [l] starts with two
    dashes and is longer than 2.  [Flag.long] does that
    ([Flag_long_accepts]); [Command.long] has no length check: on every
    command, [.long("--")] succeeds and records the alias ["--"], whose
    length is 2. *)
Theorem Command_long_accepts_bare_dashes (self : Command) :
  Command_long self "--"
  = Return {| cmd_name := cmd_name self;
              cmd_description := cmd_description self;
              cmd_short := cmd_short self;
              cmd_long := cmd_long self ++ ["--"];
              cmd_disable_name := cmd_disable_name self;
              cmd_flags := cmd_flags self; cmd_params := cmd_params self |}
  /\ Py.len (Py.strip "--") = 2%nat
  /\ (exists e, Flag_long output_flag "--" = Raise e
                /\ exc_cls e = ValueError).
Proof.
  split; [reflexivity | split; [reflexivity |]].
  eexists. split; reflexivity.
Qed.

(** [Command.__init__] fails exactly on the names that are empty once
    trimmed. *)
Lemma Command_init_blank (name : string) (description : option string) :
  Py.strip name = ""
  -> Command_init name description
     = raise_ValueError "name must be a non-empty string!".
Proof.
  intros H. unfold Command_init. rewrite H. reflexivity.
Qed.

(** On success [Command.__init__] stores the name it was given. *)
Lemma Command_init_name (name : string) (description : option string)
  (cmd : Command) :
  Command_init name description = Return cmd -> Command_name cmd = name.
Proof.
  unfold Command_init.
  destruct (String.eqb (Py.strip name) ""); [discriminate |].
  intros H. injection H as <-. reflexivity.
Qed.

(** C8. The stored name of a command is claimed to be the trimmed name.
    [Command.__init__] trims only for the emptiness check: for
    [Command(" help ")] the stored name is [" help "], with its blanks,
    whereas [Flag(" help ")] and [Param(" help ")] store ["help"]. *)
Theorem Command_init_keeps_blanks :
  (exists cmd, Command_init " help " None = Return cmd
               /\ Command_name cmd = " help "
               /\ Command_name cmd <> Py.strip " help ")
  /\ (exists f, Flag_init " help " None = Return f /\ flag_name f = "help")
  /\ (exists p, Param_init " help " None = Return p /\ param_name p = "help").
Proof.
  split; [| split].
  - eexists. split; [reflexivity |]. split; [reflexivity |].
    vm_compute. discriminate.
  - eexists. split; reflexivity.
  - eexists. split; reflexivity.
Qed.

(** ** The help renderer *)

(** The line of a flag does not show the declared default: two flags that
    differ only in a truthy default have the same line. *)
Lemma flag_line_ignores_default_value (width : nat) (label : string)
  (flag : Flag) (v w : value) :
  truthy v = true -> truthy w = true
  -> flag_line width label (Flag_default flag v)
     = flag_line width label (Flag_default flag w).
Proof.
  intros Hv Hw. unfold flag_line. simpl. rewrite Hv, Hw. reflexivity.
Qed.

(** C9. The Flags block is claimed to end the line of a flag that has a
    truthy default with [(default <value>)].  For the flag [--format] with
    default ["png"], the line ends with the placeholder text
    [(default {default!r})], while the Arguments block shows the default of
    the parameter [note] as [(default 'none')]. *)
Theorem flags_block_prints_placeholder :
  flags_block [format_flag]
  = ["  [--format] the file format (default {default!r})"]
  /\ arguments_block sample_repr [note_param]
     = ["  [note]  (default 'none')"].
Proof. split; reflexivity. Qed.

(** ** Command lookup *)

Lemma existsb_eqb_In (x : string) (l : list string) :
  existsb (fun y => String.eqb y x) l = true <-> In x l.
Proof.
  rewrite existsb_exists. split.
  - intros [y [Hy He]]. apply String.eqb_eq in He. subst. exact Hy.
  - intros H. exists x. split; [exact H | apply String.eqb_refl].
Qed.

(** The three tests of the loop body of [_find_command] decide
    [matches_token]. *)
Lemma matches_token_dec (token : string) (cmd : Command) :
  (negb (cmd_disable_name cmd)
   && String.eqb (Py.lower token) (Py.lower (Command_name cmd))
   || existsb (fun short => String.eqb short token) (cmd_short cmd)
   || existsb (fun long => String.eqb long token) (cmd_long cmd)) = true
  <-> matches_token token cmd.
Proof.
  unfold matches_token, Command_name.
  rewrite !orb_true_iff, andb_true_iff, negb_true_iff, String.eqb_eq,
    !existsb_eqb_In.
  tauto.
Qed.

Lemma find_command_step (cmd : Command) (rest : list Command)
  (token : string) :
  _find_command (cmd :: rest) token
  = if negb (cmd_disable_name cmd)
       && String.eqb (Py.lower token) (Py.lower (Command_name cmd))
       || existsb (fun short => String.eqb short token) (cmd_short cmd)
       || existsb (fun long => String.eqb long token) (cmd_long cmd)
    then Some cmd else _find_command rest token.
Proof.
  simpl.
  destruct (negb (cmd_disable_name cmd)
            && String.eqb (Py.lower token) (Py.lower (Command_name cmd)));
    [reflexivity |].
  destruct (existsb _ (cmd_short cmd)); reflexivity.
Qed.

Lemma find_command_Some (cmds : list Command) (token : string)
  (cmd : Command) :
  _find_command cmds token = Some cmd
  -> exists pre post,
       cmds = (pre ++ cmd :: post)%list
       /\ matches_token token cmd
       /\ Forall (fun c => ~ matches_token token c) pre.
Proof.
  induction cmds as [|c rest IH]; [discriminate |].
  rewrite find_command_step.
  destruct (_ || _ || _) eqn:Hm.
  - intros H. injection H as <-. apply matches_token_dec in Hm.
    exists [], rest. repeat split; [exact Hm | constructor].
  - intros H. destruct (IH H) as (pre & post & -> & Hc & Hpre).
    exists (c :: pre), post. repeat split; [exact Hc |].
    constructor; [| exact Hpre].
    intros Hn. apply matches_token_dec in Hn. congruence.
Qed.

Lemma find_command_None (cmds : list Command) (token : string) :
  _find_command cmds token = None
  <-> Forall (fun c => ~ matches_token token c) cmds.
Proof.
  induction cmds as [|c rest IH].
  - split; [constructor | reflexivity].
  - rewrite find_command_step.
    destruct (_ || _ || _) eqn:Hm.
    + apply matches_token_dec in Hm. split; [discriminate |].
      intros H. inversion H; subst. contradiction.
    + rewrite IH. split.
      * intros H. constructor; [| exact H].
        intros Hn. apply matches_token_dec in Hn. congruence.
      * intros H. inversion H; assumption.
Qed.

(** [finish] names the selected command in its result. *)
Lemma finish_command (repr : value -> string) (cmd : Command)
  (parser : _ArgParse) (a : Args) :
  finish repr cmd parser = Return a -> args_command a = cmd_name cmd.
Proof.
  unfold finish.
  destruct (missing_positional parser); [discriminate |].
  destruct (0 <? size (required_flags parser))%nat; [discriminate |].
  rewrite finish_defaults. intros H. injection H as <-. reflexivity.
Qed.

(** C2. The first token selects the first command, in declaration order,
    that matches it: by its enabled bare name up to case, or by one of its
    short or long aliases exactly; a successful parse is a parse for that
    command, and when no command matches [parse_args] raises the
    unknown-command error. *)
Theorem find_command_first_match (repr : value -> string)
  (cmds : list Command) (token : string) (rest : list string) :
  match _find_command cmds token with
  | Some cmd =>
      (exists pre post,
         cmds = (pre ++ cmd :: post)%list
         /\ matches_token token cmd
         /\ Forall (fun c => ~ matches_token token c) pre)
      /\ (forall a, parse_args repr cmds (token :: rest) = Return a
                    -> args_command a = cmd_name cmd)
  | None =>
      Forall (fun c => ~ matches_token token c) cmds
      /\ parse_args repr cmds (token :: rest)
         = raise_ValueError ("unknown command: " +:+ repr (VStr token))
  end.
Proof.
  destruct (_find_command cmds token) as [cmd|] eqn:Hf.
  - split; [apply find_command_Some; exact Hf |].
    intros a. unfold parse_args, parse_args_fuel. rewrite Hf.
    destruct (parse_loop _ _ _) as [[parser|e]|]; try discriminate.
    apply finish_command.
  - split; [apply find_command_None; exact Hf |].
    unfold parse_args, parse_args_fuel. rewrite Hf. reflexivity.
Qed.

(** The bare name is matched up to case, the aliases exactly. *)
Example find_command_case :
  _find_command [help_command; run_command None] "HeLP" = Some help_command
  /\ _find_command [help_command; run_command None] "-h" = Some help_command
  /\ _find_command [help_command; run_command None] "-H" = None
  /\ _find_command [help_command; run_command None] "--HELP" = None
  /\ _find_command [help_command; run_command None] "Run"
     = Some (run_command None).
Proof. repeat split. Qed.

(** ** Builder calls and the order of the parameters *)

Lemma last_param_optional_In (params : list Param) :
  last_param_optional params = true
  -> exists p, In p params /\ Param_is_optional p = true.
Proof.
  unfold last_param_optional.
  destruct (last params) as [p|] eqn:Hl; [| discriminate].
  intros Hp. exists p. split; [| exact Hp].
  apply list_elem_of_In. eapply last_Some_elem_of. exact Hl.
Qed.

Lemma last_param_optional_all (params : list Param) (x : Param) :
  forallb Param_is_optional (x :: params) = true
  -> last_param_optional (x :: params) = true.
Proof.
  intros Hall. unfold last_param_optional.
  destruct (last (x :: params)) as [p|] eqn:Hl.
  - apply last_Some_elem_of, list_elem_of_In in Hl.
    rewrite forallb_forall in Hall. apply Hall. exact Hl.
  - apply last_None in Hl. discriminate.
Qed.

(** With the required parameters first, an optional parameter anywhere
    makes the last parameter optional. *)
Lemma required_first_last (params : list Param) (p : Param) :
  required_first params = true
  -> In p params -> Param_is_optional p = true
  -> last_param_optional params = true.
Proof.
  induction params as [|x rest IH]; [contradiction |].
  simpl required_first. intros Hrf Hin Hp.
  destruct (Param_is_optional x) eqn:Hx.
  - apply last_param_optional_all. simpl. rewrite Hx. exact Hrf.
  - destruct Hin as [-> | Hin]; [congruence |].
    specialize (IH Hrf Hin Hp).
    unfold last_param_optional in *.
    destruct rest as [|y rest']; [contradiction |].
    rewrite last_cons. destruct (last (y :: rest')); [exact IH | discriminate].
Qed.

(** Appending a parameter that [Command.arg] lets through keeps the required
    parameters first. *)
Lemma required_first_snoc (params : list Param) (x : Param) :
  required_first params = true
  -> Param_is_optional x = true \/ last_param_optional params = false
  -> required_first (params ++ [x]) = true.
Proof.
  induction params as [|y rest IH]; intros Hrf Hx.
  - simpl. destruct (Param_is_optional x); reflexivity.
  - simpl in *. destruct (Param_is_optional y) eqn:Hy.
    + rewrite forallb_app. rewrite Hrf. simpl. rewrite andb_true_r.
      destruct Hx as [Hx | Hx]; [exact Hx |].
      rewrite last_param_optional_all in Hx; [discriminate |].
      simpl. rewrite Hy. exact Hrf.
    + apply IH; [exact Hrf |].
      destruct Hx as [Hx | Hx]; [left; exact Hx | right].
      unfold last_param_optional in *.
      destruct rest as [|z rest']; [reflexivity |].
      rewrite last_cons in Hx. destruct (last (z :: rest')); [exact Hx |].
      reflexivity.
Qed.

(** Every builder call keeps the required parameters first. *)
Lemma after_call_required_first (repr : value -> string) (self : Command)
  (call : builder_call) :
  required_first (cmd_params self) = true
  -> required_first (cmd_params (after_call repr self call)) = true.
Proof.
  intros Hrf. unfold after_call, apply_call.
  destruct call as [s | l | arg].
  - unfold Command_short.
    repeat (match goal with |- context [if ?b then _ else _] =>
              destruct b end; simpl; try exact Hrf).
  - unfold Command_long.
    destruct (negb _); simpl; exact Hrf.
  - unfold Command_arg.
    destruct (existsb _ (cmd_flags self)); [exact Hrf |].
    destruct (existsb _ (cmd_params self)); [exact Hrf |].
    destruct arg as [flag | param].
    + destruct (_ =? 0)%nat; simpl; exact Hrf.
    + destruct (negb (Param_is_optional param)
                && (0 <? length (cmd_params self))%nat
                && last_param_optional (cmd_params self)) eqn:Hg;
        simpl; [exact Hrf |].
      apply required_first_snoc; [exact Hrf |].
      destruct (Param_is_optional param); [left; reflexivity | right].
      simpl in Hg.
      destruct (0 <? length (cmd_params self))%nat eqn:Hlen;
        simpl in Hg; [exact Hg |].
      apply Nat.ltb_ge in Hlen.
      destruct (cmd_params self); [reflexivity | simpl in Hlen; lia].
Qed.

Lemma run_calls_required_first (repr : value -> string)
  (calls : list builder_call) (self : Command) :
  required_first (cmd_params self) = true
  -> required_first (cmd_params (run_calls repr self calls)) = true.
Proof.
  unfold run_calls. revert self.
  induction calls as [|call rest IH]; intros self Hrf; [exact Hrf |].
  simpl. apply IH. apply after_call_required_first. exact Hrf.
Qed.

Lemma Command_init_params (name : string) (description : option string)
  (cmd : Command) :
  Command_init name description = Return cmd
  -> cmd_params cmd = [] /\ cmd_flags cmd = [].
Proof.
  unfold Command_init.
  destruct (String.eqb (Py.strip name) ""); [discriminate |].
  intros H. injection H as <-. split; reflexivity.
Qed.

(** A script of calls on the command only is the fold of its calls. *)
Lemma run_calls_fold (repr : value -> string) (calls : list builder_call)
  (self : Command) :
  run_calls repr self calls = fold_left (after_call repr) calls self.
Proof.
  unfold run_calls, run_script. revert self.
  induction calls as [|c rest IH]; intros self; simpl;
    [reflexivity | apply IH].
Qed.

(** No builder call on a parameter makes it required. *)
Lemma after_param_call_optional (p : Param) (c : param_call) :
  Param_is_optional p = true
  -> Param_is_optional (after_param_call p c) = true.
Proof. destruct c; simpl; auto. Qed.

(** A builder call on a parameter other than [optional] leaves its status
    as it is. *)
Lemma after_param_call_status (p : Param) (c : param_call) :
  late_optional (OnParam 0 c) = false
  -> Param_is_optional (after_param_call p c) = Param_is_optional p.
Proof. destruct c; simpl; [discriminate | reflexivity | reflexivity]. Qed.

Lemma last_param_optional_alter (params : list Param) (i : nat)
  (c : param_call) :
  last_param_optional params = true
  -> last_param_optional (alter (fun p => after_param_call p c) i params)
     = true.
Proof.
  unfold last_param_optional. rewrite !last_lookup, length_alter.
  destruct (decide (i = pred (length params))) as [-> | Hne].
  - rewrite list_lookup_alter_eq.
    destruct (params !! pred (length params)) as [p|]; simpl;
      [apply after_param_call_optional | discriminate].
  - rewrite list_lookup_alter_ne by exact Hne. auto.
Qed.

(** Once the last parameter is optional it stays so, whatever is called. *)
Lemma after_script_call_last_optional (repr : value -> string)
  (self : Command) (call : script_call) :
  last_param_optional (cmd_params self) = true
  -> last_param_optional (cmd_params (after_script_call repr self call))
     = true.
Proof.
  intros H. destruct call as [c | i c | i c]; simpl;
    [| apply last_param_optional_alter; exact H | exact H].
  unfold after_call, apply_call. destruct c as [s | l | arg].
  - unfold Command_short.
    repeat (match goal with |- context [if ?b then _ else _] =>
              destruct b end; simpl; try exact H).
  - unfold Command_long. destruct (negb _); simpl; exact H.
  - unfold Command_arg.
    destruct (existsb _ (cmd_flags self)); [exact H |].
    destruct (existsb _ (cmd_params self)); [exact H |].
    destruct arg as [flag | param].
    + destruct (_ =? 0)%nat; simpl; exact H.
    + rewrite H, andb_true_r.
      destruct (Param_is_optional param) eqn:Ho; simpl.
      * unfold last_param_optional. rewrite last_snoc. exact Ho.
      * destruct (0 <? length (cmd_params self))%nat eqn:Hlen; simpl;
          [exact H |].
        apply Nat.ltb_ge in Hlen.
        destruct (cmd_params self); [discriminate H | simpl in Hlen; lia].
Qed.

Lemma run_script_last_optional (repr : value -> string)
  (script : list script_call) (self : Command) :
  last_param_optional (cmd_params self) = true
  -> last_param_optional (cmd_params (run_script repr self script)) = true.
Proof.
  unfold run_script. revert self.
  induction script as [|call rest IH]; intros self H; [exact H |].
  simpl. apply IH. apply after_script_call_last_optional. exact H.
Qed.

Lemma run_script_app (repr : value -> string) (pre post : list script_call)
  (self : Command) :
  run_script repr self (pre ++ post)
  = run_script repr (run_script repr self pre) post.
Proof. unfold run_script. apply fold_left_app. Qed.

Lemma forallb_optional_alter (params : list Param) (i : nat)
  (c : param_call) :
  late_optional (OnParam 0 c) = false
  -> forallb Param_is_optional (alter (fun p => after_param_call p c) i params)
     = forallb Param_is_optional params.
Proof.
  intros Hc. revert i.
  induction params as [|x rest IH]; intros i; [reflexivity |].
  destruct i as [|i]; simpl.
  - rewrite (after_param_call_status x c Hc). reflexivity.
  - f_equal. apply IH.
Qed.

Lemma required_first_alter (params : list Param) (i : nat) (c : param_call) :
  late_optional (OnParam 0 c) = false
  -> required_first (alter (fun p => after_param_call p c) i params)
     = required_first params.
Proof.
  intros Hc. revert i.
  induction params as [|x rest IH]; intros i; [reflexivity |].
  destruct i as [|i]; simpl.
  - rewrite (after_param_call_status x c Hc). reflexivity.
  - destruct (Param_is_optional x);
      [apply (forallb_optional_alter rest i c Hc) | apply IH].
Qed.

(** As long as no parameter is made optional after it was added, the
    required parameters stay first. *)
Lemma run_script_required_first (repr : value -> string)
  (script : list script_call) (self : Command) :
  forallb (fun c => negb (late_optional c)) script = true
  -> required_first (cmd_params self) = true
  -> required_first (cmd_params (run_script repr self script)) = true.
Proof.
  unfold run_script. revert self.
  induction script as [|call rest IH]; intros self Hs Hrf; [exact Hrf |].
  simpl in Hs. apply andb_prop in Hs as [Hc Hs].
  simpl. apply IH; [exact Hs |].
  destruct call as [c | i c | i c]; simpl.
  - apply after_call_required_first. exact Hrf.
  - rewrite required_first_alter; [exact Hrf |].
    destruct c; [discriminate Hc | reflexivity | reflexivity].
  - exact Hrf.
Qed.

(** With the required parameters first, a required parameter stands before
    every optional one. *)
Lemma required_first_lookup (params : list Param) (i j : nat)
  (p q : Param) :
  required_first params = true
  -> params !! i = Some p -> params !! j = Some q
  -> Param_is_optional p = false -> Param_is_optional q = true
  -> (i < j)%nat.
Proof.
  revert i j. induction params as [|x rest IH]; intros i j Hrf Hi Hj Hp Hq.
  - discriminate.
  - simpl in Hrf. destruct (Param_is_optional x) eqn:Hx.
    + assert (Hall : forallb Param_is_optional (x :: rest) = true)
        by (simpl; rewrite Hx; exact Hrf).
      rewrite forallb_forall in Hall.
      apply list_elem_of_lookup_2, list_elem_of_In in Hi.
      rewrite (Hall p Hi) in Hp. discriminate.
    + destruct i as [|i'], j as [|j']; simpl in Hi, Hj.
      * congruence.
      * lia.
      * congruence.
      * specialize (IH i' j' Hrf Hi Hj Hp Hq). lia.
Qed.

(** [Command.arg] rejects a required parameter when the last parameter is
    optional. *)
Lemma Command_arg_required_rejected (repr : value -> string)
  (self : Command) (q : Param) :
  last_param_optional (cmd_params self) = true
  -> Param_is_optional q = false
  -> exists e, Command_arg repr self (IParam q) = Raise e
               /\ exc_cls e = ValueError.
Proof.
  intros Hlast Hq. unfold Command_arg.
  destruct (existsb _ (cmd_flags _)); [eexists; split; reflexivity |].
  destruct (existsb _ (cmd_params _)); [eexists; split; reflexivity |].
  rewrite Hq, Hlast. simpl.
  destruct (cmd_params self) eqn:Hps; [discriminate Hlast |].
  simpl. eexists; split; reflexivity.
Qed.

(** [Command.arg] appends the parameter it accepts. *)
Lemma Command_arg_param_Return (repr : value -> string) (self c1 : Command)
  (p : Param) :
  Command_arg repr self (IParam p) = Return c1
  -> cmd_params c1 = (cmd_params self ++ [p])%list.
Proof.
  unfold Command_arg.
  destruct (existsb _ (cmd_flags _)); [discriminate |].
  destruct (existsb _ (cmd_params _)); [discriminate |].
  destruct (negb (Param_is_optional p) && _ && _); [discriminate |].
  intros H. injection H as <-. reflexivity.
Qed.

(** C4, as stated, fails for the consequence it draws: [Command.arg] keeps
    the [Param] object it is given, and [Param.optional] changes that
    object.  After [c = Command("c").arg(p).arg(q)] with both parameters
    required, [p.optional()] leaves the command with an optional parameter
    before a required one; as the last parameter is required, [arg] then
    accepts one more required parameter. *)
Lemma optional_after_arg_reorders :
  Command_init "c" None
  = Return {| cmd_name := "c"; cmd_description := None; cmd_short := [];
              cmd_long := []; cmd_disable_name := false; cmd_flags := [];
              cmd_params := [] |}
  /\ run_script sample_repr
       {| cmd_name := "c"; cmd_description := None; cmd_short := [];
          cmd_long := []; cmd_disable_name := false; cmd_flags := [];
          cmd_params := [] |} late_optional_script
     = late_optional_command
  /\ constructed sample_repr late_optional_command
  /\ cmd_params late_optional_command !! 0%nat
     = Some (Param_optional first_param)
  /\ Param_is_optional (Param_optional first_param) = true
  /\ cmd_params late_optional_command !! 1%nat = Some second_param
  /\ Param_is_optional second_param = false
  /\ required_first (cmd_params late_optional_command) = false
  /\ Param_is_optional third_param = false
  /\ Command_arg sample_repr late_optional_command (IParam third_param)
     = Return {| cmd_name := "c"; cmd_description := None; cmd_short := [];
                 cmd_long := []; cmd_disable_name := false; cmd_flags := [];
                 cmd_params := [Param_optional first_param; second_param;
                                third_param] |}.
Proof.
  split; [reflexivity |]. split; [reflexivity |]. split.
  { exists "c", None,
      {| cmd_name := "c"; cmd_description := None; cmd_short := [];
         cmd_long := []; cmd_disable_name := false; cmd_flags := [];
         cmd_params := [] |}, late_optional_script.
    split; reflexivity. }
  repeat split.
Qed.

(** C4, amended.  In a command built from [Command(name, description)] by
    any script of builder calls, calls on the items already added
    included: once [arg] has added a parameter that was optional when it
    was passed, every later [Command.arg] call with a required parameter
    raises a [ValueError]; and when no parameter is made optional after it
    was passed to [arg], the required parameters precede all the optional
    ones. *)
Theorem required_after_optional_rejected (repr : value -> string)
  (name : string) (description : option string) (cmd0 : Command) :
  Command_init name description = Return cmd0
  -> (forall pre post p c1 q,
        Param_is_optional p = true
        -> Command_arg repr (run_script repr cmd0 pre) (IParam p) = Return c1
        -> Param_is_optional q = false
        -> exists e,
             Command_arg repr
               (run_script repr cmd0
                  (pre ++ OnCommand (CallArg (IParam p)) :: post))
               (IParam q) = Raise e
             /\ exc_cls e = ValueError)
     /\ (forall script i j p q,
           forallb (fun c => negb (late_optional c)) script = true
           -> cmd_params (run_script repr cmd0 script) !! i = Some p
           -> cmd_params (run_script repr cmd0 script) !! j = Some q
           -> Param_is_optional p = false
           -> Param_is_optional q = true
           -> (i < j)%nat).
Proof.
  intros Hinit. split.
  - intros pre post p c1 q Hp Hadd Hq.
    apply Command_arg_required_rejected; [| exact Hq].
    rewrite run_script_app. change (OnCommand (CallArg (IParam p)) :: post)
      with ([OnCommand (CallArg (IParam p))] ++ post)%list.
    rewrite run_script_app. apply run_script_last_optional.
    unfold run_script at 1. simpl. unfold after_call, apply_call.
    rewrite Hadd.
    rewrite (Command_arg_param_Return _ _ _ _ Hadd).
    unfold last_param_optional. rewrite last_snoc. exact Hp.
  - intros script i j p q Hs. apply required_first_lookup.
    apply run_script_required_first; [exact Hs |].
    apply Command_init_params in Hinit as [-> _]. reflexivity.
Qed.

Lemma required_after_optional_rejected_witness :
  Command_init "run" None
  = Return {| cmd_name := "run"; cmd_description := None; cmd_short := [];
              cmd_long := []; cmd_disable_name := false; cmd_flags := [];
              cmd_params := [] |}
  /\ (exists e,
        Command_arg sample_repr
          (run_script sample_repr
             {| cmd_name := "run"; cmd_description := None; cmd_short := [];
                cmd_long := []; cmd_disable_name := false; cmd_flags := [];
                cmd_params := [] |}
             ([OnCommand (CallArg (IParam (image_param None)))]
              ++ OnCommand (CallArg (IParam note_param))
                 :: [OnParam 0 POptional]))
          (IParam third_param) = Raise e
        /\ exc_cls e = ValueError)
  /\ (forall i j p q,
        cmd_params (run_command None) !! i = Some p
        -> cmd_params (run_command None) !! j = Some q
        -> Param_is_optional p = false
        -> Param_is_optional q = true
        -> (i < j)%nat).
Proof.
  split; [reflexivity |].
  pose proof (required_after_optional_rejected sample_repr "run" None _
                eq_refl) as [H1 H2].
  split.
  - exact (H1 [OnCommand (CallArg (IParam (image_param None)))]
             [OnParam 0 POptional] note_param _ third_param
             eq_refl eq_refl eq_refl).
  - exact (fun i j p q =>
             H2 (map OnCommand (run_calls_script None)) i j p q eq_refl).
Defined.

(** ** The scanning loop: what a step keeps, and termination *)

Ltac crack :=
  repeat match goal with
    | H : Return _ = Return _ |- _ => injection H as H; subst
    | H : Raise _ = Return _ |- _ => discriminate H
    | H : raise_ValueError _ = Return _ |- _ => discriminate H
    | H : context [bind ?m _] |- _ => destruct m eqn:?; simpl bind in H
    | H : context [match ?x with _ => _ end] |- _ => destruct x eqn:?
    end.

Lemma frame_refl (st : _ArgParse) : frame st st.
Proof. unfold frame. auto. Qed.

Lemma frame_trans (a b c : _ArgParse) : frame a b -> frame b c -> frame a c.
Proof.
  unfold frame. intros (? & ? & ? & ?) (? & ? & ? & ?).
  repeat split; try congruence. lia.
Qed.

Lemma track_required_frame (st : _ArgParse) (flag : Flag) :
  frame st (track_required st flag)
  /\ idx (track_required st flag) = idx st
  /\ values (track_required st flag) = values st
  /\ param_idx (track_required st flag) = param_idx st.
Proof.
  unfold track_required, frame. destruct (bool_decide _); simpl; auto 10.
Qed.

Lemma parse_long_frame (st st' : _ArgParse) (arg_value : string) :
  _parse_long st arg_value = Return st' -> frame st st'.
Proof.
  unfold _parse_long. intros H.
  destruct (_find_long_flag st _) as [flag|]; [| discriminate].
  destruct (track_required_frame st flag) as (Hf & Hi & _).
  eapply frame_trans; [exact Hf |].
  revert H. generalize (track_required st flag). intros st1 H.
  crack; unfold frame; simpl; repeat split; try reflexivity; lia.
Qed.

Lemma parse_short_flag_frame (st st' : _ArgParse) (fname : string) :
  parse_short_flag st fname = Return st' -> frame st st'.
Proof.
  unfold parse_short_flag. intros H.
  destruct (_find_short_flag st _) as [flag|]; [| discriminate].
  destruct (track_required_frame st flag) as (Hf & Hi & _).
  eapply frame_trans; [exact Hf |].
  revert H. generalize (track_required st flag). intros st1 H.
  crack; unfold frame; simpl; repeat split; try reflexivity; lia.
Qed.

Lemma parse_short_flags_frame (names : list string) (st st' : _ArgParse) :
  parse_short_flags st names = Return st' -> frame st st'.
Proof.
  revert st. induction names as [|n rest IH]; intros st H; simpl in H.
  - injection H as <-. apply frame_refl.
  - destruct (parse_short_flag st n) as [st1|e] eqn:H1; [| discriminate].
    simpl in H. eapply frame_trans; [| apply IH; exact H].
    eapply parse_short_flag_frame. exact H1.
Qed.

Lemma parse_short_frame (st st' : _ArgParse) (arg_value : string) :
  _parse_short st arg_value = Return st' -> frame st st'.
Proof.
  unfold _parse_short.
  destruct (_ =? 0)%nat; [discriminate |]. apply parse_short_flags_frame.
Qed.

Lemma parse_positional_frame (repr : value -> string) (st st' : _ArgParse)
  (arg_value : string) :
  parse_positional repr st arg_value = Return st' -> frame st st'.
Proof.
  unfold parse_positional. intros H.
  crack; unfold frame; simpl; repeat split; try reflexivity; lia.
Qed.

(** A turn of the loop moves the cursor forward. *)
Lemma parse_token_frame (repr : value -> string) (st st' : _ArgParse) :
  parse_token repr st = Return st'
  -> frame st st' /\ (idx st < idx st')%nat.
Proof.
  unfold parse_token. intros H.
  destruct (argv st !! idx st) as [arg_value|]; [| discriminate].
  assert (Hs : frame (set_idx st (idx st + 1)) st').
  { destruct (Py.startswith arg_value "--");
      [eapply parse_long_frame; exact H |].
    destruct (Py.startswith arg_value "-");
      [eapply parse_short_frame; exact H |].
    eapply parse_positional_frame; exact H. }
  destruct Hs as (? & ? & ? & Hi). simpl in *.
  unfold frame. repeat split; try assumption; lia.
Qed.

(** The loop ends within as many turns as there are tokens left. *)
Lemma parse_loop_fuel (repr : value -> string) (fuel : nat)
  (st : _ArgParse) :
  (length (argv st) - idx st <= fuel)%nat
  -> exists r, parse_loop repr fuel st = Some r.
Proof.
  revert st. induction fuel as [|fuel IH]; intros st Hf.
  - simpl. destruct (idx st <? length (argv st))%nat eqn:Hlt.
    + apply Nat.ltb_lt in Hlt. lia.
    + eexists. reflexivity.
  - simpl. destruct (idx st <? length (argv st))%nat eqn:Hlt;
      [| eexists; reflexivity].
    destruct (parse_token repr st) as [st'|e] eqn:Ht;
      [| eexists; reflexivity].
    apply parse_token_frame in Ht as ((_ & Ha & _ & _) & Hi).
    apply IH. rewrite Ha. lia.
Qed.

(** [parse_args] never runs out of fuel. *)
Lemma parse_args_fuel_enough (repr : value -> string) (cmds : list Command)
  (args : list string) :
  parse_args_fuel repr (length args) cmds args
  = Some (parse_args repr cmds args).
Proof.
  unfold parse_args.
  destruct (parse_args_fuel repr (length args) cmds args) eqn:H;
    [reflexivity |].
  unfold parse_args_fuel in H.
  destruct args as [|first rest]; [discriminate |].
  destruct (_find_command cmds first) as [cmd|]; [| discriminate].
  destruct (parse_loop_fuel repr (length (first :: rest))
              (initial_parser cmds (first :: rest) cmd)) as [r Hr].
  { simpl. lia. }
  rewrite Hr in H. destruct r; discriminate.
Qed.

(** ** Valued flags take the next token *)

Lemma lookup_argv_None (st : _ArgParse) :
  argv st !! idx st = None
  -> (length (argv st) <=? idx st)%nat = true.
Proof. intros H. apply Nat.leb_le. apply lookup_ge_None. exact H. Qed.

Lemma lookup_argv_Some (st : _ArgParse) (token : string) :
  argv st !! idx st = Some token
  -> (length (argv st) <=? idx st)%nat = false.
Proof.
  intros H. apply Nat.leb_gt. eapply lookup_lt_Some. exact H.
Qed.

(** The long form of a valued flag without [=value]. *)
Lemma parse_long_valued (st : _ArgParse) (arg_value : string) (flag : Flag) :
  length (Py.split_eq1 arg_value) = 1%nat
  -> _find_long_flag st arg_value = Some flag
  -> flag_kind flag = valued
  -> _parse_long st arg_value
     = match argv st !! idx st with
       | Some token =>
           store_taken
             (set_idx (track_required st flag) (idx st + 1)) flag token
             (Command_name (command st)
              +:+ ": invalid argument from flag '--" +:+ arg_value
              +:+ "' -- ")
       | None =>
           raise_ValueError
             (Command_name (command st)
              +:+ ": expected positional argument from flag '--"
              +:+ arg_value +:+ "'")
       end.
Proof.
  intros Hparts Hfind Hkind.
  unfold _parse_long. rewrite Hparts. simpl Nat.eqb. cbv iota.
  rewrite Hfind, Hkind. simpl.
  destruct (track_required_frame st flag) as ((_ & Ha & Hc & _) & Hi & _).
  rewrite Ha, Hi.
  destruct (argv st !! idx st) as [token|] eqn:Hl.
  - rewrite (lookup_argv_Some _ _ Hl). simpl. reflexivity.
  - rewrite (lookup_argv_None _ Hl). reflexivity.
Qed.

(** A valued short flag. *)
Lemma parse_short_flag_valued (st : _ArgParse) (fname : string)
  (flag : Flag) :
  _find_short_flag st fname = Some flag
  -> flag_kind flag = valued
  -> parse_short_flag st fname
     = match argv st !! idx st with
       | Some token =>
           store_taken
             (set_idx (track_required st flag) (idx st + 1)) flag token
             (Command_name (command st)
              +:+ ": invalid argument from flag '-" +:+ fname +:+ "' -- ")
       | None =>
           raise_ValueError
             (Command_name (command st)
              +:+ ": expected positional argument from flag '-"
              +:+ fname +:+ "'")
       end.
Proof.
  intros Hfind Hkind.
  unfold parse_short_flag. rewrite Hfind, Hkind.
  destruct (track_required_frame st flag) as ((_ & Ha & Hc & _) & Hi & _).
  rewrite Ha, Hi.
  destruct (argv st !! idx st) as [token|] eqn:Hl.
  - rewrite (lookup_argv_Some _ _ Hl). reflexivity.
  - rewrite (lookup_argv_None _ Hl). reflexivity.
Qed.


(** The three cases of the value-kind store: the name holds a list, the
    name is not an attribute, the name holds something else. *)
Lemma append_value_list (vs : gmap string value) (name : string)
  (v : value) (l : list value) :
  getattr vs name = Some (VList l)
  -> append_value vs name v = Return (<[name := VList (l ++ [v])]> vs).
Proof.
  intros H. unfold append_value, hasattr. rewrite H. reflexivity.
Qed.

Lemma append_value_new (vs : gmap string value) (name : string) (v : value) :
  getattr vs name = None
  -> append_value vs name v = Return (<[name := VList [v]]> vs).
Proof.
  intros H.
  assert (Hh : hasattr vs name = false) by (unfold hasattr; rewrite H; auto).
  unfold append_value. rewrite Hh.
  apply hasattr_false_inv in Hh as (_ & _ & Hset). apply Hset.
Qed.


(** A list found by [getattr] is an entry of the instance dictionary. *)
Lemma getattr_list (vs : gmap string value) (name : string)
  (l : list value) :
  getattr vs name = Some (VList l) -> vs !! name = Some (VList l).
Proof.
  unfold getattr, namespace_class.
  destruct (String.eqb name "__class__"); [discriminate |].
  destruct (String.eqb name "__dict__"); [discriminate |].
  destruct (vs !! name) as [w|]; [exact id |].
  unfold class_attr.
  repeat (match goal with |- context [if ?b then _ else _] =>
            destruct b end; try discriminate).
Qed.





(** The sample run: [--output] takes the token [-v] as its value. *)
Example output_takes_dash_token :
  exists a,
    parse_args sample_repr [run_command None]
      ["run"; "img"; "--output"; "-v"] = Return a
    /\ args_values a !! "output" = Some (VList [VStr "-v"])
    /\ args_values a !! "verbose" = Some VNone.
Proof.
  eexists. split; [vm_compute; reflexivity |].
  split; vm_compute; reflexivity.
Qed.

(** Repeated occurrences of a valued flag accumulate in the order met,
    with or without [=value]. *)
Example output_accumulates :
  exists a,
    parse_args sample_repr [run_command None]
      ["run"; "img"; "--output"; "a"; "-v"; "--output=b"; "-vo"; "c"]
    = Return a
    /\ args_values a !! "output"
       = Some (VList [VStr "a"; VStr "b"; VStr "c"])
    /\ args_values a !! "verbose" = Some (VInt 2).
Proof.
  eexists. split; [vm_compute; reflexivity |].
  split; vm_compute; reflexivity.
Qed.

(** ** Short-flag clusters *)

Lemma parse_short_flags_app (pre post : list string) (st : _ArgParse) :
  parse_short_flags st (pre ++ post)
  = (let* st1 := parse_short_flags st pre in parse_short_flags st1 post).
Proof.
  revert st. induction pre as [|n pre IH]; intros st; simpl.
  - reflexivity.
  - destruct (parse_short_flag st n) as [st1|e]; simpl; [apply IH |].
    reflexivity.
Qed.

(** C1, as stated, fails: the characters after a valued flag in a cluster
    are not skipped.  With [-o] valued and [-v] counting, the tokens
    [run img -ov out.txt] give [out.txt] to [output] and count [-v] once;
    and [run img -ox out.txt] raises the unknown-flag error for [x]. *)
Lemma cluster_rest_not_skipped :
  (exists a,
      parse_args sample_repr [run_command None]
        ["run"; "img"; "-ov"; "out.txt"] = Return a
      /\ args_values a !! "output" = Some (VList [VStr "out.txt"])
      /\ args_values a !! "verbose" = Some (VInt 1))
  /\ parse_args sample_repr [run_command None]
       ["run"; "img"; "-ox"; "out.txt"]
     = raise_ValueError "run: unknown flag '--x'".
Proof.
  split.
  - eexists. split; [vm_compute; reflexivity |].
    split; vm_compute; reflexivity.
  - vm_compute. reflexivity.
Qed.

(** C1, amended.  In a cluster, when the characters before a valued flag
    have been processed, the valued flag takes the token at the cursor of
    the token sequence as its value (never characters of the cluster) and
    raises the missing-value error when no token is left; the characters
    after it are then processed in order as short flags, starting from the
    state the valued flag leaves. *)
Theorem cluster_valued_flag_then_rest (st st1 : _ArgParse)
  (arg_value fname : string) (pre post : list string) (flag : Flag) :
  short_flag_names arg_value = (pre ++ fname :: post)%list
  -> parse_short_flags st pre = Return st1
  -> _find_short_flag st1 fname = Some flag
  -> flag_kind flag = valued
  -> _parse_short st arg_value
     = match argv st1 !! idx st1 with
       | Some token =>
           let* st2 :=
             store_taken
               (set_idx (track_required st1 flag) (idx st1 + 1)) flag token
               (Command_name (command st1)
                +:+ ": invalid argument from flag '-" +:+ fname +:+ "' -- ") in
           parse_short_flags st2 post
       | None =>
           raise_ValueError
             (Command_name (command st1)
              +:+ ": expected positional argument from flag '-"
              +:+ fname +:+ "'")
       end.
Proof.
  intros Hnames Hpre Hfind Hkind.
  unfold _parse_short. rewrite Hnames.
  replace (length (pre ++ fname :: post) =? 0)%nat with false
    by (symmetry; apply Nat.eqb_neq; rewrite length_app; simpl; lia).
  rewrite parse_short_flags_app, Hpre. simpl.
  rewrite (parse_short_flag_valued st1 fname flag Hfind Hkind).
  destruct (argv st1 !! idx st1); reflexivity.
Qed.

Lemma cluster_valued_flag_then_rest_witness :
  (short_flag_names "-ov" = ([] ++ "-o" :: ["-v"])%list
   /\ parse_short_flags (run_parser_at ["run"; "-ov"; "out.txt"] 2) []
      = Return (run_parser_at ["run"; "-ov"; "out.txt"] 2)
   /\ _find_short_flag (run_parser_at ["run"; "-ov"; "out.txt"] 2) "-o"
      = Some output_flag
   /\ flag_kind output_flag = valued)
  /\ _parse_short (run_parser_at ["run"; "-ov"; "out.txt"] 2) "-ov"
     = (let* st2 :=
          store_taken
            (set_idx
               (track_required (run_parser_at ["run"; "-ov"; "out.txt"] 2)
                  output_flag) 3)
            output_flag "out.txt"
            "run: invalid argument from flag '--o' -- " in
        parse_short_flags st2 ["-v"]).
Proof.
  split; [repeat split |].
  exact (cluster_valued_flag_then_rest
           (run_parser_at ["run"; "-ov"; "out.txt"] 2)
           (run_parser_at ["run"; "-ov"; "out.txt"] 2)
           "-ov" "-o" [] ["-v"] output_flag eq_refl eq_refl eq_refl eq_refl).
Defined.

(** ** Exceptions raised by conversion functions *)

Lemma startswith_one_dash (tok : string) :
  Py.startswith tok "-" = false -> Py.startswith tok "--" = false.
Proof.
  destruct tok as [|a r]; [reflexivity |]. cbn.
  destruct r; cbn; rewrite ?andb_true_r; intros ->; reflexivity.
Qed.

(** The outcome of the [try] when the conversion function raises. *)
Lemma try_convert_raise (p : converter) (v msg : string) (e : exc) :
  p v = Raise e
  -> try_convert p v msg
     = Raise (if is_interrupt (exc_cls e) || negb (is_Exception (exc_cls e))
              then e else mkExc ValueError (msg +:+ exc_str e)).
Proof.
  intros H. unfold try_convert. rewrite H.
  destruct (is_interrupt (exc_cls e)); [reflexivity |].
  destruct (is_Exception (exc_cls e)); reflexivity.
Qed.

Lemma store_taken_raise (st : _ArgParse) (flag : Flag) (p : converter)
  (v msg : string) (e : exc) :
  flag_parser flag = Some p -> p v = Raise e
  -> store_taken st flag v msg
     = Raise (if is_interrupt (exc_cls e) || negb (is_Exception (exc_cls e))
              then e else mkExc ValueError (msg +:+ exc_str e)).
Proof.
  intros Hp He. unfold store_taken.
  rewrite Hp, (try_convert_raise _ _ _ _ He). reflexivity.
Qed.

(** A turn of the loop at a conversion site whose conversion function
    raises. *)
Lemma conversion_site_raises (repr : value -> string) (st : _ArgParse)
  (tok : string) (p : converter) (v msg : string) (e : exc) :
  argv st !! idx st = Some tok
  -> conversion_site repr st tok p v msg
  -> p v = Raise e
  -> parse_token repr st
     = Raise (if is_interrupt (exc_cls e) || negb (is_Exception (exc_cls e))
              then e else mkExc ValueError (msg +:+ exc_str e)).
Proof.
  intros Htok Hsite He. unfold parse_token. rewrite Htok.
  destruct Hsite as
    [flag p name v Hs Hparts Hfind Hkind Hp
    |flag p v Hs Hparts Hfind Hkind Hp Hnext
    |pre post fname st1 flag p v Hs2 Hs1 Hnames Hpre Hfind Hkind Hp Hnext
    |param p Hs1 Hparam Hp].
  - rewrite Hs. unfold _parse_long. rewrite Hparts. simpl length.
    simpl Nat.eqb. cbv iota. simpl nth.
    change (_find_long_flag (set_idx st (idx st + 1)) name)
      with (_find_long_flag st name).
    rewrite Hfind, Hkind, Hp. simpl.
    rewrite (try_convert_raise _ _ _ _ He). reflexivity.
  - rewrite Hs.
    rewrite parse_long_valued with (flag := flag);
      [| rewrite Hparts; reflexivity | exact Hfind | exact Hkind].
    simpl idx. simpl argv. rewrite Hnext.
    apply (store_taken_raise _ _ p); assumption.
  - rewrite Hs2, Hs1. unfold _parse_short. rewrite Hnames.
    replace (length (pre ++ fname :: post) =? 0)%nat with false
      by (symmetry; apply Nat.eqb_neq; rewrite length_app; simpl; lia).
    rewrite parse_short_flags_app, Hpre. simpl.
    rewrite (parse_short_flag_valued st1 fname flag Hfind Hkind), Hnext.
    apply parse_short_flags_frame in Hpre as (_ & _ & Hc & _).
    simpl in Hc. rewrite Hc.
    rewrite (store_taken_raise _ _ _ _ _ _ Hp He). reflexivity.
  - rewrite (startswith_one_dash _ Hs1), Hs1. unfold parse_positional.
    simpl command. simpl param_idx.
    rewrite Hparam.
    replace (length (cmd_params (command st)) <=? param_idx st)%nat
      with false
      by (symmetry; apply Nat.leb_gt; eapply lookup_lt_Some; exact Hparam).
    rewrite Hp, (try_convert_raise _ _ _ _ He). reflexivity.
Qed.

(** Turns that do not raise only use up fuel. *)
Lemma reaches_loop (repr : value -> string) (st0 st : _ArgParse) :
  reaches repr st0 st
  -> forall fuel,
      (length (argv st0) - idx st0 <= fuel)%nat
      -> exists fuel',
           (length (argv st) - idx st <= fuel')%nat
           /\ parse_loop repr fuel st0 = parse_loop repr fuel' st.
Proof.
  induction 1 as [st | st st1 st2 Hlt Hstep Hreach IH]; intros fuel Hfuel.
  - exists fuel. split; [exact Hfuel | reflexivity].
  - destruct fuel as [|fuel]; [lia |].
    pose proof (parse_token_frame _ _ _ Hstep) as ((_ & Ha & _ & _) & Hi).
    destruct (IH fuel) as (fuel' & Hf' & Heq); [rewrite Ha; lia |].
    exists fuel'. split; [exact Hf' |].
    rewrite <- Heq. simpl.
    apply Nat.ltb_lt in Hlt. rewrite Hlt, Hstep. reflexivity.
Qed.

Lemma reaches_frame (repr : value -> string) (st0 st : _ArgParse) :
  reaches repr st0 st -> frame st0 st.
Proof.
  induction 1 as [st | st st1 st2 Hlt Hstep Hreach IH].
  - apply frame_refl.
  - eapply frame_trans; [| exact IH].
    apply (parse_token_frame _ _ _ Hstep).
Qed.

(** A turn that raises ends [parse_args] with that exception. *)
Lemma parse_args_raise_at (repr : value -> string) (cmds : list Command)
  (first : string) (rest : list string) (cmd : Command) (st : _ArgParse)
  (e : exc) :
  _find_command cmds first = Some cmd
  -> reaches repr (initial_parser cmds (first :: rest) cmd) st
  -> (idx st < length (argv st))%nat
  -> parse_token repr st = Raise e
  -> parse_args repr cmds (first :: rest) = Raise e.
Proof.
  intros Hfind Hreach Hlt Hraise.
  unfold parse_args, parse_args_fuel. rewrite Hfind.
  destruct (reaches_loop _ _ _ Hreach (length (first :: rest)))
    as (fuel' & Hf' & ->); [simpl; lia |].
  destruct fuel' as [|fuel']; [lia |].
  simpl. apply Nat.ltb_lt in Hlt. rewrite Hlt, Hraise. reflexivity.
Qed.

(** C5, as stated, fails: an exception of a conversion function that is
    neither a [KeyboardInterrupt] nor an [InterruptedError] is not always
    turned into a [ValueError].  A conversion function that calls
    [sys.exit(2)] raises [SystemExit], which leaves [parse_args] as it is. *)
Lemma SystemExit_not_wrapped :
  parse_args sample_repr [run_command (Some exiting_converter)] ["run"; "img"]
  = Raise (mkExc SystemExit "2")
  /\ exiting_converter "img" = Raise (mkExc SystemExit "2")
  /\ is_interrupt SystemExit = false
  /\ (forall msg,
        parse_args sample_repr [run_command (Some exiting_converter)]
          ["run"; "img"] <> raise_ValueError msg).
Proof.
  assert (H : parse_args sample_repr [run_command (Some exiting_converter)]
                ["run"; "img"] = Raise (mkExc SystemExit "2"))
    by (vm_compute; reflexivity).
  split; [exact H |]. split; [reflexivity |]. split; [reflexivity |].
  intros msg. rewrite H. discriminate.
Qed.

(** C5, amended.  When a conversion function called during parsing raises
    [e]: if [e] is a [KeyboardInterrupt] or an [InterruptedError], or is not
    an instance of [Exception] at all (a [SystemExit], a [GeneratorExit]),
    [parse_args] raises [e] itself; otherwise [parse_args] raises a
    [ValueError] whose message ends with [str(e)]. *)
Theorem conversion_exception_outcome (repr : value -> string)
  (cmds : list Command) (first : string) (rest : list string)
  (cmd : Command) (st : _ArgParse) (tok : string) (p : converter)
  (v msg : string) (e : exc) :
  _find_command cmds first = Some cmd
  -> reaches repr (initial_parser cmds (first :: rest) cmd) st
  -> argv st !! idx st = Some tok
  -> conversion_site repr st tok p v msg
  -> p v = Raise e
  -> parse_args repr cmds (first :: rest)
     = Raise (if is_interrupt (exc_cls e) || negb (is_Exception (exc_cls e))
              then e else mkExc ValueError (msg +:+ exc_str e)).
Proof.
  intros Hfind Hreach Htok Hsite He.
  eapply parse_args_raise_at; [exact Hfind | exact Hreach | |].
  - eapply lookup_lt_Some. exact Htok.
  - eapply conversion_site_raises; eassumption.
Qed.

Lemma conversion_exception_outcome_witness :
  (_find_command [run_command (Some failing_converter)] "run"
   = Some (run_command (Some failing_converter))
   /\ reaches sample_repr
        (initial_parser [run_command (Some failing_converter)]
           ["run"; "img"] (run_command (Some failing_converter)))
        (initial_parser [run_command (Some failing_converter)]
           ["run"; "img"] (run_command (Some failing_converter)))
   /\ argv (initial_parser [run_command (Some failing_converter)]
              ["run"; "img"] (run_command (Some failing_converter)))
      !! idx (initial_parser [run_command (Some failing_converter)]
                ["run"; "img"] (run_command (Some failing_converter)))
      = Some "img"
   /\ conversion_site sample_repr
        (initial_parser [run_command (Some failing_converter)]
           ["run"; "img"] (run_command (Some failing_converter)))
        "img" failing_converter "img" "run: invalid argument 'img' -- "
   /\ failing_converter "img"
      = Raise (mkExc ValueError "could not convert string to float: 'img'"))
  /\ parse_args sample_repr [run_command (Some failing_converter)]
       ["run"; "img"]
     = raise_ValueError
         "run: invalid argument 'img' -- could not convert string to float: 'img'".
Proof.
  assert (Hsite : conversion_site sample_repr
                    (initial_parser [run_command (Some failing_converter)]
                       ["run"; "img"] (run_command (Some failing_converter)))
                    "img" failing_converter "img"
                    "run: invalid argument 'img' -- ")
    by exact (site_positional sample_repr
                (initial_parser [run_command (Some failing_converter)]
                   ["run"; "img"] (run_command (Some failing_converter)))
                "img" (image_param (Some failing_converter))
                failing_converter eq_refl eq_refl eq_refl).
  split.
  - split; [reflexivity |]. split; [constructor |].
    split; [reflexivity |]. split; [exact Hsite | reflexivity].
  - exact (conversion_exception_outcome sample_repr
             [run_command (Some failing_converter)] "run" ["img"]
             (run_command (Some failing_converter))
             (initial_parser [run_command (Some failing_converter)]
                ["run"; "img"] (run_command (Some failing_converter)))
             "img" failing_converter "img" _ _
             eq_refl (reaches_here _ _) eq_refl Hsite eq_refl).
Defined.

(** ** Failing parses *)

(** The stages of [parse_args]. *)
Lemma parse_args_stages (repr : value -> string) (cmds : list Command)
  (args : list string) :
  match args with
  | [] => parse_args repr cmds args = raise_ValueError "no command specified"
  | first :: _ =>
      match _find_command cmds first with
      | None =>
          parse_args repr cmds args
          = raise_ValueError ("unknown command: " +:+ repr (VStr first))
      | Some cmd =>
          exists r,
            parse_loop repr (length args) (initial_parser cmds args cmd)
            = Some r
            /\ parse_args repr cmds args
               = (let* parser := r in finish repr cmd parser)
      end
  end.
Proof.
  pose proof (parse_args_fuel_enough repr cmds args) as H.
  unfold parse_args_fuel in H.
  destruct args as [|first rest]; [congruence |].
  destruct (_find_command cmds first) as [cmd|]; [| congruence].
  destruct (parse_loop _ _ _) as [r|]; [| discriminate].
  exists r. split; [reflexivity |].
  destruct r; simpl; congruence.
Qed.

(** ** The names of a constructed command are distinct *)

Lemma existsb_flag_name (flags : list Flag) (n : string) :
  existsb (fun flag => String.eqb (flag_name flag) n) flags = false
  -> ~ In n (map flag_name flags).
Proof.
  intros H Hin. apply in_map_iff in Hin as (f & Hf & Hin).
  apply not_true_iff_false in H. apply H.
  apply existsb_exists. exists f. split; [exact Hin |].
  apply String.eqb_eq. exact Hf.
Qed.

Lemma existsb_param_name (params : list Param) (n : string) :
  existsb (fun param => String.eqb (param_name param) n) params = false
  -> ~ In n (map param_name params).
Proof.
  intros H Hin. apply in_map_iff in Hin as (q & Hq & Hin).
  apply not_true_iff_false in H. apply H.
  apply existsb_exists. exists q. split; [exact Hin |].
  apply String.eqb_eq. exact Hq.
Qed.

Lemma NoDup_insert_middle (l k : list string) (x : string) :
  NoDup (l ++ k) -> ~ In x l -> ~ In x k -> NoDup ((l ++ [x]) ++ k).
Proof.
  intros Hnd Hl Hk. rewrite <- app_assoc. simpl.
  apply NoDup_app in Hnd as (Hl' & Hdis & Hk').
  apply NoDup_app. split; [exact Hl' |]. split.
  - intros y Hy Hin. apply elem_of_cons in Hin as [-> | Hin].
    + apply Hl. apply list_elem_of_In. exact Hy.
    + exact (Hdis y Hy Hin).
  - apply NoDup_cons. split; [| exact Hk'].
    intros Hin. apply Hk. apply list_elem_of_In. exact Hin.
Qed.

Lemma NoDup_insert_end (l k : list string) (x : string) :
  NoDup (l ++ k) -> ~ In x l -> ~ In x k -> NoDup (l ++ (k ++ [x])).
Proof.
  intros Hnd Hl Hk. rewrite app_assoc.
  apply NoDup_app. split; [exact Hnd |]. split.
  - intros y Hy Hin. apply list_elem_of_singleton in Hin as ->.
    apply elem_of_app in Hy as [Hy | Hy];
      apply list_elem_of_In in Hy; contradiction.
  - apply NoDup_singleton.
Qed.

(** Every builder call keeps the declared names distinct. *)
Lemma after_call_NoDup (repr : value -> string) (self : Command)
  (call : builder_call) :
  NoDup (declared_names self)
  -> NoDup (declared_names (after_call repr self call)).
Proof.
  intros Hnd. unfold after_call, apply_call.
  destruct call as [s | l | arg].
  - unfold Command_short.
    repeat (match goal with |- context [if ?b then _ else _] =>
              destruct b end; simpl; try exact Hnd).
  - unfold Command_long.
    destruct (negb _); simpl; exact Hnd.
  - unfold Command_arg.
    destruct (existsb _ (cmd_flags self)) eqn:Hf; [exact Hnd |].
    destruct (existsb _ (cmd_params self)) eqn:Hp; [exact Hnd |].
    apply existsb_flag_name in Hf. apply existsb_param_name in Hp.
    destruct arg as [flag | param]; simpl in Hf, Hp.
    + destruct (_ =? 0)%nat; simpl; [exact Hnd |].
      unfold declared_names. simpl. rewrite map_app. simpl.
      apply NoDup_insert_middle; assumption.
    + destruct (negb (Param_is_optional param) && _ && _); simpl;
        [exact Hnd |].
      unfold declared_names. simpl. rewrite map_app. simpl.
      apply NoDup_insert_end; assumption.
Qed.

(** No builder call on a flag or on a parameter changes its name. *)
Lemma after_flag_call_name (f : Flag) (c : flag_call) :
  flag_name (after_flag_call f c) = flag_name f.
Proof.
  unfold after_flag_call, apply_flag_call.
  destruct c; try reflexivity.
  - unfold Flag_short.
    repeat (match goal with |- context [if ?b then _ else _] =>
              destruct b end; simpl; try reflexivity).
  - unfold Flag_long.
    repeat (match goal with |- context [if ?b then _ else _] =>
              destruct b end; simpl; try reflexivity).
  - unfold Flag_parser. destruct (negb _); reflexivity.
Qed.

Lemma after_param_call_name (p : Param) (c : param_call) :
  param_name (after_param_call p c) = param_name p.
Proof. destruct c; reflexivity. Qed.

Lemma map_alter_same {A B : Type} (g : A -> B) (f : A -> A) (i : nat)
  (l : list A) :
  (forall x, g (f x) = g x) -> map g (alter f i l) = map g l.
Proof.
  intros H. revert i.
  induction l as [|x rest IH]; intros i; [reflexivity |].
  destruct i as [|i]; simpl.
  - rewrite H. reflexivity.
  - f_equal. apply IH.
Qed.

(** A call on an item already added leaves the declared names as they
    are. *)
Lemma after_script_call_names (repr : value -> string) (self : Command)
  (call : script_call) :
  declared_names (after_script_call repr self call)
  = match call with
    | OnCommand c => declared_names (after_call repr self c)
    | _ => declared_names self
    end.
Proof.
  destruct call as [c | i c | i c]; [reflexivity | |];
    unfold declared_names; simpl; f_equal; apply map_alter_same; intros x.
  - apply after_param_call_name.
  - apply after_flag_call_name.
Qed.

Lemma constructed_NoDup (repr : value -> string) (cmd : Command) :
  constructed repr cmd -> NoDup (declared_names cmd).
Proof.
  intros (name & description & cmd0 & calls & Hinit & ->).
  assert (H0 : NoDup (declared_names cmd0)).
  { apply Command_init_params in Hinit as [Hp Hf].
    unfold declared_names. rewrite Hp, Hf. constructor. }
  clear Hinit. unfold run_script. revert cmd0 H0.
  induction calls as [|call rest IH]; intros cmd0 H0; [exact H0 |].
  simpl. apply IH. rewrite after_script_call_names.
  destruct call; [apply after_call_NoDup |  |]; exact H0.
Qed.

(** ** What the scanning loop maintains *)

Lemma find_long_flag_in_In (flags : list Flag) (val : string) (flag : Flag) :
  find_long_flag_in flags val = Some flag -> In flag flags.
Proof.
  induction flags as [|f rest IH]; [discriminate |]. simpl.
  destruct (existsb _ (flag_long f)).
  - intros H. injection H as <-. left. reflexivity.
  - intros H. right. apply IH. exact H.
Qed.

Lemma find_short_flag_in_In (flags : list Flag) (fname : string)
  (flag : Flag) :
  find_short_flag_in flags fname = Some flag -> In flag flags.
Proof.
  induction flags as [|f rest IH]; [discriminate |]. simpl.
  destruct (existsb _ (flag_short f)).
  - intros H. injection H as <-. left. reflexivity.
  - intros H. right. apply IH. exact H.
Qed.

Lemma append_value_insert (vs vs' : gmap string value) (name : string)
  (v : value) :
  append_value vs name v = Return vs' -> exists w, vs' = <[name := w]> vs.
Proof.
  unfold append_value, list_append. intros H.
  destruct (hasattr vs name).
  - destruct (getattr vs name) as [[]|]; simpl in H; try discriminate.
    injection H as <-. eexists; reflexivity.
  - apply setattr_Return in H as ->. eexists; reflexivity.
Qed.

Lemma bump_count_insert (vs vs' : gmap string value) (name : string) :
  bump_count vs name = Return vs' -> exists w, vs' = <[name := w]> vs.
Proof.
  unfold bump_count. intros H.
  destruct (add_one _); simpl in H; [| discriminate].
  apply setattr_Return in H as ->. eexists; reflexivity.
Qed.

Lemma track_required_effect (st : _ArgParse) (flag : Flag) :
  command (track_required st flag) = command st
  /\ param_idx (track_required st flag) = param_idx st
  /\ values (track_required st flag) = values st
  /\ (forall n, n ∈ required_flags st
                -> n ∈ required_flags (track_required st flag)
                   \/ n = flag_name flag).
Proof.
  unfold track_required. destruct (bool_decide _); simpl.
  - repeat split. intros n Hn.
    destruct (decide (n = flag_name flag)) as [-> | Hne];
      [right; reflexivity |].
    left. set_solver.
  - repeat split. intros n Hn. left. exact Hn.
Qed.

Lemma parse_long_effect (st st' : _ArgParse) (arg_value : string) :
  _parse_long st arg_value = Return st' -> flag_effect st st'.
Proof.
  unfold _parse_long, _find_long_flag. intros H.
  destruct (find_long_flag_in _ _) as [flag|] eqn:Hfind; [| discriminate].
  apply find_long_flag_in_In in Hfind.
  destruct (track_required_effect st flag) as (Hc & Hp & Hv & Hr).
  revert H Hc Hp Hv Hr. generalize (track_required st flag).
  intros st1 H Hc Hp Hv Hr. unfold flag_effect.
  crack;
    repeat match goal with
      | H : append_value _ _ _ = Return _ |- _ =>
          apply append_value_insert in H as [? ->]
      | H : bump_count _ _ = Return _ |- _ =>
          apply bump_count_insert in H as [? ->]
      | H : setattr _ _ _ = Return _ |- _ =>
          apply setattr_Return in H as ->
      end;
    exists flag; eexists; simpl; rewrite ?Hv;
    (split; [exact Hfind |]); (split; [exact Hc |]);
    (split; [exact Hp |]); (split; [reflexivity | exact Hr]).
Qed.

Lemma parse_short_flag_effect (st st' : _ArgParse) (fname : string) :
  parse_short_flag st fname = Return st' -> flag_effect st st'.
Proof.
  unfold parse_short_flag, _find_short_flag. intros H.
  destruct (find_short_flag_in _ _) as [flag|] eqn:Hfind; [| discriminate].
  apply find_short_flag_in_In in Hfind.
  destruct (track_required_effect st flag) as (Hc & Hp & Hv & Hr).
  revert H Hc Hp Hv Hr. generalize (track_required st flag).
  intros st1 H Hc Hp Hv Hr. unfold flag_effect.
  crack;
    repeat match goal with
      | H : append_value _ _ _ = Return _ |- _ =>
          apply append_value_insert in H as [? ->]
      | H : bump_count _ _ = Return _ |- _ =>
          apply bump_count_insert in H as [? ->]
      | H : setattr _ _ _ = Return _ |- _ =>
          apply setattr_Return in H as ->
      end;
    exists flag; eexists; simpl; rewrite ?Hv;
    (split; [exact Hfind |]); (split; [exact Hc |]);
    (split; [exact Hp |]); (split; [reflexivity | exact Hr]).
Qed.

Lemma declared_flag_name (cmd : Command) (flag : Flag) :
  In flag (cmd_flags cmd) -> In (flag_name flag) (declared_names cmd).
Proof.
  intros H. unfold declared_names. apply in_or_app. left.
  apply in_map. exact H.
Qed.

Lemma declared_param_name (cmd : Command) (param : Param) :
  In param (cmd_params cmd) -> In (param_name param) (declared_names cmd).
Proof.
  intros H. unfold declared_names. apply in_or_app. right.
  apply in_map. exact H.
Qed.

Lemma is_Some_insert (vs : gmap string value) (n m : string) (w : value) :
  is_Some (<[n := w]> vs !! m) <-> m = n \/ is_Some (vs !! m).
Proof.
  destruct (decide (n = m)) as [-> | Hne].
  - rewrite lookup_insert_eq. split; [left; reflexivity | eauto].
  - rewrite lookup_insert_ne by exact Hne. split; [right; assumption |].
    intros [-> | H]; [contradiction | exact H].
Qed.

(** Processing a flag keeps the invariant. *)
Lemma scan_inv_flag_effect (cmd : Command) (st st' : _ArgParse) :
  scan_inv cmd st -> flag_effect st st' -> scan_inv cmd st'.
Proof.
  intros (Hcmd & Hdom & Hreq & Hpar)
    (flag & w & Hin & Hc & Hp & Hv & Hr).
  rewrite Hcmd in Hin.
  unfold scan_inv. rewrite Hv, Hp.
  split; [congruence |]. split; [| split].
  - intros n Hn. apply is_Some_insert in Hn as [-> | Hn].
    + apply declared_flag_name. exact Hin.
    + apply Hdom. exact Hn.
  - intros f Hf Hfr. rewrite is_Some_insert.
    destruct (Hreq f Hf Hfr) as [Hmem | Hs]; [| right; right; exact Hs].
    destruct (Hr _ Hmem) as [Hmem' | Heq]; [left; exact Hmem' |].
    right. left. exact Heq.
  - intros i q Hq Hi. rewrite is_Some_insert. right. eapply Hpar; eassumption.
Qed.

Lemma scan_inv_set_idx (cmd : Command) (st : _ArgParse) (i : nat) :
  scan_inv cmd st -> scan_inv cmd (set_idx st i).
Proof. intros H. exact H. Qed.

Lemma scan_inv_short_flags (cmd : Command) (names : list string)
  (st st' : _ArgParse) :
  scan_inv cmd st -> parse_short_flags st names = Return st'
  -> scan_inv cmd st'.
Proof.
  revert st. induction names as [|n rest IH]; intros st Hinv H; simpl in H.
  - injection H as <-. exact Hinv.
  - destruct (parse_short_flag st n) as [st1|e] eqn:H1; [| discriminate].
    simpl in H. apply (IH st1); [| exact H].
    eapply scan_inv_flag_effect; [exact Hinv |].
    eapply parse_short_flag_effect. exact H1.
Qed.

(** What a positional token does when it raises nothing: the parameter at
    the positional index gets the converted token, and the index moves
    on. *)
Lemma parse_positional_Return (repr : value -> string) (st st' : _ArgParse)
  (arg_value : string) :
  parse_positional repr st arg_value = Return st'
  -> exists param w,
       cmd_params (command st) !! param_idx st = Some param
       /\ match param_parser param with
          | Some p =>
              try_convert p arg_value
                (Command_name (command st) +:+ ": invalid argument "
                 +:+ repr (VStr arg_value) +:+ " -- ") = Return w
          | None => w = VStr arg_value
          end
       /\ setattr (values st) (param_name param) w
          = Return (<[param_name param := w]> (values st))
       /\ st' = set_values (set_param_idx st (param_idx st + 1))
                  (<[param_name param := w]> (values st)).
Proof.
  unfold parse_positional. intros H.
  destruct (length (cmd_params (command st)) <=? param_idx st)%nat;
    [discriminate |].
  destruct (cmd_params (command st) !! param_idx st) as [param|] eqn:Hparam;
    [| discriminate].
  exists param.
  destruct (param_parser param) as [value_parser|]; simpl in H.
  - destruct (try_convert _ _ _) as [w|e]; simpl in H; [| discriminate].
    destruct (setattr _ _ _) as [vs|e] eqn:Hs; simpl in H; [| discriminate].
    pose proof (setattr_Return _ _ _ _ Hs) as ->.
    injection H as <-. exists w. auto.
  - destruct (setattr _ _ _) as [vs|e] eqn:Hs; simpl in H; [| discriminate].
    pose proof (setattr_Return _ _ _ _ Hs) as ->.
    injection H as <-. eexists. auto.
Qed.

(** A positional token keeps the invariant. *)
Lemma scan_inv_positional (repr : value -> string) (cmd : Command)
  (st st' : _ArgParse) (arg_value : string) :
  scan_inv cmd st -> parse_positional repr st arg_value = Return st'
  -> scan_inv cmd st'.
Proof.
  intros (Hcmd & Hdom & Hreq & Hpar) H.
  apply parse_positional_Return in H as (param & w & Hparam & _ & _ & ->).
  rewrite Hcmd in Hparam. unfold scan_inv. simpl.
  split; [exact Hcmd |]. split; [| split].
  - intros n Hn. apply is_Some_insert in Hn as [-> | Hn].
    + apply declared_param_name. apply list_elem_of_In.
      eapply list_elem_of_lookup_2. exact Hparam.
    + apply Hdom. exact Hn.
  - intros f Hf Hfr. rewrite is_Some_insert.
    destruct (Hreq f Hf Hfr) as [Hmem | Hs]; [left; exact Hmem |].
    right. right. exact Hs.
  - intros i q Hq Hi. rewrite is_Some_insert.
    destruct (decide (i = param_idx st)) as [-> | Hne].
    + left. congruence.
    + right. apply (Hpar i q Hq). lia.
Qed.

(** A turn of the loop keeps the invariant. *)
Lemma scan_inv_token (repr : value -> string) (cmd : Command)
  (st st' : _ArgParse) :
  scan_inv cmd st -> parse_token repr st = Return st' -> scan_inv cmd st'.
Proof.
  intros Hinv H. unfold parse_token in H.
  destruct (argv st !! idx st) as [arg_value|]; [| discriminate].
  apply (scan_inv_set_idx cmd st (idx st + 1)) in Hinv.
  destruct (Py.startswith arg_value "--").
  - eapply scan_inv_flag_effect; [exact Hinv |].
    eapply parse_long_effect. exact H.
  - destruct (Py.startswith arg_value "-").
    + unfold _parse_short in H.
      destruct (_ =? 0)%nat; [discriminate |].
      eapply scan_inv_short_flags; [exact Hinv | exact H].
    + eapply scan_inv_positional; [exact Hinv | exact H].
Qed.

(** The loop keeps the invariant. *)
Lemma scan_inv_loop (repr : value -> string) (cmd : Command) (fuel : nat)
  (st st' : _ArgParse) :
  scan_inv cmd st -> parse_loop repr fuel st = Some (Return st')
  -> scan_inv cmd st'.
Proof.
  revert st. induction fuel as [|fuel IH]; intros st Hinv H; simpl in H.
  - destruct (idx st <? length (argv st))%nat; [discriminate |].
    injection H as <-. exact Hinv.
  - destruct (idx st <? length (argv st))%nat.
    + destruct (parse_token repr st) as [st1|e] eqn:Ht; [| discriminate].
      apply (IH st1); [| exact H].
      eapply scan_inv_token; [exact Hinv | exact Ht].
    + injection H as <-. exact Hinv.
Qed.

Lemma seed_required_fold (flags : list Flag) (acc : gset string)
  (n : string) :
  n ∈ acc
  \/ (exists f, In f flags /\ Flag_is_required f = true /\ flag_name f = n)
  -> n ∈ fold_left
           (fun acc flag =>
              if Flag_is_required flag then acc ∪ {[flag_name flag]} else acc)
           flags acc.
Proof.
  revert acc. induction flags as [|g rest IH]; intros acc H; simpl.
  - destruct H as [H | (f & [] & _)]. exact H.
  - apply IH. destruct H as [H | (f & [-> | Hin] & Hr & Hn)].
    + left. destruct (Flag_is_required g); set_solver.
    + left. rewrite Hr. set_solver.
    + right. exists f. auto.
Qed.

(** The invariant holds when the loop starts. *)
Lemma scan_inv_initial (cmds : list Command) (args : list string)
  (cmd : Command) :
  scan_inv cmd (initial_parser cmds args cmd).
Proof.
  unfold scan_inv, initial_parser. simpl.
  split; [reflexivity |]. split; [| split].
  - intros n [v Hv]. rewrite lookup_empty in Hv. discriminate.
  - intros f Hf Hr. left. apply seed_required_fold. right.
    exists f. auto.
  - intros i q _ Hi. lia.
Qed.

(** ** The defaults *)

Section Fill.

Context {A : Type} (name : A -> string) (optional : A -> bool)
  (dflt : A -> value).

(** An entry that is there stays as it is. *)
Lemma fill_keeps (items : list A) (vs : gmap string value) (n : string)
  (v : value) :
  vs !! n = Some v -> fill_defaults name optional dflt items vs !! n = Some v.
Proof.
  unfold fill_defaults. revert vs.
  induction items as [|x rest IH]; intros vs H; simpl; [exact H |].
  apply IH. destruct (optional x); [| exact H].
  destruct (hasattr vs (name x)) eqn:Hh; simpl; [exact H |].
  apply hasattr_false_inv in Hh as (Hh & _).
  rewrite lookup_insert_ne; [exact H | congruence].
Qed.

(** Entries come from the map given or from an optional item. *)
Lemma fill_dom (items : list A) (vs : gmap string value) (n : string) :
  is_Some (fill_defaults name optional dflt items vs !! n)
  -> is_Some (vs !! n)
     \/ exists x, In x items /\ optional x = true /\ name x = n.
Proof.
  unfold fill_defaults. revert vs.
  induction items as [|x rest IH]; intros vs H; simpl in H; [left; exact H |].
  apply IH in H as [H | (y & Hy & Ho & Hn)];
    [| right; exists y; simpl; auto].
  destruct (optional x) eqn:Ho; [| left; exact H].
  destruct (negb (hasattr vs (name x))); [| left; exact H].
  apply is_Some_insert in H as [-> | H]; [| left; exact H].
  right. exists x. simpl. auto.
Qed.

(** Every optional item with an ordinary name has an entry afterwards. *)
Lemma fill_optional (items : list A) (vs : gmap string value) (x : A) :
  ordinary (name x) -> In x items -> optional x = true
  -> is_Some (fill_defaults name optional dflt items vs !! name x).
Proof.
  intros Hord. unfold fill_defaults. revert vs.
  induction items as [|y rest IH]; intros vs Hin Ho; [contradiction |].
  simpl. destruct Hin as [-> | Hin]; [| apply IH; assumption].
  rewrite Ho.
  destruct (hasattr vs (name x)) eqn:Hh; simpl.
  - rewrite (ordinary_hasattr vs _ Hord) in Hh.
    apply bool_decide_eq_true in Hh as [v Hv].
    exists v. apply fill_keeps. exact Hv.
  - exists (dflt x). apply fill_keeps. apply lookup_insert_eq.
Qed.

(** An optional item with an ordinary name and without an entry gets its
    declared default, when the names of the items are distinct. *)
Lemma fill_default (items : list A) (vs : gmap string value) (x : A) :
  ordinary (name x)
  -> NoDup (map name items)
  -> In x items -> optional x = true -> vs !! name x = None
  -> fill_defaults name optional dflt items vs !! name x = Some (dflt x).
Proof.
  intros Hord. unfold fill_defaults. revert vs.
  induction items as [|y rest IH]; intros vs Hnd Hin Ho Hv; [contradiction |].
  simpl in Hnd. apply NoDup_cons in Hnd as [Hy Hnd].
  simpl. destruct Hin as [-> | Hin].
  - rewrite Ho. rewrite (ordinary_hasattr_false vs _ Hord Hv). simpl.
    apply fill_keeps. apply lookup_insert_eq.
  - apply IH; [exact Hnd | exact Hin | exact Ho |].
    assert (Hne : name y <> name x).
    { intros Heq. apply Hy. rewrite Heq. apply list_elem_of_In.
      apply in_map. exact Hin. }
    destruct (optional y); [| exact Hv].
    destruct (negb (hasattr vs (name y))); [| exact Hv].
    rewrite lookup_insert_ne; [exact Hv | exact Hne].
Qed.

End Fill.

(** What a successful [finish] went through. *)
Lemma finish_Return (repr : value -> string) (cmd : Command)
  (st : _ArgParse) (a : Args) :
  finish repr cmd st = Return a
  -> missing_positional st = None
     /\ required_flags st = ∅
     /\ a = mkArgs (Command_name cmd)
              (fill_defaults flag_name Flag_is_optional flag_default
                 (cmd_flags cmd)
                 (fill_defaults param_name Param_is_optional param_default
                    (cmd_params cmd) (values st))).
Proof.
  unfold finish.
  destruct (missing_positional st); [discriminate |].
  destruct (0 <? size (required_flags st))%nat eqn:Hs; [discriminate |].
  rewrite finish_defaults. intros H. injection H as <-.
  split; [reflexivity |]. split; [| reflexivity].
  apply Nat.ltb_ge in Hs. apply leibniz_equiv, size_empty_inv. lia.
Qed.

(** ** The result of a successful parse *)

(** After a successful parse every required parameter lies before the
    positional index. *)
Lemma required_param_consumed (cmd : Command) (st : _ArgParse) (i : nat)
  (p : Param) :
  command st = cmd
  -> required_first (cmd_params cmd) = true
  -> missing_positional st = None
  -> cmd_params cmd !! i = Some p
  -> Param_is_optional p = false
  -> (i < param_idx st)%nat.
Proof.
  intros Hcmd Hrf Hmiss Hi Hp. unfold missing_positional in Hmiss.
  rewrite Hcmd in Hmiss.
  destruct (cmd_params cmd !! param_idx st) as [q|] eqn:Hq.
  - destruct (Param_is_optional q) eqn:Ho; [| discriminate].
    eapply required_first_lookup; eassumption.
  - apply lookup_ge_None in Hq. apply lookup_lt_Some in Hi. lia.
Qed.

Lemma run_command_constructed :
  constructed sample_repr (run_command None).
Proof.
  exists "run", None,
    {| cmd_name := "run"; cmd_description := None; cmd_short := [];
       cmd_long := []; cmd_disable_name := false; cmd_flags := [];
       cmd_params := [] |},
    (map OnCommand (run_calls_script None)).
  split; reflexivity.
Qed.

Lemma run_command_ordinary (parser : option converter) :
  ordinary_names (run_command parser).
Proof. repeat constructor. Qed.

(** * Further properties of the code *)

(** ** Builders: the shape of aliases and names *)

Lemma short_alias_shape (s : string) :
  Py.startswith s "--" = false /\ Py.startswith s "-" = true
  /\ (Py.len s =? 2)%nat = true
  <-> exists ch, ch <> "-"%char /\ s = String "-" (String ch "").
Proof.
  split.
  - intros (H2 & H1 & Hl).
    destruct s as [|a [|b [|c r]]]; cbn in *; try discriminate.
    rewrite andb_true_r in H1. apply Ascii.eqb_eq in H1. subst a.
    rewrite Ascii.eqb_refl, andb_true_r in H2. simpl in H2.
    apply Ascii.eqb_neq in H2. exists b. split; [exact H2 | reflexivity].
  - intros (ch & Hne & ->). cbn.
    apply Ascii.eqb_neq in Hne. rewrite Hne. auto.
Qed.

Lemma long_alias_shape (s : string) :
  Py.startswith s "--" = true /\ (Py.len s =? 2)%nat = false
  <-> exists a r, s = String "-" (String "-" (String a r)).
Proof.
  split.
  - intros (H2 & Hl).
    destruct s as [|a [|b [|c r]]]; cbn in *; try discriminate.
    + rewrite andb_false_r in H2. discriminate.
    + apply andb_true_iff in H2 as [Ha Hb].
      rewrite andb_true_r in Hb.
      apply Ascii.eqb_eq in Ha, Hb. subst. eauto.
  - intros (a & r & ->). cbn. auto.
Qed.

(** X1. [.short(s)], on a command and on a flag, succeeds exactly when the
    trimmed [s] is a dash followed by one character other than a dash; it
    then appends the trimmed [s] to the short aliases and changes nothing
    else; otherwise it raises a [ValueError]. *)
Theorem short_alias_accepted :
  (forall (self : Command) (s : string),
      match Command_short self s with
      | Return self' =>
          (exists ch, ch <> "-"%char
                      /\ Py.strip s = String "-" (String ch ""))
          /\ self' = {| cmd_name := cmd_name self;
                       cmd_description := cmd_description self;
                       cmd_short := cmd_short self ++ [Py.strip s];
                       cmd_long := cmd_long self;
                       cmd_disable_name := cmd_disable_name self;
                       cmd_flags := cmd_flags self;
                       cmd_params := cmd_params self |}
      | Raise e =>
          exc_cls e = ValueError
          /\ ~ (exists ch, ch <> "-"%char
                           /\ Py.strip s = String "-" (String ch ""))
      end)
  /\ (forall (self : Flag) (s : string),
         match Flag_short self s with
         | Return self' =>
             (exists ch, ch <> "-"%char
                         /\ Py.strip s = String "-" (String ch ""))
             /\ self' = {| flag_name := flag_name self;
                          flag_description := flag_description self;
                          flag_required := flag_required self;
                          flag_short := flag_short self ++ [Py.strip s];
                          flag_long := flag_long self;
                          flag_parser := flag_parser self;
                          flag_kind := flag_kind self;
                          flag_default := flag_default self |}
         | Raise e =>
             exc_cls e = ValueError
             /\ ~ (exists ch, ch <> "-"%char
                              /\ Py.strip s = String "-" (String ch ""))
         end).
Proof.
  split; intros self s; [unfold Command_short | unfold Flag_short];
    pose proof (short_alias_shape (Py.strip s)) as Hshape;
    destruct (Py.startswith (Py.strip s) "--");
    simpl; try (split; [reflexivity | intros H; apply Hshape in H;
                                      destruct H as (? & _); discriminate]);
    destruct (Py.startswith (Py.strip s) "-");
    simpl; try (split; [reflexivity | intros H; apply Hshape in H;
                                      destruct H as (_ & ? & _); discriminate]);
    destruct (Py.len (Py.strip s) =? 2)%nat;
    simpl; try (split; [reflexivity | intros H; apply Hshape in H;
                                      destruct H as (_ & _ & ?); discriminate]);
    (split; [apply Hshape; auto | reflexivity]).
Qed.

(** X2. [Flag.long(l)] succeeds exactly when the trimmed [l] is two dashes
    followed by at least one character; it then appends the trimmed [l] to
    the long aliases and changes nothing else; otherwise it raises a
    [ValueError]. *)
Theorem Flag_long_accepted (self : Flag) (l : string) :
  match Flag_long self l with
  | Return self' =>
      (exists a r, Py.strip l = String "-" (String "-" (String a r)))
      /\ self' = {| flag_name := flag_name self;
                   flag_description := flag_description self;
                   flag_required := flag_required self;
                   flag_short := flag_short self;
                   flag_long := flag_long self ++ [Py.strip l];
                   flag_parser := flag_parser self;
                   flag_kind := flag_kind self;
                   flag_default := flag_default self |}
  | Raise e =>
      exc_cls e = ValueError
      /\ ~ (exists a r, Py.strip l = String "-" (String "-" (String a r)))
  end.
Proof.
  unfold Flag_long.
  pose proof (long_alias_shape (Py.strip l)) as Hshape.
  destruct (Py.startswith (Py.strip l) "--"); simpl.
  - destruct (Py.len (Py.strip l) =? 2)%nat; simpl.
    + split; [reflexivity |]. intros H. apply Hshape in H as [_ H].
      discriminate.
    + split; [apply Hshape; auto | reflexivity].
  - split; [reflexivity |]. intros H. apply Hshape in H as [H _].
    discriminate.
Qed.

(** ** Builders: names are stored trimmed *)

Lemma rstrip_idempotent (s : string) : Py.rstrip (Py.rstrip s) = Py.rstrip s.
Proof.
  induction s as [|c r IH]; [reflexivity |]. simpl.
  destruct (Py.rstrip r) as [|c' r'] eqn:Hr.
  - destruct (Py.isspace c) eqn:Hc; simpl; [reflexivity |].
    rewrite Hc. reflexivity.
  - simpl. simpl in IH. rewrite IH. reflexivity.
Qed.

Lemma rstrip_head (c : ascii) (r : string) :
  Py.isspace c = false -> exists r', Py.rstrip (String c r) = String c r'.
Proof.
  intros Hc. simpl. destruct (Py.rstrip r); [rewrite Hc |]; eauto.
Qed.

Lemma lstrip_head (s : string) :
  Py.lstrip s = ""
  \/ exists c r, Py.lstrip s = String c r /\ Py.isspace c = false.
Proof.
  induction s as [|c r IH]; [left; reflexivity |]. simpl.
  destruct (Py.isspace c) eqn:Hc; [exact IH |].
  right. exists c, r. auto.
Qed.

(** Trimming twice is trimming once. *)
Lemma strip_idempotent (s : string) : Py.strip (Py.strip s) = Py.strip s.
Proof.
  unfold Py.strip.
  destruct (lstrip_head s) as [-> | (c & r & -> & Hc)]; [reflexivity |].
  destruct (rstrip_head c r Hc) as [r' Hr']. rewrite Hr'.
  simpl Py.lstrip. rewrite Hc. rewrite <- Hr'. apply rstrip_idempotent.
Qed.

(** X3. [Flag(name, description)] and [Param(name, description)] raise a
    [ValueError] exactly when the name is blank; otherwise the stored name
    is the trimmed one: not empty and without blanks around it.  A new flag
    is optional, of presence kind, without alias, conversion function or
    default; a new parameter is required, without conversion function or
    default. *)
Theorem init_stores_trimmed_name (name : string)
  (description : option string) :
  match Flag_init name description with
  | Return f =>
      Py.strip name <> ""
      /\ flag_name f = Py.strip name
      /\ Py.strip (flag_name f) = flag_name f
      /\ f = {| flag_name := Py.strip name;
               flag_description := description; flag_required := false;
               flag_short := []; flag_long := []; flag_parser := None;
               flag_kind := present; flag_default := VNone |}
  | Raise e => Py.strip name = "" /\ exc_cls e = ValueError
  end
  /\ match Param_init name description with
     | Return p =>
         Py.strip name <> ""
         /\ param_name p = Py.strip name
         /\ Py.strip (param_name p) = param_name p
         /\ p = {| param_name := Py.strip name;
                  param_description := description; param_required := true;
                  param_parser := None; param_default := VNone |}
     | Raise e => Py.strip name = "" /\ exc_cls e = ValueError
     end.
Proof.
  unfold Flag_init, Param_init.
  destruct (String.eqb (Py.strip name) "") eqn:He.
  - apply String.eqb_eq in He. repeat split; assumption.
  - apply String.eqb_neq in He.
    repeat split; try assumption; simpl; apply strip_idempotent.
Qed.

(** ** Builders: [Command.arg] and scripts of calls *)

Lemma existsb_flag_name_true (flags : list Flag) (n : string) :
  existsb (fun flag => String.eqb (flag_name flag) n) flags = true
  -> In n (map flag_name flags).
Proof.
  intros H. apply existsb_exists in H as (f & Hf & He).
  apply String.eqb_eq in He. subst. apply in_map. exact Hf.
Qed.

Lemma existsb_param_name_true (params : list Param) (n : string) :
  existsb (fun param => String.eqb (param_name param) n) params = true
  -> In n (map param_name params).
Proof.
  intros H. apply existsb_exists in H as (q & Hq & He).
  apply String.eqb_eq in He. subst. apply in_map. exact Hq.
Qed.

(** X4. [Command.arg] succeeds exactly when the name of the item is not yet
    declared on the command and, for a flag, the flag has an alias, for a
    parameter, the parameter is optional or the last parameter so far is
    not; it then appends the item after the items of its sort and changes
    nothing else.  Otherwise it raises a [ValueError]. *)
Theorem Command_arg_outcome (repr : value -> string) (self : Command)
  (arg : item) :
  match Command_arg repr self arg with
  | Return self' =>
      ~ In (item_name arg) (declared_names self)
      /\ match arg with
         | IFlag f =>
             (flag_short f <> [] \/ flag_long f <> [])
             /\ self' = {| cmd_name := cmd_name self;
                          cmd_description := cmd_description self;
                          cmd_short := cmd_short self;
                          cmd_long := cmd_long self;
                          cmd_disable_name := cmd_disable_name self;
                          cmd_flags := cmd_flags self ++ [f];
                          cmd_params := cmd_params self |}
         | IParam p =>
             (Param_is_optional p = true
              \/ last_param_optional (cmd_params self) = false)
             /\ self' = {| cmd_name := cmd_name self;
                          cmd_description := cmd_description self;
                          cmd_short := cmd_short self;
                          cmd_long := cmd_long self;
                          cmd_disable_name := cmd_disable_name self;
                          cmd_flags := cmd_flags self;
                          cmd_params := cmd_params self ++ [p] |}
         end
  | Raise e =>
      exc_cls e = ValueError
      /\ (In (item_name arg) (declared_names self)
          \/ match arg with
             | IFlag f => flag_short f = [] /\ flag_long f = []
             | IParam p =>
                 Param_is_optional p = false
                 /\ last_param_optional (cmd_params self) = true
             end)
  end.
Proof.
  unfold Command_arg, declared_names.
  destruct (existsb _ (cmd_flags self)) eqn:Hf.
  { split; [reflexivity |]. left. apply in_or_app. left.
    apply existsb_flag_name_true. exact Hf. }
  destruct (existsb _ (cmd_params self)) eqn:Hp.
  { split; [reflexivity |]. left. apply in_or_app. right.
    apply existsb_param_name_true. exact Hp. }
  apply existsb_flag_name in Hf. apply existsb_param_name in Hp.
  assert (Hnew : ~ In (item_name arg)
                   (map flag_name (cmd_flags self)
                    ++ map param_name (cmd_params self))).
  { intros H. apply in_app_or in H. tauto. }
  destruct arg as [f | p].
  - destruct (length (flag_short f) + length (flag_long f) =? 0)%nat eqn:Hl.
    + split; [reflexivity |]. right. apply Nat.eqb_eq in Hl.
      destruct (flag_short f), (flag_long f); simpl in Hl;
        try lia; auto.
    + split; [exact Hnew |]. split; [| reflexivity].
      apply Nat.eqb_neq in Hl.
      destruct (flag_short f); [right | left; discriminate].
      destruct (flag_long f); [simpl in Hl; lia | discriminate].
  - destruct (Param_is_optional p) eqn:Ho; simpl.
    + split; [exact Hnew |]. split; [left; reflexivity | reflexivity].
    + destruct (last_param_optional (cmd_params self)) eqn:Hlast.
      * destruct (0 <? length (cmd_params self))%nat eqn:Hlen; simpl.
        -- split; [reflexivity |]. right. auto.
        -- apply Nat.ltb_ge in Hlen.
           destruct (cmd_params self); [discriminate Hlast |].
           simpl in Hlen. lia.
      * rewrite andb_false_r.
        split; [exact Hnew |]. split; [right; reflexivity | reflexivity].
Qed.

(** X5. A builder call never removes or reorders what the command holds: after
    any script of calls, failed ones included, the name, the description and
    the name switch are as before, and the aliases, flags and parameters of
    before are a prefix of those after. *)
Theorem builder_calls_extend (repr : value -> string)
  (calls : list builder_call) (self : Command) :
  cmd_name (run_calls repr self calls) = cmd_name self
  /\ cmd_description (run_calls repr self calls) = cmd_description self
  /\ cmd_disable_name (run_calls repr self calls) = cmd_disable_name self
  /\ (exists more, cmd_short (run_calls repr self calls)
                   = (cmd_short self ++ more)%list)
  /\ (exists more, cmd_long (run_calls repr self calls)
                   = (cmd_long self ++ more)%list)
  /\ (exists more, cmd_flags (run_calls repr self calls)
                   = (cmd_flags self ++ more)%list)
  /\ (exists more, cmd_params (run_calls repr self calls)
                   = (cmd_params self ++ more)%list).
Proof.
  unfold run_calls. revert self.
  induction calls as [|call rest IH]; intros self; simpl.
  - repeat split; try reflexivity; exists []; symmetry; apply app_nil_r.
  - destruct (IH (after_call repr self call))
      as (Hn & Hd & Hs & (s1 & Hs1) & (l1 & Hl1) & (f1 & Hf1) & (p1 & Hp1)).
    rewrite Hn, Hd, Hs, Hs1, Hl1, Hf1, Hp1. clear.
    unfold after_call, apply_call.
    destruct call as [s | l | arg].
    + unfold Command_short.
      repeat (match goal with |- context [if ?b then _ else _] =>
                destruct b end; simpl);
        repeat split; eauto; rewrite <- ?app_assoc; eauto.
    + unfold Command_long.
      destruct (negb _); simpl;
        repeat split; eauto; rewrite <- ?app_assoc; eauto.
    + unfold Command_arg.
      destruct (existsb _ (cmd_flags self)); [repeat split; eauto |].
      destruct (existsb _ (cmd_params self)); [repeat split; eauto |].
      destruct arg as [f | p].
      * destruct (_ =? 0)%nat; simpl;
          repeat split; eauto; rewrite <- ?app_assoc; eauto.
      * destruct (negb (Param_is_optional p) && _ && _); simpl;
          repeat split; eauto; rewrite <- ?app_assoc; eauto.
Qed.

Lemma after_call_aliases_shaped (repr : value -> string) (self : Command)
  (call : builder_call) :
  aliases_shaped self -> aliases_shaped (after_call repr self call).
Proof.
  intros (Hs & Hl & Hf). unfold after_call, apply_call, aliases_shaped.
  destruct call as [s | l | arg].
  - unfold Command_short.
    pose proof (short_alias_shape (Py.strip s)) as Hshape.
    destruct (Py.startswith (Py.strip s) "--") eqn:H2; simpl; [auto |].
    destruct (Py.startswith (Py.strip s) "-") eqn:H1; simpl; [| auto].
    destruct (Py.len (Py.strip s) =? 2)%nat eqn:H0; simpl; [| auto].
    split; [| auto]. apply Forall_app. split; [exact Hs |].
    constructor; [| constructor]. apply Hshape. auto.
  - unfold Command_long.
    destruct (Py.startswith (Py.strip l) "--") eqn:H2; simpl; [| auto].
    split; [exact Hs |]. split; [| exact Hf].
    apply Forall_app. split; [exact Hl |].
    constructor; [exact H2 | constructor].
  - unfold Command_arg.
    destruct (existsb _ (cmd_flags self)); [auto |].
    destruct (existsb _ (cmd_params self)); [auto |].
    destruct arg as [f | p].
    + destruct (length (flag_short f) + length (flag_long f) =? 0)%nat
        eqn:Hlen; simpl; [auto |].
      split; [exact Hs |]. split; [exact Hl |].
      apply Forall_app. split; [exact Hf |].
      constructor; [| constructor]. apply Nat.eqb_neq in Hlen.
      destruct (flag_short f); [right | left; discriminate].
      destruct (flag_long f); [simpl in Hlen; lia | discriminate].
    + destruct (negb (Param_is_optional p) && _ && _); simpl; auto.
Qed.

Lemma run_calls_aliases_shaped (repr : value -> string)
  (calls : list builder_call) (self : Command) :
  aliases_shaped self -> aliases_shaped (run_calls repr self calls).
Proof.
  unfold run_calls. revert self.
  induction calls as [|call rest IH]; intros self H; [exact H |].
  simpl. apply IH. apply after_call_aliases_shaped. exact H.
Qed.

Lemma run_calls_header (repr : value -> string)
  (calls : list builder_call) (self : Command) :
  cmd_name (run_calls repr self calls) = cmd_name self
  /\ cmd_disable_name (run_calls repr self calls) = cmd_disable_name self.
Proof.
  unfold run_calls. revert self.
  induction calls as [|call rest IH]; intros self; simpl; [auto |].
  destruct (IH (after_call repr self call)) as [-> ->]. clear.
  unfold after_call, apply_call.
  destruct call as [s | l | arg].
  - unfold Command_short.
    repeat (match goal with |- context [if ?b then _ else _] =>
              destruct b end; simpl); auto.
  - unfold Command_long. destruct (negb _); simpl; auto.
  - unfold Command_arg.
    destruct (existsb _ (cmd_flags self)); [auto |].
    destruct (existsb _ (cmd_params self)); [auto |].
    destruct arg as [f | p].
    + destruct (_ =? 0)%nat; simpl; auto.
    + destruct (negb (Param_is_optional p) && _ && _); simpl; auto.
Qed.

(** X6. A command built from [Command(name, description)] by builder calls
    keeps the name it was given, which is not blank, and its bare name is
    never disabled; its short aliases are a dash and one other character,
    its long aliases start with two dashes, every flag on it has an alias,
    and no two of its flags and parameters share a name. *)
Theorem constructed_command_shape (repr : value -> string) (name : string)
  (description : option string) (cmd0 : Command)
  (calls : list builder_call) :
  Command_init name description = Return cmd0
  -> cmd_name (run_calls repr cmd0 calls) = name
     /\ Py.strip name <> ""
     /\ cmd_disable_name (run_calls repr cmd0 calls) = false
     /\ aliases_shaped (run_calls repr cmd0 calls)
     /\ NoDup (declared_names (run_calls repr cmd0 calls)).
Proof.
  intros Hinit.
  assert (Hc : constructed repr (run_calls repr cmd0 calls))
    by (exists name, description, cmd0, (map OnCommand calls); auto).
  destruct (run_calls_header repr calls cmd0) as [Hn Hd].
  rewrite Hn, Hd.
  unfold Command_init in Hinit.
  destruct (String.eqb (Py.strip name) "") eqn:He; [discriminate |].
  apply String.eqb_neq in He. injection Hinit as <-. simpl.
  repeat split; try assumption.
  - apply run_calls_aliases_shaped. repeat split; constructor.
  - apply run_calls_aliases_shaped. repeat split; constructor.
  - apply run_calls_aliases_shaped. repeat split; constructor.
  - apply (constructed_NoDup repr). exact Hc.
Qed.

Lemma constructed_command_shape_witness :
  Command_init "run" None
  = Return {| cmd_name := "run"; cmd_description := None; cmd_short := [];
              cmd_long := []; cmd_disable_name := false; cmd_flags := [];
              cmd_params := [] |}
  /\ (cmd_name (run_command None) = "run"
      /\ Py.strip "run" <> ""
      /\ cmd_disable_name (run_command None) = false
      /\ aliases_shaped (run_command None)
      /\ NoDup (declared_names (run_command None))).
Proof.
  split; [reflexivity |].
  exact (constructed_command_shape sample_repr "run" None _
           (run_calls_script None) eq_refl).
Defined.

(** Calls on the items already added leave the name and the name switch
    alone as well. *)
Lemma run_script_header (repr : value -> string)
  (script : list script_call) (self : Command) :
  cmd_name (run_script repr self script) = cmd_name self
  /\ cmd_disable_name (run_script repr self script) = cmd_disable_name self.
Proof.
  unfold run_script. revert self.
  induction script as [|call rest IH]; intros self; simpl; [auto |].
  destruct (IH (after_script_call repr self call)) as [-> ->].
  destruct call as [c | i c | i c]; simpl; [| auto | auto].
  exact (run_calls_header repr [c] self).
Qed.

Lemma constructed_name_enabled (repr : value -> string) (cmd : Command) :
  constructed repr cmd -> cmd_disable_name cmd = false.
Proof.
  intros (name & description & cmd0 & calls & Hinit & ->).
  destruct (run_script_header repr calls cmd0) as [_ ->].
  unfold Command_init in Hinit.
  destruct (String.eqb (Py.strip name) ""); [discriminate |].
  injection Hinit as <-. reflexivity.
Qed.

(** X7. Every command of a list of built commands can be selected by its name
    in any letter case: the lookup finds a command, the first one that the
    token matches. *)
Theorem constructed_found_by_name (repr : value -> string)
  (cmds : list Command) (cmd : Command) (token : string) :
  Forall (constructed repr) cmds
  -> In cmd cmds
  -> Py.lower token = Py.lower (cmd_name cmd)
  -> exists found pre post,
       _find_command cmds token = Some found
       /\ cmds = (pre ++ found :: post)%list
       /\ matches_token token found
       /\ Forall (fun c => ~ matches_token token c) pre.
Proof.
  intros Hall Hin Hlow.
  destruct (_find_command cmds token) as [found|] eqn:Hf.
  - destruct (find_command_Some _ _ _ Hf) as (pre & post & Heq & Hm & Hpre).
    exists found, pre, post. auto.
  - exfalso. apply find_command_None in Hf.
    rewrite Forall_forall in Hf. apply (Hf cmd).
    + apply list_elem_of_In. exact Hin.
    + left. split; [| exact Hlow].
      apply (constructed_name_enabled repr).
      rewrite Forall_forall in Hall. apply Hall.
      apply list_elem_of_In. exact Hin.
Qed.

Lemma constructed_found_by_name_witness :
  (Forall (constructed sample_repr) [run_command None]
   /\ In (run_command None) [run_command None]
   /\ Py.lower "RUN" = Py.lower (cmd_name (run_command None)))
  /\ exists found pre post,
       _find_command [run_command None] "RUN" = Some found
       /\ [run_command None] = (pre ++ found :: post)%list
       /\ matches_token "RUN" found
       /\ Forall (fun c => ~ matches_token "RUN" c) pre.
Proof.
  assert (Hc : Forall (constructed sample_repr) [run_command None])
    by (constructor; [exact run_command_constructed | constructor]).
  split; [split; [exact Hc | split; [left; reflexivity | reflexivity]] |].
  exact (constructed_found_by_name sample_repr [run_command None]
           (run_command None) "RUN" Hc (or_introl eq_refl) eq_refl).
Defined.

(** ** Flag lookup *)

Lemma existsb_eqb_In_l (x : string) (l : list string) :
  existsb (fun y => String.eqb x y) l = true <-> In x l.
Proof.
  rewrite existsb_exists. split.
  - intros [y [Hy He]]. apply String.eqb_eq in He. subst. exact Hy.
  - intros H. exists x. split; [exact H | apply String.eqb_refl].
Qed.

Lemma find_long_flag_in_first (flags : list Flag) (val : string) :
  match find_long_flag_in flags val with
  | Some f =>
      exists pre post,
        flags = (pre ++ f :: post)%list
        /\ In val (flag_long f)
        /\ Forall (fun g => ~ In val (flag_long g)) pre
  | None => Forall (fun g => ~ In val (flag_long g)) flags
  end.
Proof.
  induction flags as [|g rest IH]; simpl; [constructor |].
  destruct (existsb _ (flag_long g)) eqn:Hg.
  - apply existsb_eqb_In_l in Hg. exists [], rest. auto.
  - assert (Hn : ~ In val (flag_long g)).
    { intros H. apply existsb_eqb_In_l in H. congruence. }
    destruct (find_long_flag_in rest val) as [f|].
    + destruct IH as (pre & post & -> & Hin & Hpre).
      exists (g :: pre), post. auto.
    + constructor; assumption.
Qed.

Lemma find_short_flag_in_first (flags : list Flag) (fname : string) :
  match find_short_flag_in flags fname with
  | Some f =>
      exists pre post,
        flags = (pre ++ f :: post)%list
        /\ In fname (flag_short f)
        /\ Forall (fun g => ~ In fname (flag_short g)) pre
  | None => Forall (fun g => ~ In fname (flag_short g)) flags
  end.
Proof.
  induction flags as [|g rest IH]; simpl; [constructor |].
  destruct (existsb _ (flag_short g)) eqn:Hg.
  - apply existsb_eqb_In in Hg. exists [], rest. auto.
  - assert (Hn : ~ In fname (flag_short g)).
    { intros H. apply existsb_eqb_In in H. congruence. }
    destruct (find_short_flag_in rest fname) as [f|].
    + destruct IH as (pre & post & -> & Hin & Hpre).
      exists (g :: pre), post. auto.
    + constructor; assumption.
Qed.

(** X8. A flag is looked up by exact comparison with its aliases, long aliases
    for a long token and short aliases for a character of a cluster: the
    lookup returns the first flag of the selected command, in declaration
    order, that has the alias, and nothing exactly when no flag has it. *)
Theorem find_flag_first_match (st : _ArgParse) (alias : string) :
  match _find_long_flag st alias with
  | Some f =>
      exists pre post,
        cmd_flags (command st) = (pre ++ f :: post)%list
        /\ In alias (flag_long f)
        /\ Forall (fun g => ~ In alias (flag_long g)) pre
  | None => Forall (fun g => ~ In alias (flag_long g)) (cmd_flags (command st))
  end
  /\ match _find_short_flag st alias with
     | Some f =>
         exists pre post,
           cmd_flags (command st) = (pre ++ f :: post)%list
           /\ In alias (flag_short f)
           /\ Forall (fun g => ~ In alias (flag_short g)) pre
     | None =>
         Forall (fun g => ~ In alias (flag_short g)) (cmd_flags (command st))
     end.
Proof.
  split.
  - apply find_long_flag_in_first.
  - apply find_short_flag_in_first.
Qed.

(** ** The inline value of a long flag *)

Lemma cut_eq_join (a b : string) :
  ~ In "="%char (list_ascii_of_string a)
  -> Py.cut_eq (a +:+ "=" +:+ b) = (a, Some b) /\ Py.cut_eq a = (a, None).
Proof.
  induction a as [|c r IH]; intros Hno.
  - simpl. auto.
  - simpl in Hno.
    change (String c r +:+ "=" +:+ b) with (String c (r +:+ "=" +:+ b)).
    cbn [Py.cut_eq].
    destruct (Ascii.eqb c "=") eqn:Hc.
    + apply Ascii.eqb_eq in Hc. exfalso. apply Hno. left. auto.
    + destruct IH as [H1 H2]; [tauto |].
      rewrite H1, H2. auto.
Qed.

Lemma cut_eq_split (s : string) :
  match Py.cut_eq s with
  | (a, Some b) =>
      s = a +:+ "=" +:+ b /\ ~ In "="%char (list_ascii_of_string a)
  | (a, None) => s = a /\ ~ In "="%char (list_ascii_of_string a)
  end.
Proof.
  induction s as [|c r IH]; simpl; [auto |].
  destruct (Ascii.eqb c "=") eqn:Hc.
  - apply Ascii.eqb_eq in Hc. subst. simpl. auto.
  - apply Ascii.eqb_neq in Hc.
    destruct (Py.cut_eq r) as [a [b|]]; destruct IH as [-> Hno]; simpl;
      (split; [reflexivity |]); intros [H | H]; auto.
Qed.

(** Splitting a long token at its first [=] and joining the parts again is
    the identity, in both directions: a token [name=value] whose [name] has
    no [=] splits into [name] and [value] (also when [value] holds further
    [=] signs), a token without [=] stays whole, and the parts of any token
    give the token back. *)
Lemma split_eq1_round_trip :
  (forall name v : string,
      ~ In "="%char (list_ascii_of_string name)
      -> Py.split_eq1 (name +:+ "=" +:+ v) = [name; v]
         /\ Py.split_eq1 name = [name])
  /\ (forall s : string,
         Py.join "=" (Py.split_eq1 s) = s
         /\ (length (Py.split_eq1 s) = 1%nat
             \/ length (Py.split_eq1 s) = 2%nat)
         /\ ~ In "="%char (list_ascii_of_string (hd "" (Py.split_eq1 s)))).
Proof.
  split.
  - intros name v Hno. unfold Py.split_eq1.
    destruct (cut_eq_join name v Hno) as [-> ->]. auto.
  - intros s. unfold Py.split_eq1.
    pose proof (cut_eq_split s) as H.
    destruct (Py.cut_eq s) as [a [b|]]; destruct H as [-> Hno]; simpl; auto.
Qed.

Lemma split_eq1_round_trip_witness :
  ~ In "="%char (list_ascii_of_string "--output")
  /\ Py.split_eq1 ("--output" +:+ "=" +:+ "a=b") = ["--output"; "a=b"]
  /\ Py.split_eq1 "--output" = ["--output"].
Proof.
  assert (H : ~ In "="%char (list_ascii_of_string "--output")).
  { simpl. intros Hin.
    repeat (destruct Hin as [Hin | Hin]; [discriminate Hin |]).
    exact Hin. }
  split; [exact H |].
  exact (proj1 split_eq1_round_trip "--output" "a=b" H).
Defined.

(** X9. A long token [name=value] for a valued flag stores [value], converted
    when the flag has a conversion function, and leaves the cursor where it
    is: the following token is not taken.  For a flag of another kind the
    token raises the value-not-accepted error. *)
Theorem long_flag_inline_value (st : _ArgParse) (name v : string)
  (flag : Flag) :
  ~ In "="%char (list_ascii_of_string name)
  -> _find_long_flag st name = Some flag
  -> _parse_long st (name +:+ "=" +:+ v)
     = match flag_kind flag with
       | valued =>
           store_taken (track_required st flag) flag v
             (Command_name (command st)
              +:+ ": invalid argument from flag '--" +:+ name +:+ "' -- ")
       | _ =>
           raise_ValueError
             (Command_name (command st) +:+ ": flag --" +:+ name
              +:+ " was provided a value but is not a valued-flag!")
       end.
Proof.
  intros Hno Hfind. unfold _parse_long, Py.split_eq1.
  destruct (cut_eq_join name v Hno) as [-> _]. simpl length. simpl Nat.eqb.
  cbv iota. simpl nth. rewrite Hfind.
  destruct (track_required_frame st flag) as ((_ & _ & Hc & _) & _).
  destruct (flag_kind flag); simpl; reflexivity.
Qed.

Lemma long_flag_inline_value_witness :
  (~ In "="%char (list_ascii_of_string "--output")
   /\ _find_long_flag (run_parser_at ["run"; "--output=a=b"; "c"] 2)
        "--output" = Some output_flag)
  /\ _parse_long (run_parser_at ["run"; "--output=a=b"; "c"] 2)
       ("--output" +:+ "=" +:+ "a=b")
     = store_taken
         (track_required (run_parser_at ["run"; "--output=a=b"; "c"] 2)
            output_flag)
         output_flag "a=b" "run: invalid argument from flag '--output' -- ".
Proof.
  assert (H : ~ In "="%char (list_ascii_of_string "--output")).
  { simpl. intros Hin.
    repeat (destruct Hin as [Hin | Hin]; [discriminate Hin |]).
    exact Hin. }
  split; [split; [exact H | reflexivity] |].
  exact (long_flag_inline_value
           (run_parser_at ["run"; "--output=a=b"; "c"] 2) "--output" "a=b"
           output_flag H eq_refl).
Defined.

(** ** Count and presence flags *)

Lemma track_required_twice (st : _ArgParse) (flag : Flag)
  (vs : gmap string value) :
  track_required (set_values (track_required st flag) vs) flag
  = set_values (track_required st flag) vs.
Proof.
  unfold track_required at 1.
  replace (bool_decide
             (flag_name flag
              ∈ required_flags (set_values (track_required st flag) vs)))
    with false; [reflexivity |].
  symmetry. apply bool_decide_eq_false. simpl.
  unfold track_required. destruct (bool_decide _) eqn:Hd; simpl.
  - intros H. apply elem_of_difference in H as [_ H]. apply H.
    apply elem_of_singleton. reflexivity.
  - apply bool_decide_eq_false in Hd. exact Hd.
Qed.

(** A name under which [getattr] finds an integer, or nothing, can be
    stored, and what is stored is what [getattr] finds next. *)
Lemma getattr_int_setattr (vs : gmap string value) (n : string) (z : Z) :
  default (VInt 0) (getattr vs n) = VInt z
  -> forall ws w,
       setattr ws n w = Return (<[n := w]> ws)
       /\ getattr (<[n := w]> ws) n = Some w.
Proof.
  unfold getattr, setattr, namespace_class.
  destruct (String.eqb n "__class__"); [discriminate |].
  destruct (String.eqb n "__dict__"); [discriminate |].
  intros _ ws w. rewrite lookup_insert_eq. auto.
Qed.

Lemma parse_short_flag_count (st : _ArgParse) (fname : string) (flag : Flag)
  (z : Z) :
  _find_short_flag st fname = Some flag
  -> flag_kind flag = count
  -> default (VInt 0) (getattr (values st) (flag_name flag)) = VInt z
  -> parse_short_flag st fname
     = Return (set_values (track_required st flag)
                 (<[flag_name flag := VInt (z + 1)]> (values st))).
Proof.
  intros Hfind Hkind Hz. unfold parse_short_flag. rewrite Hfind, Hkind.
  destruct (track_required_effect st flag) as (_ & _ & Hv & _).
  unfold bump_count. rewrite Hv, Hz. simpl.
  destruct (getattr_int_setattr _ _ _ Hz (values st) (VInt (z + 1)))
    as [-> _].
  reflexivity.
Qed.

(** X10. A count flag met [k + 1] times in a row in a cluster adds [k + 1] to
    the counter that [getattr] finds under its name, 0 when the name is not
    an attribute of the namespace yet: [-vvv] counts 3.  The cursor stays
    where it is. *)
Theorem count_flag_counts (k : nat) (st : _ArgParse) (fname : string)
  (flag : Flag) (z : Z) :
  _find_short_flag st fname = Some flag
  -> flag_kind flag = count
  -> default (VInt 0) (getattr (values st) (flag_name flag)) = VInt z
  -> parse_short_flags st (repeat fname (S k))
     = Return (set_values (track_required st flag)
                 (<[flag_name flag := VInt (z + Z.of_nat (S k))]>
                    (values st))).
Proof.
  revert z. induction k as [|k IH]; intros z Hfind Hkind Hz.
  - simpl. rewrite (parse_short_flag_count _ _ _ _ Hfind Hkind Hz).
    reflexivity.
  - change (repeat fname (S (S k)))
      with ([fname] ++ repeat fname (S k))%list at 1.
    specialize (IH z Hfind Hkind Hz).
    replace ([fname] ++ repeat fname (S k))%list
      with (repeat fname (S k) ++ [fname])%list
      by (symmetry; apply (repeat_cons (S k) fname)).
    rewrite parse_short_flags_app, IH. simpl.
    rewrite parse_short_flag_count
      with (flag := flag) (z := (z + Z.of_nat (S k))%Z).
    + simpl. rewrite track_required_twice. simpl.
      rewrite insert_insert_eq.
      replace (z + Z.of_nat (S k) + 1)%Z with (z + Z.of_nat (S (S k)))%Z
        by lia.
      reflexivity.
    + unfold _find_short_flag in *. simpl.
      destruct (track_required_effect st flag) as (-> & _). exact Hfind.
    + exact Hkind.
    + simpl.
      destruct (getattr_int_setattr _ _ _ Hz (values st)
                  (VInt (z + Z.of_nat (S k)))) as [_ ->].
      reflexivity.
Qed.

Lemma count_flag_counts_witness :
  (_find_short_flag (run_parser_at ["run"; "-vvv"] 2) "-v" = Some verbose_flag
   /\ flag_kind verbose_flag = count
   /\ default (VInt 0)
        (getattr (values (run_parser_at ["run"; "-vvv"] 2))
           (flag_name verbose_flag))
      = VInt 0)
  /\ parse_short_flags (run_parser_at ["run"; "-vvv"] 2) (repeat "-v" 3)
     = Return (set_values
                 (track_required (run_parser_at ["run"; "-vvv"] 2)
                    verbose_flag)
                 (<[flag_name verbose_flag := VInt (0 + Z.of_nat 3)]>
                    (values (run_parser_at ["run"; "-vvv"] 2)))).
Proof.
  split; [repeat split |].
  exact (count_flag_counts 2 (run_parser_at ["run"; "-vvv"] 2) "-v"
           verbose_flag 0 eq_refl eq_refl eq_refl).
Defined.







(** ** Clusters compose *)

Lemma chars_app (a b : string) :
  Py.chars (a +:+ b) = (Py.chars a ++ Py.chars b)%list.
Proof.
  induction a as [|c r IH]; [reflexivity |].
  change (String c r +:+ b) with (String c (r +:+ b)).
  simpl. rewrite IH. reflexivity.
Qed.

Lemma short_flag_names_length (s : string) :
  length (short_flag_names (String "-" s)) = String.length s.
Proof.
  unfold short_flag_names. rewrite length_map. simpl.
  induction s as [|c r IH]; [reflexivity |]. simpl. rewrite IH. reflexivity.
Qed.

(** X12. A cluster is processed as its characters one after another: the
    cluster [-ab...] does what the cluster of its first characters does,
    followed, from the state reached, by the cluster of the remaining
    ones.  In particular [-ab] is [-a] then [-b]. *)
Theorem cluster_composes (st : _ArgParse) (a b : string) :
  a <> "" -> b <> ""
  -> _parse_short st (String "-" (a +:+ b))
     = (let* st1 := _parse_short st (String "-" a) in
        _parse_short st1 (String "-" b)).
Proof.
  intros Ha Hb. unfold _parse_short.
  rewrite !short_flag_names_length.
  assert (Hab : String.length (a +:+ b) <> 0%nat).
  { destruct a; [contradiction | simpl; lia]. }
  assert (Ha' : String.length a <> 0%nat)
    by (destruct a; [contradiction | simpl; lia]).
  assert (Hb' : String.length b <> 0%nat)
    by (destruct b; [contradiction | simpl; lia]).
  apply Nat.eqb_neq in Hab, Ha', Hb'. rewrite Hab, Ha', Hb'.
  unfold short_flag_names. simpl Py.tail.
  rewrite chars_app, map_app. apply parse_short_flags_app.
Qed.

Lemma cluster_composes_witness :
  ("v" <> "" /\ "fv" <> "")
  /\ _parse_short (copy_parser_at ["copy"; "-vfv"] 2)
       (String "-" ("v" +:+ "fv"))
     = (let* st1 := _parse_short (copy_parser_at ["copy"; "-vfv"] 2)
                      (String "-" "v") in
        _parse_short st1 (String "-" "fv")).
Proof.
  assert (H1 : "v" <> "") by discriminate.
  assert (H2 : "fv" <> "") by discriminate.
  split; [split; assumption |].
  exact (cluster_composes (copy_parser_at ["copy"; "-vfv"] 2) "v" "fv" H1 H2).
Defined.

(** ** The scanning loop terminates *)

Lemma parse_loop_more_fuel (repr : value -> string) (fuel : nat)
  (st : _ArgParse) (r : outcome _ArgParse) :
  parse_loop repr fuel st = Some r
  -> forall fuel', (fuel <= fuel')%nat -> parse_loop repr fuel' st = Some r.
Proof.
  revert st. induction fuel as [|fuel IH]; intros st H fuel' Hle.
  - simpl in H.
    destruct (idx st <? length (argv st))%nat eqn:Hlt; [discriminate |].
    destruct fuel'; simpl; rewrite Hlt; exact H.
  - destruct fuel' as [|fuel']; [lia |]. simpl in *.
    destruct (idx st <? length (argv st))%nat; [| exact H].
    destruct (parse_token repr st) as [st1|e]; [| exact H].
    apply IH; [exact H | lia].
Qed.

(** X13. Every turn of the scanning loop moves the cursor forward by at least
    one token and leaves the token sequence, the command list and the
    selected command as they are; so the loop ends within as many turns as
    there are tokens left, and [parse_args] gives the same outcome for
    every fuel from the number of tokens on. *)
Theorem scanning_loop_terminates (repr : value -> string) :
  (forall st st',
      parse_token repr st = Return st'
      -> (idx st < idx st')%nat /\ argv st' = argv st
         /\ commands st' = commands st /\ command st' = command st)
  /\ (forall st,
         exists r,
           parse_loop repr (length (argv st) - idx st) st = Some r)
  /\ (forall cmds args fuel,
         (length args <= fuel)%nat
         -> parse_args_fuel repr fuel cmds args
            = Some (parse_args repr cmds args)).
Proof.
  split; [| split].
  - intros st st' H.
    destruct (parse_token_frame _ _ _ H) as ((Hc & Ha & Hm & _) & Hi). auto.
  - intros st. apply parse_loop_fuel. lia.
  - intros cmds args fuel Hle.
    pose proof (parse_args_fuel_enough repr cmds args) as H.
    unfold parse_args_fuel in *.
    destruct args as [|first rest]; [exact H |].
    destruct (_find_command cmds first) as [cmd|]; [| exact H].
    destruct (parse_loop repr (length (first :: rest)) _) as [r|] eqn:Hr;
      [| discriminate].
    rewrite (parse_loop_more_fuel _ _ _ _ Hr fuel Hle). exact H.
Qed.

(** ** The entries have the shape of their kind; no unexpected exception *)

Lemma try_convert_Raise_inv (p : converter) (tok msg : string) (e : exc) :
  try_convert p tok msg = Raise e
  -> exc_cls e = ValueError \/ p tok = Raise e.
Proof.
  unfold try_convert. destruct (p tok) as [v|e0]; [discriminate |].
  destruct (is_interrupt (exc_cls e0)).
  - intros H. injection H as <-. right. reflexivity.
  - destruct (is_Exception (exc_cls e0)).
    + intros H. injection H as <-. left. reflexivity.
    + intros H. injection H as <-. right. reflexivity.
Qed.

Lemma flag_name_injective (cmd : Command) (f g : Flag) :
  NoDup (declared_names cmd)
  -> In f (cmd_flags cmd) -> In g (cmd_flags cmd)
  -> flag_name f = flag_name g -> f = g.
Proof.
  unfold declared_names. intros Hnd Hf Hg Heq.
  apply NoDup_app in Hnd as (Hnd & _ & _).
  apply list_elem_of_In, list_elem_of_lookup_1 in Hf as [i Hi].
  apply list_elem_of_In, list_elem_of_lookup_1 in Hg as [j Hj].
  assert (i = j).
  { eapply NoDup_lookup; [exact Hnd | |];
      rewrite list_lookup_fmap; [rewrite Hi | rewrite Hj]; simpl;
      [reflexivity | rewrite Heq; reflexivity]. }
  subst j. congruence.
Qed.

Lemma flag_param_names_differ (cmd : Command) (f : Flag) (p : Param) :
  NoDup (declared_names cmd)
  -> In f (cmd_flags cmd) -> In p (cmd_params cmd)
  -> flag_name f <> param_name p.
Proof.
  unfold declared_names. intros Hnd Hf Hp Heq.
  apply NoDup_app in Hnd as (_ & Hdis & _).
  apply (Hdis (flag_name f)).
  - apply list_elem_of_In, in_map. exact Hf.
  - rewrite Heq. apply list_elem_of_In, in_map. exact Hp.
Qed.

(** Storing a well-shaped entry under the name of a flag keeps all entries
    well-shaped. *)
Lemma flags_typed_insert (cmd : Command) (vs : gmap string value)
  (g : Flag) (w : value) :
  NoDup (declared_names cmd)
  -> In g (cmd_flags cmd)
  -> flags_typed cmd vs
  -> entry_typed (flag_kind g) w
  -> flags_typed cmd (<[flag_name g := w]> vs).
Proof.
  intros Hnd Hg Hty Hw f v Hf Hv.
  destruct (decide (flag_name g = flag_name f)) as [Heq | Hne].
  - rewrite Heq, lookup_insert_eq in Hv. injection Hv as <-.
    rewrite (flag_name_injective cmd f g Hnd Hf Hg); [exact Hw | congruence].
  - rewrite lookup_insert_ne in Hv by exact Hne. exact (Hty f v Hf Hv).
Qed.

Lemma ordinary_flag (cmd : Command) (f : Flag) :
  ordinary_names cmd -> In f (cmd_flags cmd) -> ordinary (flag_name f).
Proof.
  unfold ordinary_names. rewrite Forall_forall. intros H Hf. apply H.
  apply list_elem_of_In, declared_flag_name. exact Hf.
Qed.

Lemma ordinary_param (cmd : Command) (p : Param) :
  ordinary_names cmd -> In p (cmd_params cmd) -> ordinary (param_name p).
Proof.
  unfold ordinary_names. rewrite Forall_forall. intros H Hp. apply H.
  apply list_elem_of_In, declared_param_name. exact Hp.
Qed.

Lemma append_value_typed (cmd : Command) (vs : gmap string value)
  (g : Flag) (w : value) :
  ordinary (flag_name g)
  -> In g (cmd_flags cmd) -> flag_kind g = valued -> flags_typed cmd vs
  -> exists l, l <> []
               /\ append_value vs (flag_name g) w
                  = Return (<[flag_name g := VList l]> vs).
Proof.
  intros Hord Hg Hk Hty.
  destruct (vs !! flag_name g) as [v|] eqn:Hv.
  - specialize (Hty g v Hg Hv). rewrite Hk in Hty.
    destruct Hty as (l & -> & Hl).
    exists (l ++ [w])%list. split; [destruct l; discriminate |].
    apply append_value_list. rewrite (ordinary_getattr _ _ Hord). exact Hv.
  - exists [w]. split; [discriminate |].
    apply append_value_new. rewrite (ordinary_getattr _ _ Hord). exact Hv.
Qed.

Lemma bump_count_typed (cmd : Command) (vs : gmap string value) (g : Flag) :
  ordinary (flag_name g)
  -> In g (cmd_flags cmd) -> flag_kind g = count -> flags_typed cmd vs
  -> exists z, (0 < z)%Z
               /\ bump_count vs (flag_name g)
                  = Return (<[flag_name g := VInt z]> vs).
Proof.
  intros Hord Hg Hk Hty. unfold bump_count.
  rewrite (ordinary_getattr _ _ Hord).
  destruct (vs !! flag_name g) as [v|] eqn:Hv; simpl.
  - specialize (Hty g v Hg Hv). rewrite Hk in Hty.
    destruct Hty as (z & -> & Hz). simpl.
    rewrite (ordinary_setattr _ _ _ Hord).
    exists (z + 1)%Z. split; [lia | reflexivity].
  - rewrite (ordinary_setattr _ _ _ Hord).
    exists 1%Z. split; [lia | reflexivity].
Qed.

(** What storing the token taken for a valued flag does when the entries
    are well-shaped. *)
Lemma store_taken_typed (cmd : Command) (st : _ArgParse) (g : Flag)
  (token msg : string) :
  NoDup (declared_names cmd)
  -> ordinary (flag_name g)
  -> In g (cmd_flags cmd) -> flag_kind g = valued
  -> flags_typed cmd (values st)
  -> match store_taken st g token msg with
     | Return st' =>
         flags_typed cmd (values st') /\ command st' = command st
     | Raise e => expected_exc cmd e
     end.
Proof.
  intros Hnd Hord Hg Hk Hty. unfold store_taken.
  assert (Hconv : match (match flag_parser g with
                         | Some parser => try_convert parser token msg
                         | None => Return (VStr token)
                         end) with
                  | Return _ => True
                  | Raise e => expected_exc cmd e
                  end).
  { destruct (flag_parser g) as [p|] eqn:Hp; [| exact I].
    destruct (try_convert p token msg) as [v|e] eqn:Ht; [exact I |].
    apply try_convert_Raise_inv in Ht as [Hv | Hr]; [left; exact Hv |].
    right. exists p, token. split; [| exact Hr].
    left. exists g. auto. }
  destruct (match flag_parser g with
            | Some parser => try_convert parser token msg
            | None => Return (VStr token)
            end) as [w|e]; simpl; [| exact Hconv].
  destruct (append_value_typed cmd (values st) g w Hord Hg Hk Hty)
    as (l & Hl & ->). simpl.
  split; [| reflexivity].
  apply flags_typed_insert; try assumption.
  rewrite Hk. exists l. auto.
Qed.

Lemma parse_short_flag_typed (cmd : Command) (st : _ArgParse)
  (fname : string) :
  NoDup (declared_names cmd)
  -> ordinary_names cmd
  -> command st = cmd
  -> flags_typed cmd (values st)
  -> match parse_short_flag st fname with
     | Return st' => flags_typed cmd (values st') /\ command st' = cmd
     | Raise e => expected_exc cmd e
     end.
Proof.
  intros Hnd Hon Hcmd Hty. unfold parse_short_flag, _find_short_flag.
  destruct (find_short_flag_in _ _) as [flag|] eqn:Hfind;
    [| left; reflexivity].
  apply find_short_flag_in_In in Hfind. rewrite Hcmd in Hfind.
  pose proof (ordinary_flag cmd flag Hon Hfind) as Hord.
  pose proof (track_required_effect st flag) as (Hc & _ & Hv & _).
  set (st1 := track_required st flag) in *. clearbody st1.
  rewrite <- Hv in Hty. rewrite Hcmd in Hc.
  destruct (flag_kind flag) eqn:Hk.
  - destruct (hasattr (values st1) (flag_name flag)) eqn:Hh;
      [left; reflexivity |].
    rewrite (ordinary_setattr _ _ _ Hord).
    simpl. split; [| exact Hc].
    apply flags_typed_insert; try assumption. rewrite Hk. reflexivity.
  - destruct (length (argv st1) <=? idx st1)%nat eqn:Hlen;
      [left; reflexivity |].
    destruct (argv st1 !! idx st1) as [token|] eqn:Htok.
    + pose proof (store_taken_typed cmd (set_idx st1 (idx st1 + 1)) flag
                    token
                    (Command_name (command st)
                     +:+ ": invalid argument from flag '-" +:+ fname
                     +:+ "' -- ")
                    Hnd Hord Hfind Hk Hty) as H.
      unfold store_taken in H.
      destruct (let* val := _ in _) as [st'|e]; [| exact H].
      destruct H as [H1 H2]. split; [exact H1 |]. rewrite H2. exact Hc.
    + apply lookup_ge_None in Htok. apply Nat.leb_gt in Hlen. lia.
  - destruct (bump_count_typed cmd (values st1) flag Hord Hfind Hk Hty)
      as (z & Hz & ->). simpl. split; [| exact Hc].
    apply flags_typed_insert; try assumption. rewrite Hk. exists z. auto.
Qed.

Lemma parse_short_flags_typed (cmd : Command) (names : list string)
  (st : _ArgParse) :
  NoDup (declared_names cmd)
  -> ordinary_names cmd
  -> command st = cmd
  -> flags_typed cmd (values st)
  -> match parse_short_flags st names with
     | Return st' => flags_typed cmd (values st') /\ command st' = cmd
     | Raise e => expected_exc cmd e
     end.
Proof.
  intros Hnd Hon. revert st.
  induction names as [|n rest IH]; intros st Hcmd Hty; simpl; [auto |].
  pose proof (parse_short_flag_typed cmd st n Hnd Hon Hcmd Hty) as H.
  destruct (parse_short_flag st n) as [st1|e]; simpl; [| exact H].
  destruct H as [H1 H2]. apply IH; assumption.
Qed.

Lemma parse_long_typed (cmd : Command) (st : _ArgParse)
  (arg_value : string) :
  NoDup (declared_names cmd)
  -> ordinary_names cmd
  -> command st = cmd
  -> flags_typed cmd (values st)
  -> match _parse_long st arg_value with
     | Return st' => flags_typed cmd (values st') /\ command st' = cmd
     | Raise e => expected_exc cmd e
     end.
Proof.
  intros Hnd Hon Hcmd Hty. unfold _parse_long, _find_long_flag.
  set (parts := Py.split_eq1 arg_value).
  set (fname := if (length parts =? 1)%nat then arg_value else nth 0 parts "").
  destruct (find_long_flag_in _ _) as [flag|] eqn:Hfind;
    [| left; reflexivity].
  apply find_long_flag_in_In in Hfind. rewrite Hcmd in Hfind.
  pose proof (ordinary_flag cmd flag Hon Hfind) as Hord.
  pose proof (track_required_effect st flag) as (Hc & _ & Hv & _).
  set (st1 := track_required st flag) in *. clearbody st1.
  rewrite <- Hv in Hty. rewrite Hcmd in Hc.
  destruct ((length parts =? 2)%nat && negb (kind_eqb (flag_kind flag) valued))
    eqn:Hguard; [left; reflexivity |].
  destruct (flag_kind flag) eqn:Hk.
  - destruct (hasattr (values st1) (flag_name flag)) eqn:Hh;
      [left; reflexivity |].
    rewrite (ordinary_setattr _ _ _ Hord).
    simpl. split; [| exact Hc].
    apply flags_typed_insert; try assumption. rewrite Hk. reflexivity.
  - destruct (negb (length parts =? 2)%nat).
    + destruct (length (argv st1) <=? idx st1)%nat eqn:Hlen;
        [left; reflexivity |].
      destruct (argv st1 !! idx st1) as [token|] eqn:Htok.
      * pose proof (store_taken_typed cmd (set_idx st1 (idx st1 + 1)) flag
                      token
                      (Command_name (command st)
                       +:+ ": invalid argument from flag '--" +:+ fname
                       +:+ "' -- ")
                      Hnd Hord Hfind Hk Hty) as H.
        unfold store_taken in H. simpl.
        destruct (let* val := _ in _) as [st'|e]; [| exact H].
        destruct H as [H1 H2]. split; [exact H1 |]. rewrite H2. exact Hc.
      * apply lookup_ge_None in Htok. apply Nat.leb_gt in Hlen. lia.
    + pose proof (store_taken_typed cmd st1 flag (nth 1 parts "")
                    (Command_name (command st)
                     +:+ ": invalid argument from flag '--" +:+ fname
                     +:+ "' -- ")
                    Hnd Hord Hfind Hk Hty) as H.
      unfold store_taken in H. simpl.
      destruct (let* val := _ in _) as [st'|e]; [| exact H].
      destruct H as [H1 H2]. split; [exact H1 |]. rewrite H2. exact Hc.
  - destruct (bump_count_typed cmd (values st1) flag Hord Hfind Hk Hty)
      as (z & Hz & ->). simpl. split; [| exact Hc].
    apply flags_typed_insert; try assumption. rewrite Hk. exists z. auto.
Qed.

Lemma parse_positional_typed (repr : value -> string) (cmd : Command)
  (st : _ArgParse) (arg_value : string) :
  NoDup (declared_names cmd)
  -> ordinary_names cmd
  -> command st = cmd
  -> flags_typed cmd (values st)
  -> match parse_positional repr st arg_value with
     | Return st' => flags_typed cmd (values st') /\ command st' = cmd
     | Raise e => expected_exc cmd e
     end.
Proof.
  intros Hnd Hon Hcmd Hty. unfold parse_positional. rewrite Hcmd.
  destruct (length (cmd_params cmd) <=? param_idx st)%nat eqn:Hlen;
    [left; reflexivity |].
  destruct (cmd_params cmd !! param_idx st) as [param|] eqn:Hparam.
  - assert (Hin : In param (cmd_params cmd)).
    { apply list_elem_of_In. eapply list_elem_of_lookup_2. exact Hparam. }
    assert (Hkeep : forall w,
               flags_typed cmd (<[param_name param := w]> (values st))).
    { intros w f v Hf Hv.
      rewrite lookup_insert_ne in Hv; [exact (Hty f v Hf Hv) |].
      intros Heq. exact (flag_param_names_differ cmd f param Hnd Hf Hin
                           (eq_sym Heq)). }
    pose proof (ordinary_param cmd param Hon Hin) as Hord.
    destruct (param_parser param) as [p|] eqn:Hp; simpl.
    + destruct (try_convert p arg_value _) as [w|e] eqn:Ht; simpl.
      * rewrite (ordinary_setattr _ _ _ Hord). simpl.
        split; [apply Hkeep | exact Hcmd].
      * apply try_convert_Raise_inv in Ht as [Hv | Hr]; [left; exact Hv |].
        right. exists p, arg_value. split; [| exact Hr].
        right. exists param. auto.
    + rewrite (ordinary_setattr _ _ _ Hord). simpl.
      split; [apply Hkeep | exact Hcmd].
  - apply lookup_ge_None in Hparam. apply Nat.leb_gt in Hlen. lia.
Qed.

(** A turn of the loop keeps the entries well-shaped and raises only
    expected exceptions. *)
Lemma parse_token_typed (repr : value -> string) (cmd : Command)
  (st : _ArgParse) :
  NoDup (declared_names cmd)
  -> ordinary_names cmd
  -> command st = cmd
  -> flags_typed cmd (values st)
  -> (idx st < length (argv st))%nat
  -> match parse_token repr st with
     | Return st' => flags_typed cmd (values st') /\ command st' = cmd
     | Raise e => expected_exc cmd e
     end.
Proof.
  intros Hnd Hon Hcmd Hty Hlt. unfold parse_token.
  destruct (argv st !! idx st) as [arg_value|] eqn:Htok.
  - destruct (Py.startswith arg_value "--").
    + apply parse_long_typed; assumption.
    + destruct (Py.startswith arg_value "-").
      * unfold _parse_short.
        destruct (_ =? 0)%nat; [left; reflexivity |].
        apply parse_short_flags_typed; assumption.
      * apply parse_positional_typed; assumption.
  - apply lookup_ge_None in Htok. lia.
Qed.

Lemma parse_loop_typed (repr : value -> string) (cmd : Command)
  (fuel : nat) (st : _ArgParse) :
  NoDup (declared_names cmd)
  -> ordinary_names cmd
  -> command st = cmd
  -> flags_typed cmd (values st)
  -> match parse_loop repr fuel st with
     | Some (Return st') => flags_typed cmd (values st')
     | Some (Raise e) => expected_exc cmd e
     | None => True
     end.
Proof.
  intros Hnd Hon. revert st.
  induction fuel as [|fuel IH]; intros st Hcmd Hty; simpl.
  - destruct (idx st <? length (argv st))%nat; [exact I | exact Hty].
  - destruct (idx st <? length (argv st))%nat eqn:Hlt; [| exact Hty].
    apply Nat.ltb_lt in Hlt.
    pose proof (parse_token_typed repr cmd st Hnd Hon Hcmd Hty Hlt) as H.
    destruct (parse_token repr st) as [st1|e]; [| exact H].
    destruct H as [H1 H2]. apply IH; assumption.
Qed.

(** [parse_args] for built commands: the command found is one of the list,
    and the outcome is that of the loop followed by [finish]. *)
Lemma parse_args_selected (repr : value -> string) (cmds : list Command)
  (first : string) (rest : list string) (cmd : Command) :
  Forall (constructed repr) cmds
  -> _find_command cmds first = Some cmd
  -> In cmd cmds /\ constructed repr cmd
     /\ exists r,
          parse_loop repr (length (first :: rest))
            (initial_parser cmds (first :: rest) cmd) = Some r
          /\ parse_args repr cmds (first :: rest)
             = (let* parser := r in finish repr cmd parser).
Proof.
  intros Hall Hfind.
  pose proof (parse_args_stages repr cmds (first :: rest)) as Hs.
  simpl in Hs. rewrite Hfind in Hs.
  apply find_command_Some in Hfind as (pre & post & -> & _).
  split; [apply in_or_app; right; left; reflexivity |].
  split; [| exact Hs].
  rewrite Forall_app, Forall_cons in Hall. tauto.
Qed.

Lemma finish_Raise (repr : value -> string) (cmd : Command)
  (st : _ArgParse) (e : exc) :
  finish repr cmd st = Raise e -> exc_cls e = ValueError.
Proof.
  unfold finish.
  destruct (missing_positional st);
    [intros H; injection H as <-; reflexivity |].
  destruct (0 <? size (required_flags st))%nat;
    [intros H; injection H as <-; reflexivity |].
  rewrite finish_defaults. discriminate.
Qed.

Lemma flags_typed_empty (cmd : Command) : flags_typed cmd ∅.
Proof. intros f v _ Hv. rewrite lookup_empty in Hv. discriminate. Qed.

(** X14. [parse_args] on built commands whose declared names are ordinary
    (none is a name that the namespace inherits, such as [__doc__]) raises
    nothing but [ValueError]s and what a conversion function declared on
    one of the commands raised: the [AttributeError], [TypeError] and
    [IndexError] that storing a value or reading a token could raise never
    occur. *)
Theorem parse_args_raises_expected (repr : value -> string)
  (cmds : list Command) (args : list string) (e : exc) :
  Forall (constructed repr) cmds
  -> Forall ordinary_names cmds
  -> parse_args repr cmds args = Raise e
  -> exc_cls e = ValueError
     \/ exists cmd p tok,
          In cmd cmds /\ declared_converter cmd p /\ p tok = Raise e.
Proof.
  intros Hall Hords Hraise.
  pose proof (parse_args_stages repr cmds args) as Hs.
  destruct args as [|first rest].
  { rewrite Hs in Hraise. injection Hraise as <-. left. reflexivity. }
  destruct (_find_command cmds first) as [cmd|] eqn:Hfind.
  2: { rewrite Hs in Hraise. injection Hraise as <-. left. reflexivity. }
  clear Hs.
  destruct (parse_args_selected repr cmds first rest cmd Hall Hfind)
    as (Hin & Hc & r & Hloop & Hpa).
  assert (Hon : ordinary_names cmd).
  { rewrite Forall_forall in Hords. apply Hords, list_elem_of_In, Hin. }
  pose proof (parse_loop_typed repr cmd (length (first :: rest))
                (initial_parser cmds (first :: rest) cmd)
                (constructed_NoDup _ _ Hc) Hon eq_refl
                (flags_typed_empty cmd))
    as Hty.
  rewrite Hloop in Hty. rewrite Hpa in Hraise.
  destruct r as [st|e']; simpl in Hraise.
  - left. eapply finish_Raise. exact Hraise.
  - injection Hraise as <-. destruct Hty as [Hv | (p & tok & Hd & Hp)].
    + left. exact Hv.
    + right. exists cmd, p, tok. auto.
Qed.

Lemma parse_args_raises_expected_witness :
  (Forall (constructed sample_repr) [run_command None]
   /\ Forall ordinary_names [run_command None]
   /\ parse_args sample_repr [run_command None] ["run"; "img"; "-v"; "-o"]
      = raise_ValueError "run: expected positional argument from flag '--o'")
  /\ (exc_cls (mkExc ValueError
                 "run: expected positional argument from flag '--o'")
      = ValueError
      \/ exists cmd p tok,
           In cmd [run_command None] /\ declared_converter cmd p
           /\ p tok
              = Raise (mkExc ValueError
                         "run: expected positional argument from flag '--o'")).
Proof.
  assert (Hc : Forall (constructed sample_repr) [run_command None])
    by (constructor; [exact run_command_constructed | constructor]).
  assert (Hr : parse_args sample_repr [run_command None]
                 ["run"; "img"; "-v"; "-o"]
               = raise_ValueError
                   "run: expected positional argument from flag '--o'")
    by (vm_compute; reflexivity).
  assert (Ho : Forall ordinary_names [run_command None])
    by (constructor; [exact (run_command_ordinary None) | constructor]).
  split; [split; [exact Hc | split; [exact Ho | exact Hr]] |].
  exact (parse_args_raises_expected sample_repr [run_command None]
           ["run"; "img"; "-v"; "-o"] _ Hc Ho Hr).
Defined.

(** The final entry of a flag: what the scan recorded, else the default. *)
Lemma flag_entry_final (cmd : Command) (st : _ArgParse) (f : Flag) :
  NoDup (declared_names cmd)
  -> ordinary_names cmd
  -> scan_inv cmd st
  -> required_flags st = ∅
  -> In f (cmd_flags cmd)
  -> fill_defaults flag_name Flag_is_optional flag_default (cmd_flags cmd)
       (fill_defaults param_name Param_is_optional param_default
          (cmd_params cmd) (values st)) !! flag_name f
     = Some (default (flag_default f) (values st !! flag_name f)).
Proof.
  intros Hnd Hon (Hcmd & Hdom & Hflags & Hparams) Hreq Hf.
  pose proof (ordinary_flag cmd f Hon Hf) as Hord.
  destruct (values st !! flag_name f) as [v|] eqn:Hv; simpl.
  - do 2 apply fill_keeps. exact Hv.
  - assert (Ho : Flag_is_optional f = true).
    { destruct (Flag_is_optional f) eqn:Ho; [reflexivity |].
      destruct (Hflags f Hf) as [Hmem | [w Hw]].
      - unfold Flag_is_optional in Ho. unfold Flag_is_required.
        destruct (flag_required f); [reflexivity | discriminate].
      - rewrite Hreq in Hmem. apply not_elem_of_empty in Hmem. contradiction.
      - congruence. }
    apply fill_default; [exact Hord | | exact Hf | exact Ho |].
    + unfold declared_names in Hnd. apply NoDup_app in Hnd. tauto.
    + destruct (fill_defaults param_name Param_is_optional param_default
                  (cmd_params cmd) (values st) !! flag_name f) as [w|] eqn:Hw;
        [| reflexivity].
      exfalso.
      destruct (fill_dom param_name Param_is_optional param_default
                  (cmd_params cmd) (values st) (flag_name f))
        as [[u Hu] | (p & Hp & _ & Hn)]; [eauto | congruence |].
      exact (flag_param_names_differ cmd f p Hnd Hf Hp (eq_sym Hn)).
Qed.

(** The final entry of a parameter: what the scan recorded, else the
    default, and then the parameter is optional. *)
Lemma param_entry_final (cmd : Command) (st : _ArgParse) (p : Param) :
  NoDup (declared_names cmd)
  -> ordinary_names cmd
  -> required_first (cmd_params cmd) = true
  -> scan_inv cmd st
  -> missing_positional st = None
  -> In p (cmd_params cmd)
  -> fill_defaults flag_name Flag_is_optional flag_default (cmd_flags cmd)
       (fill_defaults param_name Param_is_optional param_default
          (cmd_params cmd) (values st)) !! param_name p
     = Some (default (param_default p) (values st !! param_name p))
     /\ (Param_is_optional p = false -> is_Some (values st !! param_name p)).
Proof.
  intros Hnd Hon Hrf (Hcmd & Hdom & Hflags & Hparams) Hmiss Hp.
  pose proof (ordinary_param cmd p Hon Hp) as Hord.
  assert (Hrequired : Param_is_optional p = false
                      -> is_Some (values st !! param_name p)).
  { intros Ho.
    pose proof Hp as Hp'.
    apply list_elem_of_In, list_elem_of_lookup_1 in Hp' as [i Hi].
    apply (Hparams i p Hi).
    eapply required_param_consumed; eassumption. }
  split; [| exact Hrequired].
  destruct (values st !! param_name p) as [v|] eqn:Hv; simpl.
  - do 2 apply fill_keeps. exact Hv.
  - assert (Ho : Param_is_optional p = true).
    { destruct (Param_is_optional p) eqn:Ho; [reflexivity |].
      destruct (Hrequired eq_refl) as [w Hw]. discriminate. }
    apply fill_keeps. apply fill_default; try assumption.
    unfold declared_names in Hnd. apply NoDup_app in Hnd. tauto.
Qed.

(** What a successful parse of built commands went through. *)
Lemma parse_args_Return_inv (repr : value -> string) (cmds : list Command)
  (args : list string) (a : Args) :
  Forall (constructed repr) cmds
  -> Forall ordinary_names cmds
  -> parse_args repr cmds args = Return a
  -> exists cmd st,
       In cmd cmds /\ constructed repr cmd /\ ordinary_names cmd
       /\ scan_inv cmd st /\ flags_typed cmd (values st)
       /\ missing_positional st = None /\ required_flags st = ∅
       /\ a = mkArgs (Command_name cmd)
                (fill_defaults flag_name Flag_is_optional flag_default
                   (cmd_flags cmd)
                   (fill_defaults param_name Param_is_optional param_default
                      (cmd_params cmd) (values st))).
Proof.
  intros Hall Hords Hret.
  pose proof (parse_args_stages repr cmds args) as Hs.
  unfold raise_ValueError in Hs.
  destruct args as [|first rest]; [congruence |].
  destruct (_find_command cmds first) as [cmd|] eqn:Hfind; [| congruence].
  clear Hs.
  destruct (parse_args_selected repr cmds first rest cmd Hall Hfind)
    as (Hin & Hc & r & Hloop & Hpa).
  assert (Hon : ordinary_names cmd).
  { rewrite Forall_forall in Hords. apply Hords, list_elem_of_In, Hin. }
  pose proof (parse_loop_typed repr cmd (length (first :: rest))
                (initial_parser cmds (first :: rest) cmd)
                (constructed_NoDup _ _ Hc) Hon eq_refl
                (flags_typed_empty cmd))
    as Hty.
  rewrite Hloop in Hty. rewrite Hpa in Hret.
  destruct r as [st|e']; simpl in Hret; [| discriminate].
  apply finish_Return in Hret as (Hmiss & Hreq & ->).
  exists cmd, st. repeat split; try assumption.
  - eapply scan_inv_loop; [| exact Hloop]. apply scan_inv_initial.
  - eapply scan_inv_loop; [| exact Hloop]. apply scan_inv_initial.
  - eapply scan_inv_loop; [| exact Hloop]. apply scan_inv_initial.
  - eapply scan_inv_loop; [| exact Hloop]. apply scan_inv_initial.
Qed.

(** X15. In the result of a successful parse of built commands whose
    declared names are ordinary (none is a name that the namespace
    inherits, such as [__class__]), every flag of the selected command has
    an entry, which is either the flag's declared default or has the shape
    of the flag's kind: a non-empty list for a valued flag, a positive
    counter for a count flag, [True] for a presence flag. *)
Theorem parse_args_entries_typed (repr : value -> string)
  (cmds : list Command) (args : list string) (a : Args) :
  Forall (constructed repr) cmds
  -> Forall ordinary_names cmds
  -> parse_args repr cmds args = Return a
  -> exists cmd,
       In cmd cmds
       /\ args_command a = cmd_name cmd
       /\ forall f, In f (cmd_flags cmd)
                    -> exists v,
                         args_values a !! flag_name f = Some v
                         /\ (v = flag_default f
                             \/ entry_typed (flag_kind f) v).
Proof.
  intros Hall Hords Hret.
  destruct (parse_args_Return_inv repr cmds args a Hall Hords Hret)
    as (cmd & st & Hin & Hc & Hon & Hinv & Hty & Hmiss & Hreq & ->).
  exists cmd. split; [exact Hin |]. split; [reflexivity |].
  intros f Hf. simpl.
  rewrite (flag_entry_final cmd st f (constructed_NoDup _ _ Hc) Hon Hinv Hreq
             Hf).
  eexists. split; [reflexivity |].
  destruct (values st !! flag_name f) as [v|] eqn:Hv; simpl.
  - right. exact (Hty f v Hf Hv).
  - left. reflexivity.
Qed.

Lemma parse_args_entries_typed_witness :
  (Forall (constructed sample_repr) [run_command None]
   /\ Forall ordinary_names [run_command None]
   /\ parse_args sample_repr [run_command None] ["run"; "img"; "-v"]
      = Return run_img_v_result)
  /\ exists cmd,
       In cmd [run_command None]
       /\ args_command run_img_v_result = cmd_name cmd
       /\ forall f, In f (cmd_flags cmd)
                    -> exists v,
                         args_values run_img_v_result !! flag_name f = Some v
                         /\ (v = flag_default f
                             \/ entry_typed (flag_kind f) v).
Proof.
  assert (Hc : Forall (constructed sample_repr) [run_command None])
    by (constructor; [exact run_command_constructed | constructor]).
  assert (Hr : parse_args sample_repr [run_command None] ["run"; "img"; "-v"]
               = Return run_img_v_result)
    by (vm_compute; reflexivity).
  assert (Ho : Forall ordinary_names [run_command None])
    by (constructor; [exact (run_command_ordinary None) | constructor]).
  split; [split; [exact Hc | split; [exact Ho | exact Hr]] |].
  exact (parse_args_entries_typed sample_repr [run_command None]
           ["run"; "img"; "-v"] run_img_v_result Hc Ho Hr).
Defined.

(** ** Positional tokens *)

Lemma drop_cons_inv {A : Type} (l : list A) (n : nat) (x : A) (r : list A) :
  drop n l = x :: r -> l !! n = Some x /\ drop (S n) l = r.
Proof.
  intros H.
  assert (Hx : l !! n = Some x).
  { pose proof (lookup_drop l n 0) as Hl. rewrite H in Hl. simpl in Hl.
    rewrite Nat.add_0_r in Hl. symmetry. exact Hl. }
  split; [exact Hx |].
  rewrite (drop_S l x n Hx) in H. injection H as H. exact H.
Qed.

Lemma parse_positional_plain (repr : value -> string) (st : _ArgParse)
  (t : string) (p : Param) :
  cmd_params (command st) !! param_idx st = Some p
  -> param_parser p = None
  -> ordinary (param_name p)
  -> parse_positional repr st t
     = Return (set_values (set_param_idx st (param_idx st + 1))
                 (<[param_name p := VStr t]> (values st))).
Proof.
  intros Hp Hnone Hord. unfold parse_positional. rewrite Hp, Hnone.
  replace (length (cmd_params (command st)) <=? param_idx st)%nat with false
    by (symmetry; apply Nat.leb_gt; eapply lookup_lt_Some; exact Hp).
  simpl. rewrite (ordinary_setattr _ _ _ Hord). reflexivity.
Qed.

Lemma parse_token_positional (repr : value -> string) (st : _ArgParse)
  (t : string) :
  argv st !! idx st = Some t
  -> Py.startswith t "-" = false
  -> parse_token repr st = parse_positional repr (set_idx st (idx st + 1)) t.
Proof.
  intros Ht Hd. unfold parse_token.
  rewrite Ht, (startswith_one_dash _ Hd), Hd. reflexivity.
Qed.

(** The loop over tokens that are all positional, for parameters with
    ordinary names and without conversion functions: the tokens go to the
    parameters in order, and the first token beyond the last parameter
    raises the unexpected-argument error. *)
Lemma positional_run (repr : value -> string) (cmd : Command)
  (toks : list string) :
  Forall (fun t => Py.startswith t "-" = false) toks
  -> Forall (fun p => param_parser p = None) (cmd_params cmd)
  -> ordinary_names cmd
  -> forall (st : _ArgParse) (fuel : nat),
      command st = cmd
      -> drop (idx st) (argv st) = toks
      -> (length toks <= fuel)%nat
      -> (param_idx st <= length (cmd_params cmd))%nat
      -> parse_loop repr fuel st
         = if (length toks + param_idx st <=? length (cmd_params cmd))%nat
           then
             Some (Return
                     {| commands := commands st; argv := argv st;
                        command := command st;
                        idx := idx st + length toks;
                        param_idx := param_idx st + length toks;
                        values :=
                          store_positionals
                            (drop (param_idx st) (cmd_params cmd)) toks
                            (values st);
                        required_flags := required_flags st |})
           else
             Some (raise_ValueError
                     (Command_name cmd +:+ ": unexpected argument "
                      +:+ repr (VStr (nth (length (cmd_params cmd)
                                           - param_idx st) toks "")))).
Proof.
  intros Hnodash Hnoparser Hon.
  induction toks as [|t rest IH]; intros st fuel Hcmd Hdrop Hfuel Hpi.
  - assert (Hge : (length (argv st) <= idx st)%nat).
    { apply (f_equal length) in Hdrop. rewrite length_drop in Hdrop.
      simpl in Hdrop. lia. }
    apply Nat.ltb_ge in Hge. simpl length. rewrite !Nat.add_0_r.
    replace (0 + param_idx st <=? length (cmd_params cmd))%nat
      with true by (symmetry; apply Nat.leb_le; simpl; lia).
    assert (Hst : {| commands := commands st; argv := argv st;
                     command := command st; idx := idx st;
                     param_idx := param_idx st;
                     values :=
                       store_positionals
                         (drop (param_idx st) (cmd_params cmd)) []
                         (values st);
                     required_flags := required_flags st |} = st).
    { unfold store_positionals.
      replace (zip (drop (param_idx st) (cmd_params cmd)) (@nil string))
        with (@nil (Param * string))
        by (destruct (drop (param_idx st) (cmd_params cmd)); reflexivity).
      destruct st; reflexivity. }
    rewrite Hst. destruct fuel; simpl; rewrite Hge; reflexivity.
  - apply drop_cons_inv in Hdrop as [Ht Hrest].
    apply Forall_cons in Hnodash as [Hd Hnd'].
    specialize (IH Hnd'). subst cmd.
    destruct fuel as [|fuel]; [simpl in Hfuel; lia |].
    simpl parse_loop.
    replace (idx st <? length (argv st))%nat with true
      by (symmetry; apply Nat.ltb_lt; eapply lookup_lt_Some; exact Ht).
    rewrite (parse_token_positional repr st t Ht Hd).
    destruct (cmd_params (command st) !! param_idx st) as [p|] eqn:Hp.
    + rewrite (parse_positional_plain repr (set_idx st (idx st + 1)) t p);
        [| exact Hp | |].
      2: { rewrite Forall_forall in Hnoparser. apply Hnoparser.
           eapply list_elem_of_lookup_2. exact Hp. }
      2: { apply (ordinary_param (command st) p Hon).
           apply list_elem_of_In. eapply list_elem_of_lookup_2. exact Hp. }
      pose proof (lookup_lt_Some _ _ _ Hp) as Hlt.
      rewrite IH;
        [| reflexivity
         | cbn [idx argv set_values set_param_idx set_idx];
           rewrite Nat.add_1_r; exact Hrest
         | simpl in Hfuel; lia
         | cbn [param_idx set_values set_param_idx set_idx]; lia].
      cbn [commands argv command idx param_idx values required_flags
           set_values set_param_idx set_idx].
      replace (length (t :: rest) + param_idx st
               <=? length (cmd_params (command st)))%nat
        with (length rest + (param_idx st + 1)
              <=? length (cmd_params (command st)))%nat
        by (f_equal; simpl; lia).
      destruct (length rest + (param_idx st + 1)
                <=? length (cmd_params (command st)))%nat.
      * do 2 f_equal. f_equal; [simpl; lia | simpl; lia |].
        unfold store_positionals.
        rewrite (drop_S _ _ _ Hp). simpl.
        replace (param_idx st + 1)%nat with (S (param_idx st)) by lia.
        reflexivity.
      * do 5 f_equal.
        replace (length (cmd_params (command st)) - param_idx st)%nat
          with (S (length (cmd_params (command st)) - (param_idx st + 1)))
          by lia.
        reflexivity.
    + pose proof (lookup_ge_None_1 _ _ Hp) as Hge.
      unfold parse_positional.
      cbn [command param_idx set_idx].
      replace (length (cmd_params (command st)) <=? param_idx st)%nat
        with true by (symmetry; apply Nat.leb_le; exact Hge).
      replace (length (t :: rest) + param_idx st
               <=? length (cmd_params (command st)))%nat
        with false by (symmetry; apply Nat.leb_gt; simpl; lia).
      replace (length (cmd_params (command st)) - param_idx st)%nat
        with 0%nat by lia.
      reflexivity.
Qed.

Lemma store_positionals_notin (params : list Param) (toks : list string)
  (vs : gmap string value) (n : string) :
  (forall p, In p params -> param_name p <> n)
  -> store_positionals params toks vs !! n = vs !! n.
Proof.
  unfold store_positionals. revert toks vs.
  induction params as [|q ps IH]; intros toks vs Hn; [reflexivity |].
  destruct toks as [|t ts]; [reflexivity |]. simpl.
  rewrite IH by (intros p Hp; apply Hn; right; exact Hp).
  apply lookup_insert_ne. apply Hn. left. reflexivity.
Qed.

Lemma store_positionals_lookup (params : list Param) (toks : list string)
  (vs : gmap string value) (i : nat) (p : Param) :
  NoDup (map param_name params)
  -> params !! i = Some p
  -> store_positionals params toks vs !! param_name p
     = match toks !! i with
       | Some t => Some (VStr t)
       | None => vs !! param_name p
       end.
Proof.
  revert toks vs i.
  induction params as [|q ps IH]; intros toks vs i Hnd Hi; [discriminate |].
  simpl in Hnd. apply NoDup_cons in Hnd as [Hq Hnd].
  destruct toks as [|t ts]; [reflexivity |].
  change (store_positionals (q :: ps) (t :: ts) vs)
    with (store_positionals ps ts (<[param_name q := VStr t]> vs)).
  destruct i as [|i]; simpl in Hi.
  - injection Hi as ->. simpl.
    rewrite store_positionals_notin; [apply lookup_insert_eq |].
    intros p' Hp' Heq. apply Hq. rewrite <- Heq.
    apply list_elem_of_In, in_map. exact Hp'.
  - simpl. rewrite (IH ts _ i Hnd Hi).
    destruct (ts !! i); [reflexivity |].
    apply lookup_insert_ne. intros Heq. apply Hq. rewrite Heq.
    apply list_elem_of_In, in_map, list_elem_of_In.
    eapply list_elem_of_lookup_2. exact Hi.
Qed.

Lemma seed_required_optional (flags : list Flag) :
  Forall (fun f => Flag_is_optional f = true) flags
  -> seed_required flags = ∅.
Proof.
  unfold seed_required. generalize (∅ : gset string).
  induction flags as [|f rest IH]; intros acc Hall; [reflexivity |].
  apply Forall_cons in Hall as [Hf Hrest]. simpl.
  unfold Flag_is_optional in Hf. unfold Flag_is_required.
  destruct (flag_required f); [discriminate |]. apply IH. exact Hrest.
Qed.

(** X16. When every token after the command is positional (none starts with a
    dash), on a built command whose declared names are ordinary (none is a
    name that the namespace inherits, such as [__class__]), whose required
    parameters come before the optional ones, whose parameters have no
    conversion function and whose flags are optional: the parse succeeds
    exactly when the tokens are no more than the parameters and the first
    parameter left without a token, if any, is optional.  The i-th parameter then holds
    the i-th token as it is, the others and the flags hold their defaults.
    With too many tokens the first one beyond the parameters raises the
    unexpected-argument error; with too few, the first parameter left
    raises the missing-required-argument error. *)
Theorem positional_tokens_fill_params (repr : value -> string)
  (cmds : list Command) (first : string) (toks : list string)
  (cmd : Command) :
  Forall (constructed repr) cmds
  -> _find_command cmds first = Some cmd
  -> ordinary_names cmd
  -> required_first (cmd_params cmd) = true
  -> Forall (fun t => Py.startswith t "-" = false) toks
  -> Forall (fun p => param_parser p = None) (cmd_params cmd)
  -> Forall (fun f => Flag_is_optional f = true) (cmd_flags cmd)
  -> match cmd_params cmd !! length toks with
     | Some p =>
         if Param_is_optional p then
           exists a, parse_args repr cmds (first :: toks) = Return a
                     /\ positional_result cmd toks a
         else
           parse_args repr cmds (first :: toks)
           = raise_ValueError ("missing required argument "
                               +:+ repr (VStr (param_name p)))
     | None =>
         if (length toks =? length (cmd_params cmd))%nat then
           exists a, parse_args repr cmds (first :: toks) = Return a
                     /\ positional_result cmd toks a
         else
           parse_args repr cmds (first :: toks)
           = raise_ValueError
               (Command_name cmd +:+ ": unexpected argument "
                +:+ repr (VStr (nth (length (cmd_params cmd)) toks "")))
     end.
Proof.
  intros Hall Hfind Hon Hrf Hnodash Hnoparser Hopt.
  destruct (parse_args_selected repr cmds first toks cmd Hall Hfind)
    as (Hin & Hc & r & Hloop & Hpa).
  pose proof (constructed_NoDup _ _ Hc) as Hnd.
  pose proof Hloop as Hrun.
  rewrite (positional_run repr cmd toks Hnodash Hnoparser Hon
             (initial_parser cmds (first :: toks) cmd)
             (length (first :: toks)) eq_refl eq_refl) in Hrun;
    [| simpl; lia | simpl; lia].
  cbn [param_idx idx argv commands command values required_flags
       initial_parser] in Hrun.
  rewrite Nat.add_0_r, drop_0 in Hrun.
  assert (Hsuccess :
            forall st,
              r = Return st
              -> param_idx st = length toks
              -> values st = store_positionals (cmd_params cmd) toks ∅
              -> required_flags st = ∅
              -> missing_positional st = None
              -> exists a, parse_args repr cmds (first :: toks) = Return a
                           /\ positional_result cmd toks a).
  { intros st -> Hpi Hvs Hreq Hmiss.
    assert (Hinv : scan_inv cmd st).
    { eapply scan_inv_loop; [| exact Hloop]. apply scan_inv_initial. }
    rewrite Hpa. simpl. unfold finish. rewrite Hmiss, Hreq.
    rewrite size_empty. simpl. rewrite finish_defaults.
    eexists. split; [reflexivity |].
    unfold positional_result. simpl.
    split; [reflexivity |]. split.
    - intros i p Hp.
      assert (Hp' : In p (cmd_params cmd)).
      { apply list_elem_of_In. eapply list_elem_of_lookup_2. exact Hp. }
      destruct (param_entry_final cmd st p Hnd Hon Hrf Hinv Hmiss Hp')
        as [-> _].
      rewrite Hvs, (store_positionals_lookup _ toks ∅ i p); [| | exact Hp].
      + destruct (toks !! i); reflexivity.
      + unfold declared_names in Hnd. apply NoDup_app in Hnd. tauto.
    - intros f Hf.
      rewrite (flag_entry_final cmd st f Hnd Hon Hinv Hreq Hf).
      rewrite Hvs, store_positionals_notin; [reflexivity |].
      intros p Hp Heq.
      exact (flag_param_names_differ cmd f p Hnd Hf Hp (eq_sym Heq)). }
  destruct (length toks <=? length (cmd_params cmd))%nat eqn:Hle.
  - apply Nat.leb_le in Hle.
    injection Hrun as Hr. subst r.
    assert (Hmp : missing_positional
                    {| commands := cmds; argv := first :: toks;
                       command := cmd; idx := S (length toks);
                       param_idx := length toks;
                       values := store_positionals (cmd_params cmd) toks ∅;
                       required_flags := seed_required (cmd_flags cmd) |}
                  = match cmd_params cmd !! length toks with
                    | Some p => if negb (Param_is_optional p) then Some p
                                else None
                    | None => None
                    end) by reflexivity.
    destruct (cmd_params cmd !! length toks) as [p|] eqn:Hp.
    + destruct (Param_is_optional p) eqn:Ho.
      * eapply Hsuccess;
          [reflexivity | reflexivity | reflexivity
           | apply seed_required_optional; exact Hopt | exact Hmp].
      * rewrite Hpa. simpl. unfold finish. rewrite Hmp. reflexivity.
    + apply lookup_ge_None in Hp.
      replace (length toks =? length (cmd_params cmd))%nat with true
        by (symmetry; apply Nat.eqb_eq; lia).
      eapply Hsuccess;
        [reflexivity | reflexivity | reflexivity
         | apply seed_required_optional; exact Hopt | exact Hmp].
  - apply Nat.leb_gt in Hle.
    rewrite (proj2 (lookup_ge_None _ _)) by lia.
    replace (length toks =? length (cmd_params cmd))%nat with false
      by (symmetry; apply Nat.eqb_neq; lia).
    injection Hrun as Hr. subst r. rewrite Hpa. simpl.
    rewrite Nat.sub_0_r. reflexivity.
Qed.

Lemma positional_tokens_fill_params_witness :
  (Forall (constructed sample_repr) [run_command None]
   /\ _find_command [run_command None] "run" = Some (run_command None)
   /\ ordinary_names (run_command None)
   /\ required_first (cmd_params (run_command None)) = true
   /\ Forall (fun t => Py.startswith t "-" = false) ["img"; "dark"]
   /\ Forall (fun p => param_parser p = None)
        (cmd_params (run_command None))
   /\ Forall (fun f => Flag_is_optional f = true)
        (cmd_flags (run_command None)))
  /\ exists a,
       parse_args sample_repr [run_command None] ["run"; "img"; "dark"]
       = Return a
       /\ positional_result (run_command None) ["img"; "dark"] a.
Proof.
  assert (Hc : Forall (constructed sample_repr) [run_command None])
    by (constructor; [exact run_command_constructed | constructor]).
  assert (H1 : Forall (fun t => Py.startswith t "-" = false) ["img"; "dark"])
    by (repeat constructor).
  assert (H2 : Forall (fun p => param_parser p = None)
                 (cmd_params (run_command None)))
    by (repeat constructor).
  assert (H3 : Forall (fun f => Flag_is_optional f = true)
                 (cmd_flags (run_command None)))
    by (repeat constructor).
  split;
    [split; [exact Hc |]; split; [reflexivity |];
     split; [exact (run_command_ordinary None) |];
     split; [reflexivity |]; repeat split; assumption |].
  exact (positional_tokens_fill_params sample_repr [run_command None] "run"
           ["img"; "dark"] (run_command None) Hc eq_refl
           (run_command_ordinary None) eq_refl H1 H2 H3).
Defined.

(** ** The help renderer: aligned columns *)

Lemma string_length_app (a b : string) :
  String.length (a +:+ b) = (String.length a + String.length b)%nat.
Proof.
  induction a as [|c r IH]; [reflexivity |].
  change (String c r +:+ b) with (String c (r +:+ b)).
  simpl. rewrite IH. reflexivity.
Qed.

Lemma spaces_length (n : nat) : String.length (Py.spaces n) = n.
Proof.
  induction n as [|n IH]; [reflexivity |]. simpl. rewrite IH. reflexivity.
Qed.

Lemma ljust_length (s : string) (w : nat) :
  (Py.len s <= w)%nat -> String.length (Py.ljust s w) = w.
Proof.
  unfold Py.ljust, Py.len. intros H.
  rewrite string_length_app, spaces_length. lia.
Qed.

Lemma max_width_fold (labels : list string) (acc : nat) :
  (acc <= fold_left (fun w label => Nat.max w (Py.len label)) labels acc)%nat
  /\ (forall l, In l labels
                -> (Py.len l
                    <= fold_left (fun w label => Nat.max w (Py.len label))
                         labels acc)%nat)
  /\ (fold_left (fun w label => Nat.max w (Py.len label)) labels acc = acc
      \/ exists l, In l labels
                   /\ Py.len l
                      = fold_left (fun w label => Nat.max w (Py.len label))
                          labels acc).
Proof.
  revert acc. induction labels as [|x rest IH]; intros acc; simpl.
  - split; [lia |]. split; [contradiction | left; reflexivity].
  - destruct (IH (Nat.max acc (Py.len x))) as (Hge & Hall & Hatt).
    split; [lia |]. split.
    + intros l [-> | Hl]; [lia | apply Hall; exact Hl].
    + destruct Hatt as [Heq | (l & Hl & Hlen)].
      * destruct (Nat.max_spec acc (Py.len x)) as [[_ Hm] | [_ Hm]].
        -- right. exists x. split; [left; reflexivity | congruence].
        -- left. congruence.
      * right. exists l. auto.
Qed.

Lemma zip_map_lookup {A : Type} (f : A -> string) (xs : list A) (i : nat)
  (l : string) :
  map f xs !! i = Some l
  -> exists x, xs !! i = Some x /\ l = f x
               /\ zip (map f xs) xs !! i = Some (f x, x).
Proof.
  revert i. induction xs as [|y ys IH]; intros i H; [discriminate |].
  destruct i as [|i]; simpl in *.
  - injection H as <-. exists y. auto.
  - apply IH. exact H.
Qed.

Lemma zip_map_length {A : Type} (f : A -> string) (xs : list A) :
  length (zip (map f xs) xs) = length xs.
Proof.
  induction xs as [|y ys IH]; simpl; [reflexivity |].
  rewrite IH. reflexivity.
Qed.

Lemma aligned_lines {A : Type} (f : A -> string) (g : A -> string)
  (xs : list A) :
  aligned_block (map f xs)
    (map (fun lx => "  " +:+ Py.ljust (fst lx) (max_width (map f xs)) +:+ " "
                    +:+ g (snd lx))
       (zip (map f xs) xs)).
Proof.
  unfold aligned_block, max_width.
  destruct (max_width_fold (map f xs) 0) as (_ & Hall & Hatt).
  split; [rewrite !length_map; apply zip_map_length |].
  split; [exact Hall |]. split.
  - intros Hne. destruct Hatt as [Heq | Hatt]; [| exact Hatt].
    destruct (map f xs) as [|l rest] eqn:Hm; [contradiction |].
    exists l. split; [left; reflexivity |].
    specialize (Hall l (or_introl eq_refl)). rewrite Heq in *. lia.
  - intros i l Hl. split.
    + apply ljust_length. apply Hall.
      apply list_elem_of_In. eapply list_elem_of_lookup_2. exact Hl.
    + destruct (zip_map_lookup f xs i l Hl) as (x & Hx & -> & Hz).
      exists (g x). rewrite list_lookup_fmap, Hz. reflexivity.
Qed.

(** X17. The three blocks of the help text have aligned columns: in the
    Arguments block, the Flags block and the Commands block, every line is
    two blanks, then the label padded with blanks to exactly the width of
    the widest label of that block, then a blank and the description; there
    is one line per parameter, flag or command, in declaration order. *)
Theorem help_blocks_aligned (repr : value -> string) :
  (forall params,
      aligned_block (map param_label params) (arguments_block repr params))
  /\ (forall flags, aligned_block (map flag_label flags) (flags_block flags))
  /\ (forall cmds,
         aligned_block (map command_label cmds) (commands_block cmds)).
Proof.
  split; [| split].
  - intros params. unfold arguments_block, param_line.
    apply (aligned_lines param_label
             (fun p => or_empty (param_description p) +:+ " "
                       +:+ (if truthy (param_default p)
                            then "(default " +:+ repr (param_default p)
                                 +:+ ")"
                            else ""))).
  - intros flags. unfold flags_block, flag_line.
    apply (aligned_lines flag_label
             (fun f => or_empty (flag_description f) +:+ " "
                       +:+ (if truthy (flag_default f)
                            then "(default {default!r})" else ""))).
  - intros cmds. unfold commands_block.
    apply (aligned_lines command_label
             (fun c => or_empty (cmd_description c))).
Qed.

(** ** Where the entries of parameters come from *)

Lemma try_convert_Return_inv (p : converter) (tok msg : string) (v : value) :
  try_convert p tok msg = Return v -> p tok = Return v.
Proof.
  unfold try_convert. destruct (p tok) as [w|e]; [auto |].
  destruct (is_interrupt (exc_cls e)); [discriminate |].
  destruct (is_Exception (exc_cls e)); discriminate.
Qed.

Lemma param_name_injective (cmd : Command) (p q : Param) :
  NoDup (declared_names cmd)
  -> In p (cmd_params cmd) -> In q (cmd_params cmd)
  -> param_name p = param_name q -> p = q.
Proof.
  unfold declared_names. intros Hnd Hp Hq Heq.
  apply NoDup_app in Hnd as (_ & _ & Hnd).
  apply list_elem_of_In, list_elem_of_lookup_1 in Hp as [i Hi].
  apply list_elem_of_In, list_elem_of_lookup_1 in Hq as [j Hj].
  assert (i = j).
  { eapply NoDup_lookup; [exact Hnd | |];
      rewrite list_lookup_fmap; [rewrite Hi | rewrite Hj]; simpl;
      [reflexivity | rewrite Heq; reflexivity]. }
  subst j. congruence.
Qed.

Lemma params_converted_flag_effect (cmd : Command) (toks : list string)
  (st st' : _ArgParse) :
  NoDup (declared_names cmd)
  -> command st = cmd
  -> params_converted cmd toks (values st)
  -> flag_effect st st'
  -> params_converted cmd toks (values st') /\ command st' = cmd.
Proof.
  intros Hnd Hcmd Hpc (flag & w & Hin & Hc & _ & Hv & _).
  rewrite Hcmd in Hin. split; [| congruence].
  intros q v Hq Hlook. rewrite Hv in Hlook.
  rewrite lookup_insert_ne in Hlook; [exact (Hpc q v Hq Hlook) |].
  exact (flag_param_names_differ cmd flag q Hnd Hin Hq).
Qed.

Lemma params_converted_short_flags (cmd : Command) (toks names : list string)
  (st st' : _ArgParse) :
  NoDup (declared_names cmd)
  -> command st = cmd
  -> params_converted cmd toks (values st)
  -> parse_short_flags st names = Return st'
  -> params_converted cmd toks (values st') /\ command st' = cmd.
Proof.
  intros Hnd. revert st.
  induction names as [|n rest IH]; intros st Hcmd Hpc H; simpl in H.
  - injection H as <-. auto.
  - destruct (parse_short_flag st n) as [st1|e] eqn:H1; [| discriminate].
    simpl in H. apply parse_short_flag_effect in H1.
    destruct (params_converted_flag_effect cmd toks st st1 Hnd Hcmd Hpc H1)
      as [Hpc1 Hcmd1].
    exact (IH st1 Hcmd1 Hpc1 H).
Qed.

Lemma params_converted_positional (repr : value -> string) (cmd : Command)
  (toks : list string) (st st' : _ArgParse) (arg_value : string) :
  NoDup (declared_names cmd)
  -> command st = cmd
  -> In arg_value toks
  -> params_converted cmd toks (values st)
  -> parse_positional repr st arg_value = Return st'
  -> params_converted cmd toks (values st') /\ command st' = cmd.
Proof.
  intros Hnd Hcmd Htok Hpc H.
  apply parse_positional_Return in H as (param & w & Hparam & Hconv & _ & ->).
  rewrite Hcmd in Hparam.
  assert (Hin : In param (cmd_params cmd)).
  { apply list_elem_of_In. eapply list_elem_of_lookup_2. exact Hparam. }
  assert (Hw : match param_parser param with
               | Some p => p arg_value = Return w
               | None => w = VStr arg_value
               end).
  { destruct (param_parser param) as [p|]; [| exact Hconv].
    eapply try_convert_Return_inv. exact Hconv. }
  simpl. split; [| exact Hcmd].
  intros q v Hq Hlook.
  destruct (decide (param_name param = param_name q)) as [Heq | Hne].
  - rewrite Heq, lookup_insert_eq in Hlook. injection Hlook as <-.
    rewrite <- (param_name_injective cmd param q Hnd Hin Hq Heq).
    exists arg_value. auto.
  - rewrite lookup_insert_ne in Hlook by exact Hne. exact (Hpc q v Hq Hlook).
Qed.

Lemma params_converted_token (repr : value -> string) (cmd : Command)
  (st st' : _ArgParse) :
  NoDup (declared_names cmd)
  -> command st = cmd
  -> params_converted cmd (argv st) (values st)
  -> parse_token repr st = Return st'
  -> params_converted cmd (argv st') (values st') /\ command st' = cmd.
Proof.
  intros Hnd Hcmd Hpc H.
  pose proof (parse_token_frame _ _ _ H) as ((_ & Ha & _ & _) & _).
  rewrite Ha. unfold parse_token in H.
  destruct (argv st !! idx st) as [arg_value|] eqn:Htok; [| discriminate].
  destruct (Py.startswith arg_value "--").
  - apply parse_long_effect in H.
    exact (params_converted_flag_effect cmd (argv st)
             (set_idx st (idx st + 1)) st' Hnd Hcmd Hpc H).
  - destruct (Py.startswith arg_value "-").
    + unfold _parse_short in H. destruct (_ =? 0)%nat; [discriminate |].
      exact (params_converted_short_flags cmd (argv st) _
               (set_idx st (idx st + 1)) st' Hnd Hcmd Hpc H).
    + apply (params_converted_positional repr cmd (argv st)
               (set_idx st (idx st + 1)) st' arg_value Hnd Hcmd);
        [| exact Hpc | exact H].
      apply list_elem_of_In. eapply list_elem_of_lookup_2. exact Htok.
Qed.

Lemma params_converted_loop (repr : value -> string) (cmd : Command)
  (fuel : nat) (st st' : _ArgParse) :
  NoDup (declared_names cmd)
  -> command st = cmd
  -> params_converted cmd (argv st) (values st)
  -> parse_loop repr fuel st = Some (Return st')
  -> params_converted cmd (argv st) (values st').
Proof.
  intros Hnd. revert st.
  induction fuel as [|fuel IH]; intros st Hcmd Hpc H; simpl in H.
  - destruct (idx st <? length (argv st))%nat; [discriminate |].
    injection H as <-. exact Hpc.
  - destruct (idx st <? length (argv st))%nat.
    + destruct (parse_token repr st) as [st1|e] eqn:Ht; [| discriminate].
      pose proof (parse_token_frame _ _ _ Ht) as ((_ & Ha & _ & _) & _).
      destruct (params_converted_token repr cmd st st1 Hnd Hcmd Hpc Ht)
        as [Hpc1 Hcmd1].
      rewrite <- Ha. exact (IH st1 Hcmd1 Hpc1 H).
    + injection H as <-. exact Hpc.
Qed.

(** The loop result for built commands, with the provenance of the
    parameter entries. *)
Lemma parse_args_Return_converted (repr : value -> string)
  (cmds : list Command) (args : list string) (a : Args) :
  Forall (constructed repr) cmds
  -> Forall ordinary_names cmds
  -> parse_args repr cmds args = Return a
  -> exists cmd st,
       In cmd cmds /\ constructed repr cmd
       /\ (exists rest, args = hd "" args :: rest
                        /\ _find_command cmds (hd "" args) = Some cmd)
       /\ scan_inv cmd st /\ flags_typed cmd (values st)
       /\ params_converted cmd args (values st)
       /\ missing_positional st = None /\ required_flags st = ∅
       /\ a = mkArgs (Command_name cmd)
                (fill_defaults flag_name Flag_is_optional flag_default
                   (cmd_flags cmd)
                   (fill_defaults param_name Param_is_optional param_default
                      (cmd_params cmd) (values st))).
Proof.
  intros Hall Hords Hret.
  pose proof (parse_args_stages repr cmds args) as Hs.
  unfold raise_ValueError in Hs.
  destruct args as [|first rest]; [congruence |].
  destruct (_find_command cmds first) as [cmd|] eqn:Hfind; [| congruence].
  clear Hs.
  destruct (parse_args_selected repr cmds first rest cmd Hall Hfind)
    as (Hin & Hc & r & Hloop & Hpa).
  pose proof (constructed_NoDup _ _ Hc) as Hnd.
  assert (Hon : ordinary_names cmd).
  { rewrite Forall_forall in Hords. apply Hords, list_elem_of_In, Hin. }
  pose proof (parse_loop_typed repr cmd (length (first :: rest))
                (initial_parser cmds (first :: rest) cmd)
                Hnd Hon eq_refl (flags_typed_empty cmd))
    as Hty.
  rewrite Hloop in Hty. rewrite Hpa in Hret.
  destruct r as [st|e']; simpl in Hret; [| discriminate].
  apply finish_Return in Hret as (Hmiss & Hreq & ->).
  exists cmd, st.
  split; [exact Hin |]. split; [exact Hc |].
  split; [exists rest; auto |].
  split; [eapply scan_inv_loop; [| exact Hloop]; apply scan_inv_initial |].
  split; [exact Hty |].
  split; [| auto].
  apply (params_converted_loop repr cmd (length (first :: rest))
           (initial_parser cmds (first :: rest) cmd) st Hnd eq_refl);
    [| exact Hloop].
  intros q v _ Hv. simpl in Hv. rewrite lookup_empty in Hv. discriminate.
Qed.

(** X18. In the result of a successful parse of built commands whose
    declared names are ordinary (none is a name that the namespace
    inherits, such as [__class__]) and whose required parameters come
    before the optional ones, every parameter of the selected command has
    an entry, which is either the default of an optional parameter that
    got no token, or comes from one of the tokens: what the parameter's
    conversion function returned on it, or the token itself when there is
    no conversion function.  A required parameter always has the
    latter. *)
Theorem param_entries_converted (repr : value -> string)
  (cmds : list Command) (args : list string) (a : Args) :
  Forall (constructed repr) cmds
  -> Forall ordinary_names cmds
  -> Forall (fun c => required_first (cmd_params c) = true) cmds
  -> parse_args repr cmds args = Return a
  -> exists cmd,
       In cmd cmds
       /\ args_command a = cmd_name cmd
       /\ forall q, In q (cmd_params cmd)
                    -> exists v,
                         args_values a !! param_name q = Some v
                         /\ ((Param_is_optional q = true
                              /\ v = param_default q)
                             \/ exists tok,
                                  In tok args
                                  /\ match param_parser q with
                                     | Some p => p tok = Return v
                                     | None => v = VStr tok
                                     end).
Proof.
  intros Hall Hords Hrfs Hret.
  destruct (parse_args_Return_converted repr cmds args a Hall Hords Hret)
    as (cmd & st & Hin & Hc & _ & Hinv & _ & Hpc & Hmiss & Hreq & ->).
  exists cmd. split; [exact Hin |]. split; [reflexivity |].
  intros q Hq. simpl.
  assert (Hon : ordinary_names cmd).
  { rewrite Forall_forall in Hords. apply Hords, list_elem_of_In, Hin. }
  assert (Hrf : required_first (cmd_params cmd) = true).
  { rewrite Forall_forall in Hrfs. apply Hrfs, list_elem_of_In, Hin. }
  destruct (param_entry_final cmd st q (constructed_NoDup _ _ Hc) Hon
              Hrf Hinv Hmiss Hq)
    as [-> Hrequired].
  eexists. split; [reflexivity |].
  destruct (values st !! param_name q) as [v|] eqn:Hv; simpl.
  - right. exact (Hpc q v Hq Hv).
  - left. split; [| reflexivity].
    destruct (Param_is_optional q) eqn:Ho; [reflexivity |].
    destruct (Hrequired eq_refl) as [w Hw]. discriminate.
Qed.

Lemma param_entries_converted_witness :
  (Forall (constructed sample_repr) [run_command None]
   /\ Forall ordinary_names [run_command None]
   /\ Forall (fun c => required_first (cmd_params c) = true)
        [run_command None]
   /\ parse_args sample_repr [run_command None] ["run"; "img"; "-v"]
      = Return run_img_v_result)
  /\ exists cmd,
       In cmd [run_command None]
       /\ args_command run_img_v_result = cmd_name cmd
       /\ forall q, In q (cmd_params cmd)
                    -> exists v,
                         args_values run_img_v_result !! param_name q
                         = Some v
                         /\ ((Param_is_optional q = true
                              /\ v = param_default q)
                             \/ exists tok,
                                  In tok ["run"; "img"; "-v"]
                                  /\ match param_parser q with
                                     | Some p => p tok = Return v
                                     | None => v = VStr tok
                                     end).
Proof.
  assert (Hc : Forall (constructed sample_repr) [run_command None])
    by (constructor; [exact run_command_constructed | constructor]).
  assert (Hr : parse_args sample_repr [run_command None] ["run"; "img"; "-v"]
               = Return run_img_v_result)
    by (vm_compute; reflexivity).
  assert (Ho : Forall ordinary_names [run_command None])
    by (constructor; [exact (run_command_ordinary None) | constructor]).
  assert (Hf : Forall (fun c => required_first (cmd_params c) = true)
                 [run_command None])
    by (constructor; [reflexivity | constructor]).
  split; [split; [exact Hc |]; split; [exact Ho |];
          split; [exact Hf | exact Hr] |].
  exact (param_entries_converted sample_repr [run_command None]
           ["run"; "img"; "-v"] run_img_v_result Hc Ho Hf Hr).
Defined.

(** ** The commands of [image.py] *)

Lemma image_help_constructed (repr : value -> string) :
  constructed repr image_help.
Proof.
  exists "help", (Some "print help"),
    {| cmd_name := "help"; cmd_description := Some "print help";
       cmd_short := []; cmd_long := []; cmd_disable_name := false;
       cmd_flags := []; cmd_params := [] |},
    (map OnCommand
       [CallShort "-h"; CallLong "--help";
        CallArg (IParam {| param_name := "command";
                           param_description := None;
                           param_required := false; param_parser := None;
                           param_default := VNone |})]).
  split; reflexivity.
Qed.

Lemma image_brightness_constructed (repr : value -> string)
  (Image_open float_of : converter) :
  constructed repr (image_brightness Image_open float_of).
Proof.
  exists "brightness", (Some "adjust the brightness of an image"),
    {| cmd_name := "brightness";
       cmd_description := Some "adjust the brightness of an image";
       cmd_short := []; cmd_long := []; cmd_disable_name := false;
       cmd_flags := []; cmd_params := [] |},
    (map OnCommand
       [CallArg (IParam {| param_name := "image";
                           param_description := Some "the file to open";
                           param_required := true;
                           param_parser := Some Image_open;
                           param_default := VNone |});
        CallArg (IParam {| param_name := "brightness";
                           param_description :=
                             Some "the new brightness value, (0.0..1.0 is the standard range)";
                           param_required := true;
                           param_parser := Some float_of;
                           param_default := VNone |});
        CallArg (IFlag {| flag_name := "output";
                          flag_description := Some "the output file path";
                          flag_required := false; flag_short := ["-o"];
                          flag_long := ["--output"]; flag_parser := None;
                          flag_kind := valued; flag_default := VNone |})]).
  split; reflexivity.
Qed.

(** X19. The builder calls that define [COMMANDS] in [image.py] all succeed, and
    every successful parse against them gives what the script reads
    afterwards.  The command of the result is ["help"] or ["brightness"],
    whatever alias or letter case selected it.  For [help], [command] is
    [None] or a token.  For [brightness], [image] is what [Image.open]
    returned on a token, [brightness] is what [float] returned on a token,
    and [output] is [None] or a non-empty list, so that [input.output[0]]
    is there whenever [input.output] is truthy. *)
Theorem image_commands_results (repr : value -> string)
  (Image_open float_of : converter) :
  image_COMMANDS repr Image_open float_of
  = Return [image_help; image_brightness Image_open float_of]
  /\ forall (args : list string) (a : Args),
       parse_args repr [image_help; image_brightness Image_open float_of]
         args = Return a
       -> (args_command a = "help"
           /\ (args_values a !! "command" = Some VNone
               \/ exists tok, In tok args
                              /\ args_values a !! "command"
                                 = Some (VStr tok)))
          \/ (args_command a = "brightness"
              /\ (exists tok img,
                     In tok args /\ Image_open tok = Return img
                     /\ args_values a !! "image" = Some img)
              /\ (exists tok br,
                     In tok args /\ float_of tok = Return br
                     /\ args_values a !! "brightness" = Some br)
              /\ (args_values a !! "output" = Some VNone
                  \/ exists x l,
                       args_values a !! "output" = Some (VList (x :: l)))).
Proof.
  split; [reflexivity |].
  intros args a Hret.
  assert (Hall : Forall (constructed repr)
                   [image_help; image_brightness Image_open float_of]).
  { constructor; [apply image_help_constructed |].
    constructor; [apply image_brightness_constructed | constructor]. }
  assert (Hords : Forall ordinary_names
                    [image_help; image_brightness Image_open float_of])
    by (repeat constructor).
  destruct (parse_args_Return_converted repr _ args a Hall Hords Hret)
    as (cmd & st & Hin & Hc & _ & Hinv & Hty & Hpc & Hmiss & Hreq & ->).
  pose proof (constructed_NoDup _ _ Hc) as Hnd.
  assert (Hon : ordinary_names cmd).
  { rewrite Forall_forall in Hords. apply Hords, list_elem_of_In, Hin. }
  assert (Hrf : required_first (cmd_params cmd) = true)
    by (destruct Hin as [<- | [<- | []]]; reflexivity).
  destruct Hin as [<- | [<- | []]]; simpl args_command; simpl args_values.
  - left. split; [reflexivity |].
    destruct (param_entry_final image_help st
                {| param_name := "command"; param_description := None;
                   param_required := false; param_parser := None;
                   param_default := VNone |}
                Hnd Hon Hrf Hinv Hmiss (or_introl eq_refl)) as [Hfinal _].
    simpl in Hfinal. rewrite Hfinal.
    destruct (values st !! "command") as [v|] eqn:Hv; simpl.
    + right.
      destruct (Hpc _ v (or_introl eq_refl) Hv) as (tok & Htok & Hval).
      simpl in Hval. subst v. exists tok. auto.
    + left. reflexivity.
  - right. split; [reflexivity |].
    set (pimage := {| param_name := "image";
                      param_description := Some "the file to open";
                      param_required := true;
                      param_parser := Some Image_open;
                      param_default := VNone |}).
    set (pbright := {| param_name := "brightness";
                       param_description :=
                         Some "the new brightness value, (0.0..1.0 is the standard range)";
                       param_required := true;
                       param_parser := Some float_of;
                       param_default := VNone |}).
    set (foutput := {| flag_name := "output";
                       flag_description := Some "the output file path";
                       flag_required := false; flag_short := ["-o"];
                       flag_long := ["--output"]; flag_parser := None;
                       flag_kind := valued; flag_default := VNone |}).
    assert (Hpi : In pimage
                    (cmd_params (image_brightness Image_open float_of)))
      by (left; reflexivity).
    assert (Hpb : In pbright
                    (cmd_params (image_brightness Image_open float_of)))
      by (right; left; reflexivity).
    assert (Hfo : In foutput
                    (cmd_flags (image_brightness Image_open float_of)))
      by (left; reflexivity).
    destruct (param_entry_final _ st pimage Hnd Hon Hrf Hinv Hmiss Hpi)
      as [Hfi Hri].
    destruct (param_entry_final _ st pbright Hnd Hon Hrf Hinv Hmiss Hpb)
      as [Hfb Hrb].
    pose proof (flag_entry_final _ st foutput Hnd Hon Hinv Hreq Hfo) as Hff.
    simpl in Hfi, Hfb, Hff. rewrite Hfi, Hfb, Hff.
    destruct (Hri eq_refl) as [img Himg].
    destruct (Hrb eq_refl) as [br Hbr].
    simpl in Himg, Hbr. rewrite Himg, Hbr. simpl.
    destruct (Hpc pimage img Hpi Himg) as (tok1 & Ht1 & Hv1).
    destruct (Hpc pbright br Hpb Hbr) as (tok2 & Ht2 & Hv2).
    simpl in Hv1, Hv2.
    split; [exists tok1, img; auto |].
    split; [exists tok2, br; auto |].
    destruct (values st !! "output") as [v|] eqn:Hv; simpl.
    + right. specialize (Hty foutput v Hfo Hv). simpl in Hty.
      destruct Hty as (l & -> & Hl).
      destruct l as [|x l]; [contradiction |]. eauto.
    + left. reflexivity.
Qed.

Lemma image_commands_results_witness :
  parse_args sample_repr
    [image_help; image_brightness sample_open sample_float]
    ["Brightness"; "cat.png"; "0.5"; "-o"; "out.png"]
  = Return brightness_sample_result
  /\ args_command brightness_sample_result = "brightness"
  /\ (exists tok img,
         In tok ["Brightness"; "cat.png"; "0.5"; "-o"; "out.png"]
         /\ sample_open tok = Return img
         /\ args_values brightness_sample_result !! "image" = Some img).
Proof.
  assert (Hr : parse_args sample_repr
                 [image_help; image_brightness sample_open sample_float]
                 ["Brightness"; "cat.png"; "0.5"; "-o"; "out.png"]
               = Return brightness_sample_result)
    by (vm_compute; reflexivity).
  split; [exact Hr |].
  destruct (proj2 (image_commands_results sample_repr sample_open
                     sample_float)
              ["Brightness"; "cat.png"; "0.5"; "-o"; "out.png"]
              brightness_sample_result Hr)
    as [[Hhelp _] | (Hb & Himg & _)].
  - discriminate Hhelp.
  - split; [exact Hb | exact Himg].
Defined.

(** ** Flags built by builder calls *)

Lemma after_flag_call_shaped (self : Flag) (call : flag_call) :
  flag_shaped self
  -> flag_shaped (after_flag_call self call)
     /\ flag_name (after_flag_call self call) = flag_name self
     /\ flag_description (after_flag_call self call) = flag_description self.
Proof.
  intros (Hr & Hs & Hl). unfold after_flag_call, apply_flag_call, flag_shaped.
  destruct call as [s | l | | p | | | v]; simpl; auto.
  - unfold Flag_short.
    pose proof (short_alias_shape (Py.strip s)) as Hshape.
    destruct (Py.startswith (Py.strip s) "--") eqn:H2; simpl; [auto |].
    destruct (Py.startswith (Py.strip s) "-") eqn:H1; simpl; [| auto].
    destruct (Py.len (Py.strip s) =? 2)%nat eqn:H0; simpl; [| auto].
    repeat split; try assumption.
    apply Forall_app. split; [exact Hs |].
    constructor; [| constructor]. apply Hshape. auto.
  - unfold Flag_long.
    pose proof (long_alias_shape (Py.strip l)) as Hshape.
    destruct (Py.startswith (Py.strip l) "--") eqn:H2; simpl; [| auto].
    destruct (Py.len (Py.strip l) =? 2)%nat eqn:H0; simpl; [auto |].
    repeat split; try assumption.
    apply Forall_app. split; [exact Hl |].
    constructor; [| constructor]. apply Hshape. auto.
  - unfold Flag_parser. destruct (negb _); simpl; auto.
Qed.

(** X20. A flag built from [Flag(name, description)] by builder calls keeps the
    trimmed name and the description it was given, is never required (no
    builder makes a flag required), and has well-formed aliases: every
    short alias is a dash and one other character, every long alias is two
    dashes followed by at least one character. *)
Theorem built_flag_shape (name : string) (description : option string)
  (f0 : Flag) (calls : list flag_call) :
  Flag_init name description = Return f0
  -> flag_name (run_flag_calls f0 calls) = Py.strip name
     /\ Py.strip name <> ""
     /\ flag_description (run_flag_calls f0 calls) = description
     /\ flag_shaped (run_flag_calls f0 calls).
Proof.
  intros Hinit. unfold Flag_init in Hinit.
  destruct (String.eqb (Py.strip name) "") eqn:He; [discriminate |].
  apply String.eqb_neq in He. injection Hinit as <-.
  assert (H : forall f,
             flag_shaped f
             -> flag_name (run_flag_calls f calls) = flag_name f
                /\ flag_description (run_flag_calls f calls)
                   = flag_description f
                /\ flag_shaped (run_flag_calls f calls)).
  { unfold run_flag_calls.
    induction calls as [|call rest IH]; intros f Hf; simpl; [auto |].
    destruct (after_flag_call_shaped f call Hf) as (Hs & Hn & Hd).
    destruct (IH _ Hs) as (-> & -> & Hs'). auto. }
  destruct (H {| flag_name := Py.strip name; flag_description := description;
                 flag_required := false; flag_short := []; flag_long := [];
                 flag_parser := None; flag_kind := present;
                 flag_default := VNone |}) as (Hn & Hd & Hs).
  { repeat split; constructor. }
  simpl in Hn, Hd. auto.
Qed.

Lemma built_flag_shape_witness :
  Flag_init " output " (Some "the output file path")
  = Return {| flag_name := "output";
              flag_description := Some "the output file path";
              flag_required := false; flag_short := []; flag_long := [];
              flag_parser := None; flag_kind := present;
              flag_default := VNone |}
  /\ (flag_name output_flag = Py.strip " output "
      /\ Py.strip " output " <> ""
      /\ flag_description output_flag = Some "the output file path"
      /\ flag_shaped output_flag).
Proof.
  split; [reflexivity |].
  exact (built_flag_shape " output " (Some "the output file path") _
           [FShort "-o"; FLong "--output"; FShort "--o"; FLong "--";
            FValued]
           eq_refl).
Defined.

(** ** Commands without required flags *)

Lemma track_required_none (st : _ArgParse) (flag : Flag) :
  required_flags st = ∅ -> track_required st flag = st.
Proof.
  intros H. unfold track_required. rewrite H.
  rewrite bool_decide_eq_false_2; [reflexivity |].
  apply not_elem_of_empty.
Qed.

Lemma parse_long_required (st st' : _ArgParse) (arg_value : string) :
  required_flags st = ∅
  -> _parse_long st arg_value = Return st' -> required_flags st' = ∅.
Proof.
  intros Hreq. unfold _parse_long.
  destruct (_find_long_flag st _) as [flag|]; [| discriminate].
  rewrite (track_required_none st flag Hreq). intros H.
  crack; simpl; try exact Hreq.
Qed.

Lemma parse_short_flag_required (st st' : _ArgParse) (fname : string) :
  required_flags st = ∅
  -> parse_short_flag st fname = Return st' -> required_flags st' = ∅.
Proof.
  intros Hreq. unfold parse_short_flag.
  destruct (_find_short_flag st _) as [flag|]; [| discriminate].
  rewrite (track_required_none st flag Hreq). intros H.
  crack; simpl; try exact Hreq.
Qed.

Lemma parse_short_flags_required (names : list string) (st st' : _ArgParse) :
  required_flags st = ∅
  -> parse_short_flags st names = Return st' -> required_flags st' = ∅.
Proof.
  revert st. induction names as [|n rest IH]; intros st Hreq H; simpl in H.
  - injection H as <-. exact Hreq.
  - destruct (parse_short_flag st n) as [st1|e] eqn:H1; [| discriminate].
    simpl in H. apply (IH st1); [| exact H].
    eapply parse_short_flag_required; eassumption.
Qed.

Lemma parse_token_required (repr : value -> string) (st st' : _ArgParse) :
  required_flags st = ∅
  -> parse_token repr st = Return st' -> required_flags st' = ∅.
Proof.
  intros Hreq H. unfold parse_token in H.
  destruct (argv st !! idx st) as [arg_value|]; [| discriminate].
  destruct (Py.startswith arg_value "--").
  - eapply parse_long_required; [| exact H]. exact Hreq.
  - destruct (Py.startswith arg_value "-").
    + unfold _parse_short in H. destruct (_ =? 0)%nat; [discriminate |].
      eapply parse_short_flags_required; [| exact H]. exact Hreq.
    + unfold parse_positional in H. crack; simpl; exact Hreq.
Qed.

Lemma reaches_required (repr : value -> string) (st0 st : _ArgParse) :
  reaches repr st0 st -> required_flags st0 = ∅ -> required_flags st = ∅.
Proof.
  induction 1 as [st | st st1 st2 Hlt Hstep Hr IH]; intros H0; [exact H0 |].
  apply IH. eapply parse_token_required; eassumption.
Qed.

(** X21. On a command whose flags are all optional, as the flags built by
    builder calls are, the working set of required flags is empty in every
    state the scanning loop goes through, so the missing-required-flags
    check never fails: after the scan, [parse_args] raises the
    missing-required-argument error or returns the result with the
    defaults filled in. *)
Theorem optional_flags_never_missing (repr : value -> string)
  (cmds : list Command) (args : list string) (cmd : Command)
  (st : _ArgParse) :
  Forall (fun f => Flag_is_optional f = true) (cmd_flags cmd)
  -> reaches repr (initial_parser cmds args cmd) st
  -> required_flags st = ∅
     /\ finish repr cmd st
        = match missing_positional st with
          | Some param =>
              raise_ValueError ("missing required argument "
                                +:+ repr (VStr (param_name param)))
          | None =>
              Return (mkArgs (Command_name cmd)
                        (fill_defaults flag_name Flag_is_optional
                           flag_default (cmd_flags cmd)
                           (fill_defaults param_name Param_is_optional
                              param_default (cmd_params cmd) (values st))))
          end.
Proof.
  intros Hopt Hreach.
  assert (Hreq : required_flags st = ∅).
  { apply (reaches_required repr _ _ Hreach).
    apply seed_required_optional. exact Hopt. }
  split; [exact Hreq |].
  unfold finish. rewrite Hreq, size_empty.
  destruct (missing_positional st); [reflexivity |].
  simpl. apply finish_defaults.
Qed.

Lemma optional_flags_never_missing_witness :
  (Forall (fun f => Flag_is_optional f = true) (cmd_flags copy_command)
   /\ reaches sample_repr
        (initial_parser [copy_command] ["copy"; "-f"] copy_command)
        (set_values
           (set_idx (initial_parser [copy_command] ["copy"; "-f"]
                       copy_command) 2)
           (<["force" := VBool true]> ∅)))
  /\ required_flags
       (set_values
          (set_idx (initial_parser [copy_command] ["copy"; "-f"]
                      copy_command) 2)
          (<["force" := VBool true]> ∅)) = ∅
  /\ finish sample_repr copy_command
       (set_values
          (set_idx (initial_parser [copy_command] ["copy"; "-f"]
                      copy_command) 2)
          (<["force" := VBool true]> ∅))
     = Return (mkArgs "copy"
                 (fill_defaults flag_name Flag_is_optional flag_default
                    [force_flag; verbose_flag; output_flag]
                    (<["force" := VBool true]> ∅))).
Proof.
  assert (H : Forall (fun f => Flag_is_optional f = true)
                (cmd_flags copy_command)) by (repeat constructor).
  assert (Hr : reaches sample_repr
                 (initial_parser [copy_command] ["copy"; "-f"] copy_command)
                 (set_values
                    (set_idx (initial_parser [copy_command] ["copy"; "-f"]
                                copy_command) 2)
                    (<["force" := VBool true]> ∅))).
  { eapply reaches_turn; [| | apply reaches_here].
    - simpl. lia.
    - vm_compute. reflexivity. }
  split; [split; [exact H | exact Hr] |].
  exact (optional_flags_never_missing sample_repr [copy_command]
           ["copy"; "-f"] copy_command _ H Hr).
Defined.

(** ** Tokens that start with a dash and name no flag *)

Lemma find_long_flag_in_None (flags : list Flag) (val : string) :
  Forall (fun g => ~ In val (flag_long g)) flags
  -> find_long_flag_in flags val = None.
Proof.
  intros Hall. pose proof (find_long_flag_in_first flags val) as H.
  destruct (find_long_flag_in flags val) as [f|]; [| reflexivity].
  destruct H as (pre & post & -> & Hin & _).
  rewrite Forall_app, Forall_cons in Hall. tauto.
Qed.

Lemma find_short_flag_in_None (flags : list Flag) (fname : string) :
  Forall (fun g => ~ In fname (flag_short g)) flags
  -> find_short_flag_in flags fname = None.
Proof.
  intros Hall. pose proof (find_short_flag_in_first flags fname) as H.
  destruct (find_short_flag_in flags fname) as [f|]; [| reflexivity].
  destruct H as (pre & post & -> & Hin & _).
  rewrite Forall_app, Forall_cons in Hall. tauto.
Qed.

Lemma long_name_hd (arg_value : string) :
  (if (length (Py.split_eq1 arg_value) =? 1)%nat then arg_value
   else nth 0 (Py.split_eq1 arg_value) "")
  = hd "" (Py.split_eq1 arg_value).
Proof.
  unfold Py.split_eq1. pose proof (cut_eq_split arg_value) as H.
  destruct (Py.cut_eq arg_value) as [a [b|]]; destruct H as [H _]; simpl;
    [reflexivity | exact H].
Qed.

(** X22. A token that starts with a dash is never taken as a positional value.
    Wherever the scan meets it: a lone [-] raises the invalid-argument
    error; a token starting with two dashes whose part before the first [=]
    is no long alias of a flag of the command raises the unknown-flag
    error; so does a cluster whose first character is no short alias.  The
    error ends [parse_args]. *)
Theorem dash_token_errors (repr : value -> string) (cmds : list Command)
  (first : string) (rest : list string) (cmd : Command) (st : _ArgParse)
  (tok : string) :
  _find_command cmds first = Some cmd
  -> reaches repr (initial_parser cmds (first :: rest) cmd) st
  -> argv st !! idx st = Some tok
  -> (tok = "-"
      -> parse_args repr cmds (first :: rest)
         = raise_ValueError "invalid argument '-'")
     /\ (Py.startswith tok "--" = true
         -> Forall (fun g => ~ In (hd "" (Py.split_eq1 tok)) (flag_long g))
              (cmd_flags cmd)
         -> parse_args repr cmds (first :: rest)
            = raise_ValueError
                (Command_name cmd +:+ ": unknown flag --"
                 +:+ hd "" (Py.split_eq1 tok)))
     /\ (forall ch more,
            tok = String "-" (String ch more)
            -> ch <> "-"%char
            -> Forall (fun g => ~ In (String "-" (String ch ""))
                                  (flag_short g))
                 (cmd_flags cmd)
            -> parse_args repr cmds (first :: rest)
               = raise_ValueError
                   (Command_name cmd +:+ ": unknown flag '-"
                    +:+ String "-" (String ch "") +:+ "'")).
Proof.
  intros Hfind Hreach Htok.
  pose proof (reaches_frame _ _ _ Hreach) as (_ & _ & Hcmd & _).
  simpl in Hcmd.
  assert (Hlt : (idx st < length (argv st))%nat)
    by (eapply lookup_lt_Some; exact Htok).
  split; [| split].
  - intros ->.
    apply (parse_args_raise_at repr cmds first rest cmd st _ Hfind Hreach Hlt).
    unfold parse_token. rewrite Htok. reflexivity.
  - intros Hs Hall.
    apply (parse_args_raise_at repr cmds first rest cmd st _ Hfind Hreach Hlt).
    unfold parse_token. rewrite Htok, Hs.
    unfold _parse_long. rewrite long_name_hd.
    unfold _find_long_flag. simpl command. rewrite Hcmd.
    rewrite (find_long_flag_in_None _ _ Hall). reflexivity.
  - intros ch more -> Hch Hall.
    apply (parse_args_raise_at repr cmds first rest cmd st _ Hfind Hreach Hlt).
    unfold parse_token. rewrite Htok.
    apply Ascii.eqb_neq in Hch.
    replace (Py.startswith (String "-" (String ch more)) "--") with false
      by (cbn; rewrite Hch; reflexivity).
    replace (Py.startswith (String "-" (String ch more)) "-") with true
      by reflexivity.
    unfold _parse_short, short_flag_names. simpl.
    unfold parse_short_flag, _find_short_flag. simpl command. rewrite Hcmd.
    change ("-" +:+ String ch "") with (String "-" (String ch "")).
    rewrite (find_short_flag_in_None _ _ Hall). reflexivity.
Qed.

Lemma dash_token_errors_witness :
  (_find_command [run_command None] "run" = Some (run_command None)
   /\ reaches sample_repr
        (initial_parser [run_command None] ["run"; "-"] (run_command None))
        (initial_parser [run_command None] ["run"; "-"] (run_command None))
   /\ argv (initial_parser [run_command None] ["run"; "-"]
              (run_command None))
      !! idx (initial_parser [run_command None] ["run"; "-"]
                (run_command None)) = Some "-")
  /\ parse_args sample_repr [run_command None] ["run"; "-"]
     = raise_ValueError "invalid argument '-'".
Proof.
  split; [split; [reflexivity | split; [constructor | reflexivity]] |].
  exact (proj1 (dash_token_errors sample_repr [run_command None] "run" ["-"]
                  (run_command None)
                  (initial_parser [run_command None] ["run"; "-"]
                     (run_command None))
                  "-" eq_refl (reaches_here _ _) eq_refl) eq_refl).
Defined.

(** ** A valued flag given several times *)

Lemma flag_value_tokens_length (alias : string) (vs : list string) :
  length (flag_value_tokens alias vs) = (2 * length vs)%nat.
Proof.
  induction vs as [|v rest IH]; [reflexivity |]. simpl. rewrite IH. lia.
Qed.

(** One occurrence [alias v] of a valued flag with an ordinary name and
    without conversion function, on a state without required flags. *)
Lemma parse_token_flag_value (repr : value -> string) (st : _ArgParse)
  (alias v : string) (flag : Flag) (l : list value) :
  ordinary (flag_name flag)
  -> required_flags st = ∅
  -> argv st !! idx st = Some alias
  -> argv st !! S (idx st) = Some v
  -> Py.startswith alias "--" = true
  -> ~ In "="%char (list_ascii_of_string alias)
  -> _find_long_flag st alias = Some flag
  -> flag_kind flag = valued
  -> flag_parser flag = None
  -> match values st !! flag_name flag with
     | None => l = []
     | Some w => w = VList l
     end
  -> parse_token repr st
     = Return {| commands := commands st; argv := argv st;
                 command := command st; idx := S (S (idx st));
                 param_idx := param_idx st;
                 values := <[flag_name flag := VList (l ++ [VStr v])]>
                             (values st);
                 required_flags := required_flags st |}.
Proof.
  intros Hord Hreq Ha Hv Hs Hno Hfind Hk Hp Hl.
  unfold parse_token. rewrite Ha, Hs.
  rewrite (parse_long_valued (set_idx st (idx st + 1)) alias flag);
    [| unfold Py.split_eq1; destruct (cut_eq_join alias "" Hno) as [_ ->];
       reflexivity
     | exact Hfind | exact Hk].
  cbn [argv idx set_idx]. rewrite Nat.add_1_r, Hv.
  rewrite track_required_none by exact Hreq.
  unfold store_taken. rewrite Hp. cbn [bind values set_idx].
  destruct (values st !! flag_name flag) as [w|] eqn:Hw; subst.
  - rewrite (append_value_list _ _ _ l)
      by (rewrite (ordinary_getattr _ _ Hord); exact Hw).
    simpl. rewrite Nat.add_1_r. reflexivity.
  - rewrite append_value_new
      by (rewrite (ordinary_getattr _ _ Hord); exact Hw).
    simpl. rewrite Nat.add_1_r. reflexivity.
Qed.

(** The loop over [alias v1 alias v2 ...]. *)
Lemma flag_values_run (repr : value -> string) (alias : string)
  (flag : Flag) (vs : list string) :
  Py.startswith alias "--" = true
  -> ~ In "="%char (list_ascii_of_string alias)
  -> flag_kind flag = valued
  -> flag_parser flag = None
  -> ordinary (flag_name flag)
  -> forall (st : _ArgParse) (l : list value) (fuel : nat),
      required_flags st = ∅
      -> _find_long_flag st alias = Some flag
      -> drop (idx st) (argv st) = flag_value_tokens alias vs
      -> match values st !! flag_name flag with
         | None => l = []
         | Some w => w = VList l
         end
      -> (2 * length vs <= fuel)%nat
      -> parse_loop repr fuel st
         = Some (Return
                   {| commands := commands st; argv := argv st;
                      command := command st;
                      idx := idx st + 2 * length vs;
                      param_idx := param_idx st;
                      values :=
                        match vs with
                        | [] => values st
                        | _ => <[flag_name flag
                                 := VList (l ++ map VStr vs)]> (values st)
                        end;
                      required_flags := required_flags st |}).
Proof.
  intros Hs Hno Hk Hp Hord.
  induction vs as [|v rest IH]; intros st l fuel Hreq Hfind Hdrop Hl Hfuel.
  - assert (Hge : (length (argv st) <= idx st)%nat).
    { apply (f_equal length) in Hdrop. rewrite length_drop in Hdrop.
      simpl in Hdrop. lia. }
    apply Nat.ltb_ge in Hge. simpl length. rewrite Nat.mul_0_r, Nat.add_0_r.
    replace {| commands := commands st; argv := argv st;
               command := command st; idx := idx st;
               param_idx := param_idx st; values := values st;
               required_flags := required_flags st |} with st
      by (destruct st; reflexivity).
    destruct fuel; simpl; rewrite Hge; reflexivity.
  - simpl in Hdrop.
    apply drop_cons_inv in Hdrop as [Ha Hdrop].
    apply drop_cons_inv in Hdrop as [Hv Hdrop].
    destruct fuel as [|fuel]; [simpl in Hfuel; lia |].
    simpl parse_loop.
    replace (idx st <? length (argv st))%nat with true
      by (symmetry; apply Nat.ltb_lt; eapply lookup_lt_Some; exact Ha).
    rewrite (parse_token_flag_value repr st alias v flag l
               Hord Hreq Ha Hv Hs Hno Hfind Hk Hp Hl).
    rewrite (IH _ (l ++ [VStr v])%list fuel);
      [| exact Hreq | exact Hfind | exact Hdrop
       | cbn [values]; rewrite lookup_insert_eq; reflexivity
       | simpl in Hfuel; lia].
    cbn [commands argv command idx param_idx values required_flags].
    do 2 f_equal. f_equal; [simpl; lia |].
    destruct rest as [|v' rest']; simpl.
    + reflexivity.
    + rewrite insert_insert_eq, <- app_assoc. reflexivity.
Qed.

(** X23. A valued flag given once per value, [alias v1 alias v2 ...], collects
    the values in the order met, each as it is written, also when a value
    starts with a dash.  On a built command whose declared names are
    ordinary (none is a name that the namespace inherits, such as
    [__doc__]), without required flags and whose first parameter, if any,
    is optional, the parse succeeds and the entry of the flag is the list
    of the values; with no occurrence it is the flag's default. *)
Theorem repeated_flag_accumulates (repr : value -> string)
  (cmds : list Command) (first alias : string) (cmd : Command)
  (flag : Flag) (vs : list string) :
  Forall (constructed repr) cmds
  -> _find_command cmds first = Some cmd
  -> ordinary_names cmd
  -> Py.startswith alias "--" = true
  -> ~ In "="%char (list_ascii_of_string alias)
  -> find_long_flag_in (cmd_flags cmd) alias = Some flag
  -> flag_kind flag = valued
  -> flag_parser flag = None
  -> Forall (fun f => Flag_is_optional f = true) (cmd_flags cmd)
  -> match cmd_params cmd !! 0%nat with
     | Some p => Param_is_optional p = true
     | None => True
     end
  -> exists a,
       parse_args repr cmds (first :: flag_value_tokens alias vs) = Return a
       /\ args_values a !! flag_name flag
          = Some (match vs with
                  | [] => flag_default flag
                  | _ => VList (map VStr vs)
                  end).
Proof.
  intros Hall Hfind Hon Hs Hno Hflag Hk Hp Hopt Hfirst.
  destruct (parse_args_selected repr cmds first (flag_value_tokens alias vs)
              cmd Hall Hfind) as (Hin & Hc & r & Hloop & Hpa).
  pose proof (constructed_NoDup _ _ Hc) as Hnd.
  pose proof (ordinary_flag cmd flag Hon (find_long_flag_in_In _ _ _ Hflag))
    as Hord.
  pose proof Hloop as Hrun.
  rewrite (flag_values_run repr alias flag vs Hs Hno Hk Hp Hord
             (initial_parser cmds (first :: flag_value_tokens alias vs) cmd)
             [] (length (first :: flag_value_tokens alias vs))) in Hrun.
  - injection Hrun as Hr. subst r.
    cbn [commands argv command idx param_idx values required_flags
         initial_parser] in *.
    set (st := {| commands := cmds;
                  argv := first :: flag_value_tokens alias vs;
                  command := cmd; idx := 1 + 2 * length vs; param_idx := 0;
                  values :=
                    match vs with
                    | [] => ∅
                    | _ :: _ => <[flag_name flag := VList ([] ++ map VStr vs)]> ∅
                    end;
                  required_flags := seed_required (cmd_flags cmd) |}) in *.
    assert (Hinv : scan_inv cmd st).
    { eapply scan_inv_loop; [| exact Hloop]. apply scan_inv_initial. }
    assert (Hreq : required_flags st = ∅)
      by (apply seed_required_optional; exact Hopt).
    assert (Hmiss : missing_positional st = None).
    { unfold missing_positional. simpl.
      destruct (cmd_params cmd !! 0%nat) as [p|]; [| reflexivity].
      rewrite Hfirst. reflexivity. }
    rewrite Hpa. cbn [bind].
    match goal with
    | |- context [finish repr cmd ?s] => change s with st
    end.
    unfold finish. rewrite Hmiss, Hreq, size_empty.
    change (0 <? 0)%nat with false. cbv iota. rewrite finish_defaults.
    eexists. split; [reflexivity |]. cbn [args_values].
    rewrite (flag_entry_final cmd st flag Hnd Hon Hinv Hreq
               (find_long_flag_in_In _ _ _ Hflag)).
    subst st. cbn [values]. destruct vs as [|v rest].
    + rewrite lookup_empty. reflexivity.
    + rewrite lookup_insert_eq. reflexivity.
  - apply seed_required_optional. exact Hopt.
  - exact Hflag.
  - reflexivity.
  - simpl. rewrite lookup_empty. reflexivity.
  - simpl. rewrite flag_value_tokens_length. lia.
Qed.

Lemma copy_command_constructed : constructed sample_repr copy_command.
Proof.
  exists "copy", None,
    {| cmd_name := "copy"; cmd_description := None; cmd_short := [];
       cmd_long := []; cmd_disable_name := false; cmd_flags := [];
       cmd_params := [] |},
    (map OnCommand
       [CallArg (IFlag force_flag); CallArg (IFlag verbose_flag);
        CallArg (IFlag output_flag)]).
  split; reflexivity.
Qed.

Lemma repeated_flag_accumulates_witness :
  (Forall (constructed sample_repr) [copy_command]
   /\ _find_command [copy_command] "copy" = Some copy_command
   /\ ordinary_names copy_command
   /\ Py.startswith "--output" "--" = true
   /\ ~ In "="%char (list_ascii_of_string "--output")
   /\ find_long_flag_in (cmd_flags copy_command) "--output"
      = Some output_flag
   /\ flag_kind output_flag = valued
   /\ flag_parser output_flag = None
   /\ Forall (fun f => Flag_is_optional f = true) (cmd_flags copy_command)
   /\ match cmd_params copy_command !! 0%nat with
      | Some p => Param_is_optional p = true
      | None => True
      end)
  /\ exists a,
       parse_args sample_repr [copy_command]
         ("copy" :: flag_value_tokens "--output" ["a"; "-b"]) = Return a
       /\ args_values a !! flag_name output_flag
          = Some (VList (map VStr ["a"; "-b"])).
Proof.
  assert (Hc : Forall (constructed sample_repr) [copy_command])
    by (constructor; [exact copy_command_constructed | constructor]).
  assert (Hno : ~ In "="%char (list_ascii_of_string "--output")).
  { simpl. intros Hin.
    repeat (destruct Hin as [Hin | Hin]; [discriminate Hin |]).
    exact Hin. }
  assert (Hopt : Forall (fun f => Flag_is_optional f = true)
                   (cmd_flags copy_command))
    by (repeat constructor).
  assert (Hon : ordinary_names copy_command) by (repeat constructor).
  split;
    [split; [exact Hc |]; split; [reflexivity |]; split; [exact Hon |];
     repeat split; try assumption; exact I |].
  exact (repeated_flag_accumulates sample_repr [copy_command] "copy"
           "--output" copy_command output_flag ["a"; "-b"] Hc eq_refl Hon
           eq_refl Hno eq_refl eq_refl eq_refl Hopt I).
Defined.

(** * The result of a successful parse, read off the tokens *)





















(** ** The tokens are read in one way only *)








